(** * coalesce-memory: the [come] command (bin/come.js)

    A shallow embedding of [bin/come.js] and the properties of its
    reconciliation run: argument parsing, the unified-file bootstrap, the
    per-file link-state reconciliation, the content merge, the
    backup-then-replace step and the maintenance of the ignore list.

    Conventions of the embedding.
    - A JavaScript string is the list of its UTF-16 code units ([list N]);
      [js "..."] turns an ASCII literal into such a list.
    - The file system is a finite map from path strings to nodes (regular
      file with its decoded text, or symbolic link with its target string).
      Directories are implicit.
    - Node's [path] module, [process.platform], [process.cwd()],
      [Date.now()], the package version and the failures the host may
      inject into a file-system call are fields of an environment record
      [Env]: they are primitives the program consumes.
    - Asynchronous functions are functions in a state-and-exception monad
      [M] over the world (file system and console); [process.exit] is an
      outcome of its own that no [try]/[catch] intercepts. *)

From Stdlib Require Import NArith ZArith Ascii String Lia.
From stdpp Require Import gmap list.

Local Open Scope Z_scope.
Local Open Scope list_scope.

(** ** JavaScript strings *)

Abbreviation jsstring := (list N).

Definition js (s : string) : jsstring :=
  map N_of_ascii (list_ascii_of_string s).
Arguments js s%_string.

Definition NL : N := 10%N.
Definition BACKTICK : N := 96%N.
Definition BACKSLASH : N := 92%N.

(** [===] on strings. *)
Definition strEq (a b : jsstring) : bool := bool_decide (a = b).

(** White space and line terminators as [String.prototype.trim] strips them. *)
Definition isTrimChar (c : N) : bool :=
  ((9 <=? c) && (c <=? 13) || (c =? 32) || (c =? 160) || (c =? 5760)
   || (8192 <=? c) && (c <=? 8202) || (c =? 8232) || (c =? 8233)
   || (c =? 8239) || (c =? 8287) || (c =? 12288) || (c =? 65279))%N.

Fixpoint trimStart (s : jsstring) : jsstring :=
  match s with
  | [] => []
  | c :: s' => if isTrimChar c then trimStart s' else s
  end.

Definition trimEnd (s : jsstring) : jsstring := rev (trimStart (rev s)).

Definition trim (s : jsstring) : jsstring := trimEnd (trimStart s).

Fixpoint startsWith (s pat : jsstring) : bool :=
  match pat, s with
  | [], _ => true
  | _ :: _, [] => false
  | p :: pat', c :: s' => (p =? c)%N && startsWith s' pat'
  end.

Definition endsWith (s suffix : jsstring) : bool := startsWith (rev s) (rev suffix).

Fixpoint includes (s pat : jsstring) : bool :=
  startsWith s pat ||
  match s with
  | [] => false
  | _ :: s' => includes s' pat
  end.

(** [s.split(sep)] for a one-unit separator; the result is never empty. *)
Fixpoint split (s : jsstring) (sep : N) : list jsstring :=
  match s with
  | [] => [[]]
  | c :: s' =>
      if (c =? sep)%N then [] :: split s' sep
      else match split s' sep with
           | l :: ls => (c :: l) :: ls
           | [] => [[c]]
           end
  end.

Fixpoint join (ls : list jsstring) (sep : jsstring) : jsstring :=
  match ls with
  | [] => []
  | [l] => l
  | l :: ls' => l ++ sep ++ join ls' sep
  end.

(** [file.replace(/`/g, '\\`')] *)
Definition replaceBackticks (s : jsstring) : jsstring :=
  flat_map (fun c => if (c =? BACKTICK)%N then [BACKSLASH; BACKTICK] else [c]) s.

(** Template-literal rendering of numbers and booleans. *)
Fixpoint digitsOfUint (d : Decimal.uint) : jsstring :=
  match d with
  | Decimal.Nil => []
  | Decimal.D0 d' => 48%N :: digitsOfUint d'
  | Decimal.D1 d' => 49%N :: digitsOfUint d'
  | Decimal.D2 d' => 50%N :: digitsOfUint d'
  | Decimal.D3 d' => 51%N :: digitsOfUint d'
  | Decimal.D4 d' => 52%N :: digitsOfUint d'
  | Decimal.D5 d' => 53%N :: digitsOfUint d'
  | Decimal.D6 d' => 54%N :: digitsOfUint d'
  | Decimal.D7 d' => 55%N :: digitsOfUint d'
  | Decimal.D8 d' => 56%N :: digitsOfUint d'
  | Decimal.D9 d' => 57%N :: digitsOfUint d'
  end.

Definition showN (n : N) : jsstring := digitsOfUint (N.to_uint n).

Definition showZ (z : Z) : jsstring :=
  if z <? 0 then 45%N :: showN (Z.to_N (- z)) else showN (Z.to_N z).

Definition showBool (b : bool) : jsstring := if b then js "true" else js "false".

(** ** Arrays *)

(** [arr.findIndex((x, idx) => p x idx)], scanning from index [i]. *)
Fixpoint findIndexFrom {A} (p : A -> Z -> bool) (l : list A) (i : Z) : Z :=
  match l with
  | [] => -1
  | x :: l' => if p x i then i else findIndexFrom p l' (i + 1)
  end.

Definition findIndex {A} (p : A -> Z -> bool) (l : list A) : Z := findIndexFrom p l 0.

(** [arr.slice(a, b)] for [0 <= a]. *)
Definition slice {A} (l : list A) (a b : Z) : list A :=
  take (Z.to_nat (b - a)) (drop (Z.to_nat a) l).

(** [arr.splice(i, 0, x)] for [0 <= i]. *)
Definition spliceInsert {A} (l : list A) (i : Z) (x : A) : list A :=
  take (Z.to_nat i) l ++ x :: drop (Z.to_nat i) l.

(** [arr.some(p)] *)
Definition some {A} (p : A -> bool) (l : list A) : bool := existsb p l.

(** ** Errors, nodes and the environment *)

(** The part of a thrown error object that the program reads. *)
Record Error := mkError { code : jsstring; message : jsstring }.

(** libuv's message layout: code, description, system call and path(s). *)
Definition uvError (c descr syscall p : jsstring) (dest : option jsstring) : Error :=
  mkError c
    (c ++ js ": " ++ descr ++ js ", " ++ syscall ++ js " '" ++ p ++ js "'"
       ++ match dest with
          | Some d => js " -> '" ++ d ++ js "'"
          | None => []
          end).

Definition ENOENT (syscall p : jsstring) (dest : option jsstring) : Error :=
  uvError (js "ENOENT") (js "no such file or directory") syscall p dest.
Definition EEXIST (syscall p : jsstring) (dest : option jsstring) : Error :=
  uvError (js "EEXIST") (js "file already exists") syscall p dest.
Definition ELOOP (syscall p : jsstring) : Error :=
  uvError (js "ELOOP") (js "too many symbolic links encountered") syscall p None.
Definition EINVAL (syscall p : jsstring) : Error :=
  uvError (js "EINVAL") (js "invalid argument") syscall p None.

(** What [path.isAbsolute(undefined)] throws. *)
Definition pathTypeError : Error :=
  mkError (js "ERR_INVALID_ARG_TYPE")
    (js "The " ++ [34%N] ++ js "path" ++ [34%N]
       ++ js " argument must be of type string. Received undefined").

Inductive Node :=
  | File (content : jsstring)
  | Link (target : jsstring).

Abbreviation FS := (gmap (list N) Node).

(** The calls of [fs.promises] the program makes, with their arguments. *)
Inductive FsCall :=
  | CallAccess (p : jsstring)
  | CallLstat (p : jsstring)
  | CallReadlink (p : jsstring)
  | CallReadFile (p : jsstring)
  | CallWriteFile (p data : jsstring)
  | CallAppendFile (p data : jsstring)
  | CallSymlink (target p : jsstring)
  | CallUnlink (p : jsstring)
  | CallRename (oldPath newPath : jsstring)
  | CallCopyFile (src dest : jsstring).

Record Env := mkEnv {
  platform : jsstring;                              (* process.platform *)
  cwd : jsstring;                                   (* process.cwd() *)
  now : N;                                          (* Date.now() *)
  pkgVersion : jsstring;                            (* pkg.version *)
  pathJoin : jsstring -> jsstring -> jsstring;      (* path.join *)
  pathIsAbsolute : jsstring -> bool;                (* path.isAbsolute *)
  pathDirname : jsstring -> jsstring;               (* path.dirname *)
  pathBasename : jsstring -> jsstring;              (* path.basename *)
  pathRelative : jsstring -> jsstring -> jsstring;  (* path.relative *)
  (* the path a link at the first argument with the second as target leads to *)
  linkDest : jsstring -> jsstring -> jsstring;
  (* a failure the host imposes on a call (permissions, platform support) *)
  fault : FsCall -> option Error
}.

(** ** File-system primitives *)

Section FileSystem.
Context (env : Env).

(** Follows symbolic links from [p]; [None] when more than [fuel] links
    are met in a row. *)
Fixpoint follow (fuel : nat) (fs : FS) (p : jsstring) : option jsstring :=
  match fs !! p with
  | Some (Link t) =>
      match fuel with
      | O => None
      | S k => follow k fs (linkDest env p t)
      end
  | _ => Some p
  end.

Definition MAXSYMLINKS : nat := 40%nat.

Definition realpath (fs : FS) (p : jsstring) : option jsstring :=
  follow MAXSYMLINKS fs p.

Definition guarded {A} (c : FsCall) (k : Error + A) : Error + A :=
  match fault env c with
  | Some e => inl e
  | None => k
  end.

Definition fsAccess (p : jsstring) (fs : FS) : Error + unit :=
  guarded (CallAccess p)
    match realpath fs p with
    | None => inl (ELOOP (js "access") p)
    | Some q =>
        match fs !! q with
        | Some _ => inr tt
        | None => inl (ENOENT (js "access") p None)
        end
    end.

Definition fsLstat (p : jsstring) (fs : FS) : Error + Node :=
  guarded (CallLstat p)
    match fs !! p with
    | Some n => inr n
    | None => inl (ENOENT (js "lstat") p None)
    end.

Definition fsReadlink (p : jsstring) (fs : FS) : Error + jsstring :=
  guarded (CallReadlink p)
    match fs !! p with
    | Some (Link t) => inr t
    | Some (File _) => inl (EINVAL (js "readlink") p)
    | None => inl (ENOENT (js "readlink") p None)
    end.

Definition fsReadFile (p : jsstring) (fs : FS) : Error + jsstring :=
  guarded (CallReadFile p)
    match realpath fs p with
    | None => inl (ELOOP (js "open") p)
    | Some q =>
        match fs !! q with
        | Some (File c) => inr c
        | _ => inl (ENOENT (js "open") p None)
        end
    end.

Definition fsWriteFile (p data : jsstring) (fs : FS) : Error + FS :=
  guarded (CallWriteFile p data)
    match realpath fs p with
    | None => inl (ELOOP (js "open") p)
    | Some q => inr (<[q := File data]> fs)
    end.

Definition fsAppendFile (p data : jsstring) (fs : FS) : Error + FS :=
  guarded (CallAppendFile p data)
    match realpath fs p with
    | None => inl (ELOOP (js "open") p)
    | Some q =>
        match fs !! q with
        | Some (File c) => inr (<[q := File (c ++ data)]> fs)
        | _ => inr (<[q := File data]> fs)
        end
    end.

Definition fsSymlink (target p : jsstring) (fs : FS) : Error + FS :=
  guarded (CallSymlink target p)
    match fs !! p with
    | Some _ => inl (EEXIST (js "symlink") target (Some p))
    | None => inr (<[p := Link target]> fs)
    end.

Definition fsUnlink (p : jsstring) (fs : FS) : Error + FS :=
  guarded (CallUnlink p)
    match fs !! p with
    | Some _ => inr (delete p fs)
    | None => inl (ENOENT (js "unlink") p None)
    end.

Definition fsRename (oldPath newPath : jsstring) (fs : FS) : Error + FS :=
  guarded (CallRename oldPath newPath)
    match fs !! oldPath with
    | Some n => inr (<[newPath := n]> (delete oldPath fs))
    | None => inl (ENOENT (js "rename") oldPath (Some newPath))
    end.

Definition fsCopyFile (src dest : jsstring) (fs : FS) : Error + FS :=
  guarded (CallCopyFile src dest)
    match realpath fs src with
    | None => inl (ELOOP (js "copyfile") src)
    | Some q =>
        match fs !! q with
        | Some (File c) =>
            match realpath fs dest with
            | None => inl (ELOOP (js "copyfile") src)
            | Some d => inr (<[d := File c]> fs)
            end
        | _ => inl (ENOENT (js "copyfile") src (Some dest))
        end
    end.
End FileSystem.

(** ** The world and the monad of the program *)

Inductive ConsoleLine :=
  | StdOut (line : jsstring)    (* console.log *)
  | StdErr (line : jsstring).   (* console.error *)

Record World := mkWorld { files : FS; console : list ConsoleLine }.

Inductive Outcome (A : Type) : Type :=
  | Ret (a : A)
  | Throw (e : Error)
  | Exit (exitCode : Z).
Arguments Ret {A} a.
Arguments Throw {A} e.
Arguments Exit {A} exitCode.

Definition M (A : Type) : Type := World -> Outcome A * World.

Definition ret {A} (a : A) : M A := fun w => (Ret a, w).

Definition bind {A B} (m : M A) (k : A -> M B) : M B :=
  fun w =>
    match m w with
    | (Ret a, w') => k a w'
    | (Throw e, w') => (Throw e, w')
    | (Exit c, w') => (Exit c, w')
    end.

Notation "'let*' x ':=' m 'in' k" := (bind m (fun x => k))
  (at level 10, x name, m at level 100, k at level 200).
Notation "m '>>' k" := (bind m (fun _ => k))
  (at level 100, k at level 200, right associativity).

Definition throw {A} (e : Error) : M A := fun w => (Throw e, w).

(** [process.exit(c)] *)
Definition processExit {A} (c : Z) : M A := fun w => (Exit c, w).

(** [try { m } catch (e) { ... }], the caught error handed to the continuation. *)
Definition attempt {A} (m : M A) : M (Error + A) :=
  fun w =>
    match m w with
    | (Ret a, w') => (Ret (inr a), w')
    | (Throw e, w') => (Ret (inl e), w')
    | (Exit c, w') => (Exit c, w')
    end.

Definition consoleLog (line : jsstring) : M unit :=
  fun w => (Ret tt, mkWorld (files w) (console w ++ [StdOut line])).

Definition consoleError (line : jsstring) : M unit :=
  fun w => (Ret tt, mkWorld (files w) (console w ++ [StdErr line])).

Definition fsRead {A} (f : FS -> Error + A) : M A :=
  fun w =>
    match f (files w) with
    | inl e => (Throw e, w)
    | inr a => (Ret a, w)
    end.

Definition fsWrite (f : FS -> Error + FS) : M unit :=
  fun w =>
    match f (files w) with
    | inl e => (Throw e, w)
    | inr fs' => (Ret tt, mkWorld fs' (console w))
    end.

Fixpoint forEach {A} (l : list A) (body : A -> M unit) : M unit :=
  match l with
  | [] => ret tt
  | x :: l' => body x >> forEach l' body
  end.

(** ** CLI options and argument parsing (come.js, lines 31-39 and 100-133) *)

Record Options := mkOptions {
  output : option jsstring;     (* [None] is [undefined] *)
  absolute : bool;
  dryRun : bool;
  verbose : bool;
  showHelp : bool;
  showVersion : bool
}.

Definition defaultOptions : Options :=
  mkOptions (Some (js "AGENTS.md")) false false false false false.

Definition setShowHelp (o : Options) : Options :=
  mkOptions (output o) (absolute o) (dryRun o) (verbose o) true (showVersion o).
Definition setShowVersion (o : Options) : Options :=
  mkOptions (output o) (absolute o) (dryRun o) (verbose o) (showHelp o) true.
Definition setOutput (v : option jsstring) (o : Options) : Options :=
  mkOptions v (absolute o) (dryRun o) (verbose o) (showHelp o) (showVersion o).
Definition setAbsolute (o : Options) : Options :=
  mkOptions (output o) true (dryRun o) (verbose o) (showHelp o) (showVersion o).
Definition setDryRun (o : Options) : Options :=
  mkOptions (output o) (absolute o) true (verbose o) (showHelp o) (showVersion o).
Definition setVerbose (o : Options) : Options :=
  mkOptions (output o) (absolute o) (dryRun o) true (showHelp o) (showVersion o).

Inductive ParseResult :=
  | Parsed (options : Options) (filesToProcess : list jsstring)
  | UnknownOption (arg : jsstring).

(** The [for] loop over [args]: the list is [args.slice(i)], and the
    [-o]/[--output] case takes [args[++i]], which is [undefined] past the
    end. The loop has no effect but on [options] and [filesToProcess] until
    it meets an unknown option. *)
Fixpoint parseArgs (args : list jsstring) (options : Options)
    (filesToProcess : list jsstring) : ParseResult :=
  match args with
  | [] => Parsed options filesToProcess
  | arg :: rest =>
      if strEq arg (js "-h") || strEq arg (js "--help") then
        parseArgs rest (setShowHelp options) filesToProcess
      else if strEq arg (js "--version") then
        parseArgs rest (setShowVersion options) filesToProcess
      else if strEq arg (js "-o") || strEq arg (js "--output") then
        match rest with
        | [] => Parsed (setOutput None options) filesToProcess
        | v :: rest' => parseArgs rest' (setOutput (Some v) options) filesToProcess
        end
      else if strEq arg (js "--absolute") then
        parseArgs rest (setAbsolute options) filesToProcess
      else if strEq arg (js "--dry-run") then
        parseArgs rest (setDryRun options) filesToProcess
      else if strEq arg (js "-v") || strEq arg (js "--verbose") then
        parseArgs rest (setVerbose options) filesToProcess
      else if startsWith arg (js "-") then
        UnknownOption arg
      else
        parseArgs rest options (filesToProcess ++ [arg])
  end.

(** ** Content-merge markers (come.js, lines 231-233) *)

Definition safeFilename (file : jsstring) : jsstring := replaceBackticks file.

Definition blockStart (file : jsstring) : jsstring :=
  js "`>>> " ++ safeFilename file ++ js "`".

Definition blockEnd (file : jsstring) : jsstring :=
  js "`<<< " ++ safeFilename file ++ js "`".

(** The separator of line 237. *)
Definition mergeSeparator (unifiedTx : jsstring) : jsstring :=
  if (0 <? Z.of_nat (length unifiedTx)) && negb (endsWith unifiedTx [NL; NL])
  then [NL; NL] else [].

(** The text handed to [fs.appendFile] at lines 239-242. *)
Definition mergeText (file content unifiedTx : jsstring) : jsstring :=
  mergeSeparator unifiedTx ++ blockStart file ++ [NL] ++ trim content ++ [NL]
    ++ blockEnd file ++ [NL].

(** ** Ignore-list markers (come.js, lines 58-59) *)

Definition gitignoreBlockStart : jsstring := js "# coalesce-memory symlinked files".
Definition gitignoreBlockEnd : jsstring := js "# end coalesce-memory".

(** ** The program *)

Section Program.
Context (env : Env).

Inductive LogLevel := LevelInfo | LevelVerbose.

(** [log(message, level = 'info')] (lines 41-44) *)
Definition log (options : Options) (msg : jsstring) (level : LogLevel) : M unit :=
  match level with
  | LevelVerbose => if negb (verbose options) then ret tt else consoleLog msg
  | LevelInfo => consoleLog msg
  end.

(** [logVerbose(message)] (lines 46-48) *)
Definition logVerbose (options : Options) (msg : jsstring) : M unit :=
  log options msg LevelVerbose.

(** The test of line 19. *)
Definition windowsFallbackApplies (err : Error) : bool :=
  strEq (platform env) (js "win32")
  && (strEq (code err) (js "EPERM") || strEq (code err) (js "ENOENT")).

(** [createSymlinkWithFallback(target, linkPath, fallbackSourcePath)]
    (lines 14-29) *)
Definition createSymlinkWithFallback (options : Options)
    (target linkPath fallbackSourcePath : jsstring) : M unit :=
  let* r := attempt (fsWrite (fsSymlink env target linkPath)) in
  match r with
  | inr _ =>
      logVerbose options (js "Created symlink: " ++ linkPath ++ js " -> " ++ target)
  | inl err =>
      if windowsFallbackApplies err then
        log options
          (js "Symlink failed on Windows, falling back to copy mode for "
             ++ pathBasename env linkPath) LevelInfo >>
        logVerbose options (js "Error: " ++ message err) >>
        fsWrite (fsCopyFile env fallbackSourcePath linkPath) >>
        logVerbose options
          (js "Copied file: " ++ fallbackSourcePath ++ js " -> " ++ linkPath)
      else
        logVerbose options (js "Symlink error: " ++ message err) >>
        throw err
  end.

(** The two index searches of lines 73-77. *)
Definition gitignoreStartIdx (lines : list jsstring) : Z :=
  findIndex (fun line _ => strEq (trim line) gitignoreBlockStart) lines.

Definition gitignoreEndIdx (lines : list jsstring) (startIdx : Z) : Z :=
  if negb (startIdx =? -1)
  then findIndex (fun line idx => (startIdx <? idx) && strEq (trim line) gitignoreBlockEnd)
         lines
  else -1.

(** [addToGitignore(cwd, filename)] (lines 50-94) *)
Definition addToGitignore (options : Options) (cwd' filename : jsstring) : M unit :=
  if dryRun options then
    logVerbose options (js "[dry-run] Would add " ++ filename ++ js " to .gitignore")
  else
    logVerbose options (js "Processing .gitignore for " ++ filename) >>
    let gitignorePath := pathJoin env cwd' (js ".gitignore") in
    let* r := attempt (fsRead (fsReadFile env gitignorePath)) in
    match r with
    | inl _ =>
        let block := gitignoreBlockStart ++ [NL] ++ filename ++ [NL]
                       ++ gitignoreBlockEnd ++ [NL] in
        fsWrite (fsWriteFile env gitignorePath block) >>
        log options
          (js "Created .gitignore with coalesce-memory block and added " ++ filename)
          LevelInfo >>
        logVerbose options
          (js "Added block: " ++ gitignoreBlockStart ++ js " ... " ++ gitignoreBlockEnd)
    | inr content =>
        let lines := split content NL in
        let startIdx := gitignoreStartIdx lines in
        let endIdx := gitignoreEndIdx lines startIdx in
        if negb (startIdx =? -1) && negb (endIdx =? -1) then
          let blockEntries := slice lines (startIdx + 1) endIdx in
          if some (fun line => strEq (trim line) filename) blockEntries then
            ret tt
          else
            let lines' := spliceInsert lines endIdx filename in
            fsWrite (fsWriteFile env gitignorePath (join lines' [NL])) >>
            logVerbose options (js "Added " ++ filename ++ js " to .gitignore") >>
            logVerbose options
              (js "Updated existing block at lines " ++ showZ (startIdx + 1)
                 ++ js "-" ++ showZ (endIdx + 1))
        else
          let separator :=
            if 0 <? Z.of_nat (length content) then [NL; NL] else [] in
          let block := separator ++ gitignoreBlockStart ++ [NL] ++ filename ++ [NL]
                         ++ gitignoreBlockEnd ++ [NL] in
          fsWrite (fsAppendFile env gitignorePath block) >>
          log options
            (js "Added " ++ filename ++ js " to .gitignore in coalesce-memory block")
            LevelInfo >>
          logVerbose options
            (js "Created new block: " ++ gitignoreBlockStart ++ js " ... "
               ++ gitignoreBlockEnd)
    end.

(** The link target of lines 198, 211 and 252. *)
Definition linkTarget (options : Options) (filePath unifiedPath : jsstring) : jsstring :=
  if absolute options then unifiedPath
  else pathRelative env (pathDirname env filePath) unifiedPath.

(** The backup path of line 254. *)
Definition backupPathOf (filePath : jsstring) : jsstring :=
  filePath ++ js ".backup-" ++ showN (now env).

(** Step a of the loop body: merge the contents (lines 229-249). *)
Definition mergeContents (options : Options) (unified unifiedPath file filePath : jsstring)
    : M unit :=
  let* content := fsRead (fsReadFile env filePath) in
  let* unifiedTx := fsRead (fsReadFile env unifiedPath) in
  if negb (includes unifiedTx (blockStart file)) then
    (if negb (dryRun options) then
       fsWrite (fsAppendFile env unifiedPath (mergeText file content unifiedTx))
     else ret tt) >>
    log options
      ((if dryRun options then js "[dry-run] Would merge" else js "Merged")
         ++ js " " ++ file ++ js " into " ++ unified) LevelInfo >>
    logVerbose options
      (js "Block markers: " ++ blockStart file ++ js " ... " ++ blockEnd file)
  else
    logVerbose options
      (js "Block for " ++ file ++ js " already exists in " ++ unified
         ++ js ", skipping merge") >>
    logVerbose options (js "Found existing block: " ++ blockStart file).

(** Step b of the loop body: replace the file with a link (lines 251-271). *)
Definition replaceWithSymlink (options : Options)
    (unified unifiedPath file filePath : jsstring) : M unit :=
  let symlinkTarget := linkTarget options filePath unifiedPath in
  (if negb (dryRun options) then
     let backupPath := backupPathOf filePath in
     let* r := attempt
                 (fsWrite (fsRename env filePath backupPath) >>
                  createSymlinkWithFallback options symlinkTarget filePath unifiedPath >>
                  fsWrite (fsUnlink env backupPath)) in
     match r with
     | inr _ => ret tt
     | inl symlinkErr =>
         let* r' := attempt (fsWrite (fsRename env backupPath filePath)) in
         match r' with
         | inr _ => throw symlinkErr
         | inl rollbackErr =>
             consoleError
               (js "Critical error: Failed to rollback " ++ file ++ js ". Backup at "
                  ++ backupPath) >>
             throw rollbackErr
         end
     end
   else ret tt) >>
  log options
    ((if dryRun options then js "[dry-run] Would replace" else js "Replaced")
       ++ js " " ++ file ++ js " with a symlink to " ++ unified) LevelInfo >>
  logVerbose options (js "Symlink target: " ++ symlinkTarget).

(** The body of the [for (const file of filesToProcess)] loop (lines 183-275). *)
Definition processFile (options : Options) (unified unifiedPath file : jsstring) : M unit :=
  if strEq file unified then
    logVerbose options (js "Skipping " ++ file ++ js " (the unified file itself)")
  else
    logVerbose options (js "Processing file: " ++ file) >>
    let filePath := pathJoin env (cwd env) file in
    let* st := attempt (fsRead (fsLstat env filePath)) in
    match st with
    | inl _ =>
        let symlinkTarget := linkTarget options filePath unifiedPath in
        (if negb (dryRun options)
         then createSymlinkWithFallback options symlinkTarget filePath unifiedPath
         else ret tt) >>
        log options
          ((if dryRun options then js "[dry-run] Would create" else js "Created")
             ++ js " symlink for non-existent file: " ++ file) LevelInfo >>
        logVerbose options (js "Symlink target: " ++ symlinkTarget) >>
        addToGitignore options (cwd env) file
    | inr (Link _) =>
        let* currentTarget := fsRead (fsReadlink env filePath) in
        let expectedTarget := linkTarget options filePath unifiedPath in
        (if negb (strEq currentTarget expectedTarget) then
           log options
             (js "Symlink " ++ file ++ js " points to wrong target (" ++ currentTarget
                ++ js "), updating to " ++ expectedTarget) LevelInfo >>
           logVerbose options (js "Expected target: " ++ expectedTarget) >>
           (if negb (dryRun options) then
              fsWrite (fsUnlink env filePath) >>
              createSymlinkWithFallback options expectedTarget filePath unifiedPath
            else ret tt) >>
           log options
             ((if dryRun options then js "[dry-run] Would update" else js "Updated")
                ++ js " symlink target for " ++ file) LevelInfo
         else
           logVerbose options
             (js "Skipping " ++ file ++ js " (already a symlink with correct target)") >>
           logVerbose options (js "Current target: " ++ currentTarget)) >>
        addToGitignore options (cwd env) file
    | inr (File _) =>
        mergeContents options unified unifiedPath file filePath >>
        replaceWithSymlink options unified unifiedPath file filePath >>
        addToGitignore options (cwd env) file
    end.

Definition helpLines : list jsstring :=
  [ js "Usage: come [options] <file1.md> [file2.md] [...]";
    js "";
    js "Options:";
    js "  -h, --help       display help information";
    js "      --version    display version";
    js "  -o, --output     unified output file (default: AGENTS.md)";
    js "      --absolute   use absolute paths for symlink targets";
    js "      --dry-run    show actions without making changes";
    js "  -v, --verbose    enable verbose logging" ].

(** Step 1: ensure the unified file exists (lines 169-180). *)
Definition ensureUnified (options : Options) (unified unifiedPath : jsstring) : M unit :=
  if negb (dryRun options) then
    let* r := attempt (fsRead (fsAccess env unifiedPath)) in
    match r with
    | inr _ => logVerbose options (js "Unified file " ++ unified ++ js " already exists")
    | inl _ =>
        fsWrite (fsWriteFile env unifiedPath []) >>
        logVerbose options (js "Created empty unified file: " ++ unified)
    end
  else
    logVerbose options (js "[dry-run] Would ensure unified file exists: " ++ unified).

(** The [try] block of the program (lines 98-275). *)
Definition mainTry (args : list jsstring) : M unit :=
  match parseArgs args defaultOptions [] with
  | UnknownOption arg =>
      consoleError (js "Unknown option: " ++ arg) >> processExit 1
  | Parsed options filesToProcess =>
      if showHelp options then
        forEach helpLines consoleLog >> processExit 0
      else if showVersion options then
        consoleLog (pkgVersion env) >> processExit 0
      else if (Z.of_nat (length filesToProcess) =? 0) then
        consoleLog (js "No input files specified.") >>
        consoleLog (js "Usage: come [options] <file1.md> [file2.md] [...]") >>
        processExit 0
      else
        match output options with
        | None => throw pathTypeError
        | Some unified =>
            let unifiedPath :=
              if pathIsAbsolute env unified then unified
              else pathJoin env (cwd env) unified in
            (if dryRun options
             then consoleLog (js "[dry-run] Dry run mode: no changes will be made.")
             else ret tt) >>
            logVerbose options
              (js "Processing " ++ showZ (Z.of_nat (length filesToProcess))
                 ++ js " files with unified output: " ++ unified) >>
            logVerbose options
              (js "Options: absolute=" ++ showBool (absolute options)
                 ++ js ", dryRun=" ++ showBool (dryRun options)
                 ++ js ", verbose=" ++ showBool (verbose options)) >>
            ensureUnified options unified unifiedPath >>
            forEach filesToProcess (processFile options unified unifiedPath)
        end
  end.

(** The whole program: the [try] block and its [catch] (lines 96-281). *)
Definition main (args : list jsstring) : M unit :=
  let* r := attempt (mainTry args) in
  match r with
  | inr _ => ret tt
  | inl err => consoleError (js "Error: " ++ message err) >> processExit 1
  end.

(** The exit code of the process. *)
Definition exitCodeOf (o : Outcome unit) : Z :=
  match o with
  | Ret _ => 0
  | Exit c => c
  | Throw _ => 1
  end.
End Program.

(** ** Auxiliary definitions for the statements *)

(** The inverse of [replaceBackticks]: drops the backslash in front of
    every backtick. *)
Fixpoint unescapeBackticks (s : jsstring) : jsstring :=
  match s with
  | [] => []
  | c :: s' =>
      match s' with
      | d :: s'' =>
          if (c =? BACKSLASH)%N && (d =? BACKTICK)%N
          then BACKTICK :: unescapeBackticks s''
          else c :: unescapeBackticks s'
      | [] => [c]
      end
  end.

(** ** Concrete environments for the examples

    Path functions on the paths the examples use: normalised absolute paths
    and plain relative names without [.] or [..] segments. On these they
    agree with Node's [path.posix] and [path.win32] and with the way the
    host resolves a link target against the directory of the link. *)
Module Paths.
Section Separator.
Context (sep : N) (isAbsolute : jsstring -> bool).

Definition pjoin (a b : jsstring) : jsstring := a ++ [sep] ++ b.

Definition dirname (p : jsstring) : jsstring :=
  match join (removelast (split p sep)) [sep] with
  | [] => if isAbsolute p then [sep] else js "."
  | d => d
  end.

Definition basename (p : jsstring) : jsstring := List.last (split p sep) [].

(** [path.relative(from, to)] for a [to] below [from]. *)
Definition relative (from to : jsstring) : jsstring :=
  if startsWith to (from ++ [sep]) then drop (S (length from)) to else to.

Definition dest (p target : jsstring) : jsstring :=
  if isAbsolute target then target else pjoin (dirname p) target.
End Separator.

Definition noFault : FsCall -> option Error := fun _ => None.

(** The host refuses to create symbolic links. *)
Definition symlinkDenied (c : jsstring) : FsCall -> option Error :=
  fun call =>
    match call with
    | CallSymlink target p =>
        Some (uvError c (js "operation not permitted") (js "symlink") target (Some p))
    | _ => None
    end.

Definition posixAbsolute (p : jsstring) : bool := startsWith p [47%N].

Definition win32Absolute (p : jsstring) : bool :=
  match p with
  | 92%N :: _ => true
  | _ :: 58%N :: 92%N :: _ => true
  | _ => false
  end.

(** Working directory [/w] on a POSIX host. *)
Definition posix (plat : jsstring) (flt : FsCall -> option Error) : Env :=
  mkEnv plat (js "/w") 1700000000000%N (js "1.0.0")
    (pjoin 47%N) posixAbsolute (dirname 47%N posixAbsolute) (basename 47%N)
    (relative 47%N) (dest 47%N posixAbsolute) flt.

(** Working directory [C:\w] on a Windows host. *)
Definition win32 (flt : FsCall -> option Error) : Env :=
  mkEnv (js "win32") (js "C:\w") 1700000000000%N (js "1.0.0")
    (pjoin 92%N) win32Absolute (dirname 92%N win32Absolute) (basename 92%N)
    (relative 92%N) (dest 92%N win32Absolute) flt.

Definition linux : Env := posix (js "linux") noFault.
End Paths.

Arguments js : simpl never.
Arguments strEq : simpl never.

(** [a] is one of the two spellings of the output flag. *)
Definition isOutputFlag (a : jsstring) : Prop := a = js "-o" \/ a = js "--output".

(** What [log] prints. *)
Definition logged (options : Options) (msg : jsstring) (level : LogLevel)
    : list ConsoleLine :=
  match level with
  | LevelVerbose => if verbose options then [StdOut msg] else []
  | LevelInfo => [StdOut msg]
  end.

Definition emit (ls : list ConsoleLine) (w : World) : World :=
  mkWorld (files w) (console w ++ ls).

(** ** Worlds of the examples *)
Module Scenario.
(** A Windows host that denies symbolic links; the unified file exists. *)
Definition deniedWin32 : Env := Paths.win32 (Paths.symlinkDenied (js "EPERM")).

(** A POSIX host on which creating a symbolic link fails. *)
Definition deniedLinux : Env := Paths.posix (js "linux") (Paths.symlinkDenied (js "EPERM")).

Definition winWorld : World :=
  mkWorld (<[js "C:\w\AGENTS.md" := File (js "hello")]> ∅) [].

(** [CLAUDE.md] is a regular file holding [rules]; nothing else exists. *)
Definition rulesWorld : World :=
  mkWorld (<[js "/w/CLAUDE.md" := File (js "rules")]> ∅) [].
End Scenario.

Module MergeScenario.
(** [CLAUDE.md] holds [ rules ] with blanks around it, [AGENTS.md] holds [x]. *)
Definition mergeWorld : World :=
  mkWorld (<[js "/w/CLAUDE.md" := File (js " rules ")]>
             (<[js "/w/AGENTS.md" := File (js "x")]> ∅)) [].
End MergeScenario.

(** The line tests of [addToGitignore]. *)
Definition isStartLine (line : jsstring) : bool := strEq (trim line) gitignoreBlockStart.
Definition isEndLine (line : jsstring) : bool := strEq (trim line) gitignoreBlockEnd.

(** The outcome of a run and the file system it leaves, the console put aside. *)
Definition effect {A} (m : M A) (w : World) : Outcome A * FS :=
  (fst (m w), files (snd (m w))).

(** The ignore-list block that a first entry creates. *)
Definition gitignoreBlock (filename : jsstring) : jsstring :=
  gitignoreBlockStart ++ [NL] ++ filename ++ [NL] ++ gitignoreBlockEnd ++ [NL].

(** The file system after a write call, unchanged when the call fails. *)
Definition written (r : Error + FS) (fs : FS) : Outcome unit * FS :=
  match r with
  | inl e => (Throw e, fs)
  | inr fs' => (Ret tt, fs')
  end.

(** The separator of line 88. *)
Definition gitignoreSeparator (content : jsstring) : jsstring :=
  if 0 <? Z.of_nat (length content) then [NL; NL] else [].

(** The lines of an ignore file hold a complete block: [s] is the first
    start marker line and [e] the first end marker line behind it. *)
Definition completeBlock (lines pre : list jsstring) (s : jsstring)
    (mid : list jsstring) (e : jsstring) (post : list jsstring) : Prop :=
  lines = pre ++ s :: mid ++ e :: post
  /\ Forall (fun l => isStartLine l = false) pre /\ isStartLine s = true
  /\ Forall (fun l => isEndLine l = false) mid /\ isEndLine e = true.

(** The lines hold a start marker line, [s] the first, and no end marker
    line behind it. *)
Definition truncatedBlock (lines pre : list jsstring) (s : jsstring)
    (post : list jsstring) : Prop :=
  lines = pre ++ s :: post
  /\ Forall (fun l => isStartLine l = false) pre /\ isStartLine s = true
  /\ Forall (fun l => isEndLine l = false) post.

Module IgnoreScenario.
(** An ignore file whose block lost its end marker. *)
Definition truncated : jsstring :=
  js "node_modules" ++ [NL] ++ gitignoreBlockStart ++ [NL] ++ js "old.md".

Definition truncatedWorld : World :=
  mkWorld (<[js "/w/.gitignore" := File truncated]> ∅) [].

(** An ignore file with a complete block and the name also outside of it. *)
Definition complete : jsstring :=
  js "CLAUDE.md" ++ [NL] ++ gitignoreBlockStart ++ [NL] ++ js "old.md" ++ [NL]
    ++ gitignoreBlockEnd ++ [NL] ++ js "CLAUDE.md".

Definition completeWorld : World :=
  mkWorld (<[js "/w/.gitignore" := File complete]> ∅) [].
End IgnoreScenario.

(** [m] leaves the file system as it finds it, whatever its outcome. *)
Definition preservesFiles {A} (m : M A) : Prop :=
  forall w, files (snd (m w)) = files w.

(** Every run of [m] takes the file system to one related to it by [R]. *)
Definition respects {A : Type} (R : FS -> FS -> Prop) (m : M A) : Prop :=
  forall w, R (files w) (files (snd (m w))).

(** Every symbolic link of [fs] is in [fs'], with its target. *)
Definition linksKept (fs fs' : FS) : Prop :=
  forall p t, fs !! p = Some (Link t) -> fs' !! p = Some (Link t).

Module LinkScenario.
(** [CLAUDE.md] links to [OLD.md], [GEMINI.md] to the unified file. *)
Definition linkWorld : World :=
  mkWorld (<[js "/w/CLAUDE.md" := Link (js "OLD.md")]>
             (<[js "/w/GEMINI.md" := Link (js "AGENTS.md")]>
                (<[js "/w/AGENTS.md" := File (js "x")]> ∅))) [].

(** On Windows: [CLAUDE.md] links to [OLD.md], the unified file holds [hello]. *)
Definition winLinkWorld : World :=
  mkWorld (<[js "C:\w\CLAUDE.md" := Link (js "OLD.md")]> (files Scenario.winWorld)) [].
End LinkScenario.

Module RollbackScenario.


Definition backup : jsstring := js "/w/CLAUDE.md.backup-1700000000000".
End RollbackScenario.

(** [filename] is an entry of the complete block of an ignore file with the
    text [content]: [addToGitignore] returns early on it. *)
Definition entryListed (content filename : jsstring) : Prop :=
  exists pre s mid e post,
    completeBlock (split content NL) pre s mid e post
    /\ some (fun line => strEq (trim line) filename) mid = true.

(** A filename that the ignore list can hold on a line of its own and find
    again: no blank at either end, no newline, and not the end marker. *)
Definition plainName (filename : jsstring) : Prop :=
  trim filename = filename /\ (NL ∉ filename) /\ filename ≠ gitignoreBlockEnd.

(** [filename] is listed in the ignore file at [gitignorePath]. *)
Definition listedIn (gitignorePath : jsstring) (fs : FS) (filename : jsstring) : Prop :=
  exists content, fs !! gitignorePath = Some (File content) /\ entryListed content filename.

(** The paths of a run. *)
Definition inputPath (env : Env) (file : jsstring) : jsstring :=
  pathJoin env (cwd env) file.

Definition gitignorePathOf (env : Env) : jsstring :=
  pathJoin env (cwd env) (js ".gitignore").

Definition unifiedPathOf (env : Env) (unified : jsstring) : jsstring :=
  if pathIsAbsolute env unified then unified else pathJoin env (cwd env) unified.

(** The state the run drives the inputs [done] to: the unified file is a
    regular file, the ignore file is no link, and every input other than
    the unified file is a link with the expected target and is listed in
    the ignore file. *)
Definition converged (env : Env) (options : Options) (unified unifiedPath : jsstring)
    (done : list jsstring) (fs : FS) : Prop :=
  (exists U, fs !! unifiedPath = Some (File U))
  /\ (forall t, fs !! gitignorePathOf env ≠ Some (Link t))
  /\ (forall f, f ∈ done -> f ≠ unified ->
        fs !! inputPath env f
        = Some (Link (linkTarget env options (inputPath env f) unifiedPath))
        /\ listedIn (gitignorePathOf env) fs f).

(** The paths of the input [f] and of its backup keep clear of the unified
    file and of the ignore file. *)
Definition clearPaths (env : Env) (unifiedPath f : jsstring) : Prop :=
  inputPath env f ≠ unifiedPath
  /\ inputPath env f ≠ gitignorePathOf env
  /\ backupPathOf env (inputPath env f) ≠ unifiedPath
  /\ backupPathOf env (inputPath env f) ≠ gitignorePathOf env.

(** The lines of a console that went to standard error. *)
Definition isStdErr (l : ConsoleLine) : bool :=
  match l with
  | StdErr _ => true
  | StdOut _ => false
  end.

Definition stderrOf (c : list ConsoleLine) : list ConsoleLine := List.filter isStdErr c.

(** [m] prints nothing on standard error and does not end the process. *)
Definition silent {A : Type} (m : M A) : Prop :=
  forall w,
    stderrOf (console (snd (m w))) = stderrOf (console w)
    /\ forall c, fst (m w) ≠ Exit c.

(** [m] does not end the process, and prints nothing on standard error when
    it returns. *)
Definition returnsQuietly {A : Type} (m : M A) : Prop :=
  forall w,
    (forall c, fst (m w) ≠ Exit c)
    /\ (forall a, fst (m w) = Ret a ->
                  stderrOf (console (snd (m w))) = stderrOf (console w)).

(** From a file system in which no path of [keep] is a link, [fs'] is one
    in which none is either and which differs from [fs] at paths of [S]
    only. *)
Definition frame (keep : list jsstring) (S : jsstring -> Prop) (fs fs' : FS) : Prop :=
  (forall p, p ∈ keep -> forall t, fs !! p ≠ Some (Link t)) ->
  (forall p, p ∈ keep -> forall t, fs' !! p ≠ Some (Link t))
  /\ (forall p, ~ S p -> fs' !! p = fs !! p).

(** The paths a run may write to: the unified file, the ignore file, the
    inputs and their backups. *)
Definition pathOfRun (env : Env) (unifiedPath : jsstring) (filesToProcess : list jsstring)
    (p : jsstring) : Prop :=
  p = unifiedPath \/ p = gitignorePathOf env
  \/ exists f, f ∈ filesToProcess
               /\ (p = inputPath env f \/ p = backupPathOf env (inputPath env f)).

Module EdgeScenario.
(** Nothing can be removed. *)
Definition unlinkDenied : FsCall -> option Error :=
  fun call =>
    match call with
    | CallUnlink p =>
        Some (uvError (js "EACCES") (js "permission denied") (js "unlink") p None)
    | _ => None
    end.

(** [/w/CLAUDE.md] cannot be renamed. *)
Definition renameDenied : FsCall -> option Error :=
  fun call =>
    match call with
    | CallRename a b =>
        if strEq a (js "/w/CLAUDE.md")
        then Some (uvError (js "EACCES") (js "permission denied") (js "rename")
                     a (Some b))
        else None
    | _ => None
    end.
(** No file can be read. *)
Definition readDenied : FsCall -> option Error :=
  fun call =>
    match call with
    | CallReadFile p =>
        Some (uvError (js "EACCES") (js "permission denied") (js "open") p None)
    | _ => None
    end.
(** The status of no path can be read. *)
Definition lstatDenied : FsCall -> option Error :=
  fun call =>
    match call with
    | CallLstat p =>
        Some (uvError (js "EACCES") (js "permission denied") (js "lstat") p None)
    | _ => None
    end.
End EdgeScenario.

(** [m] and [m'] end the same way and leave the same files, from worlds
    that have the same files, whatever is on their consoles. *)
Definition sameEffect {A : Type} (m m' : M A) : Prop :=
  forall w w', files w = files w' -> effect m w = effect m' w'.

(** Options that differ in verbosity at most. *)
Definition sameButVerbose (o o' : Options) : Prop :=
  output o = output o' /\ absolute o = absolute o' /\ dryRun o = dryRun o'
  /\ showHelp o = showHelp o' /\ showVersion o = showVersion o'.

(** * Properties of the program *)

(** ** Marker escaping (C4) *)

Lemma replaceBackticks_cons c s :
  replaceBackticks (c :: s) =
  (if (c =? BACKTICK)%N then [BACKSLASH; BACKTICK] else [c]) ++ replaceBackticks s.
Proof. reflexivity. Qed.

(** An escaped string never begins with a backtick. *)
Lemma replaceBackticks_head s :
  match replaceBackticks s with
  | d :: _ => (d =? BACKTICK)%N = false
  | [] => True
  end.
Proof.
  destruct s as [|c s]; [exact I|].
  rewrite replaceBackticks_cons.
  destruct (c =? BACKTICK)%N eqn:E; simpl; [reflexivity | exact E].
Qed.

Lemma unescape_replaceBackticks s : unescapeBackticks (replaceBackticks s) = s.
Proof.
  induction s as [|c s IH]; [reflexivity|].
  rewrite replaceBackticks_cons.
  destruct (c =? BACKTICK)%N eqn:E.
  - apply N.eqb_eq in E. subst c. simpl. f_equal. exact IH.
  - pose proof (replaceBackticks_head s) as Hh.
    simpl app. destruct (replaceBackticks s) as [|d r] eqn:Er.
    + simpl. simpl in IH. congruence.
    + cbn [unescapeBackticks]. rewrite Hh, andb_false_r. f_equal. exact IH.
Qed.

Lemma replaceBackticks_inj f g : replaceBackticks f = replaceBackticks g -> f = g.
Proof.
  intros H. rewrite <- (unescape_replaceBackticks f), <- (unescape_replaceBackticks g).
  now rewrite H.
Qed.

Lemma blockStart_inj f g : blockStart f = blockStart g -> f = g.
Proof.
  unfold blockStart, safeFilename. intros H.
  apply app_inv_head in H. apply app_inv_tail in H.
  now apply replaceBackticks_inj.
Qed.

Lemma blockEnd_inj f g : blockEnd f = blockEnd g -> f = g.
Proof.
  unfold blockEnd, safeFilename. intros H.
  apply app_inv_head in H. apply app_inv_tail in H.
  now apply replaceBackticks_inj.
Qed.

(** C4: the markers of a filename that contains a backtick are its own.
    No other filename has the same start or end marker, and in particular no
    filename without a backtick has. *)
Theorem markers_unique (f g : jsstring) :
  BACKTICK ∈ f ->
  (f ≠ g -> blockStart f ≠ blockStart g ∧ blockEnd f ≠ blockEnd g)
  ∧ (BACKTICK ∉ g -> blockStart f ≠ blockStart g ∧ blockEnd f ≠ blockEnd g).
Proof.
  intros Hf.
  assert (Hne : f ≠ g -> blockStart f ≠ blockStart g ∧ blockEnd f ≠ blockEnd g).
  { intros Hfg. split; intros H; apply Hfg.
    - now apply blockStart_inj.
    - now apply blockEnd_inj. }
  split; [exact Hne|].
  intros Hg. apply Hne. intros ->. contradiction.
Qed.

Lemma markers_unique_witness :
  (blockStart (js "a`b") ≠ blockStart (js "a\`b")
   ∧ blockEnd (js "a`b") ≠ blockEnd (js "a\`b"))
  ∧ (blockStart (js "a`b") ≠ blockStart (js "ab")
     ∧ blockEnd (js "a`b") ≠ blockEnd (js "ab")).
Proof.
  assert (Hin : BACKTICK ∈ js "a`b")
    by (apply (bool_decide_unpack _); vm_compute; exact I).
  split.
  - apply (proj1 (markers_unique (js "a`b") (js "a\`b") Hin)).
    apply (bool_decide_unpack _); vm_compute; exact I.
  - apply (proj2 (markers_unique (js "a`b") (js "ab") Hin)).
    apply (bool_decide_unpack _); vm_compute; exact I.
Defined.

(** ** String predicates against their meaning *)

Lemma strEq_true a b : strEq a b = true <-> a = b.
Proof. unfold strEq. apply bool_decide_eq_true. Qed.

Lemma strEq_false a b : strEq a b = false <-> a ≠ b.
Proof. unfold strEq. apply bool_decide_eq_false. Qed.

Lemma strEq_refl a : strEq a a = true.
Proof. now apply strEq_true. Qed.

Lemma startsWith_spec s pat : startsWith s pat = true <-> exists r, s = pat ++ r.
Proof.
  revert s. induction pat as [|p pat IH]; intros s.
  - destruct s; simpl; split; eauto.
  - destruct s as [|c s]; simpl.
    + split; [discriminate | intros [r Hr]; discriminate].
    + rewrite andb_true_iff, N.eqb_eq, IH. split.
      * intros [-> [r ->]]. eauto.
      * intros [r Hr]. injection Hr as -> ->. eauto.
Qed.

Lemma includes_spec s pat : includes s pat = true <-> exists a b, s = a ++ pat ++ b.
Proof.
  induction s as [|c s IH].
  - cbn [includes]. rewrite orb_false_r, startsWith_spec. split.
    + intros [r Hr]. exists [], r. exact Hr.
    + intros [a [b Hab]]. destruct a; [eauto|discriminate].
  - cbn [includes]. rewrite orb_true_iff, startsWith_spec, IH. split.
    + intros [[r Hr] | [a [b Hab]]].
      * exists [], r. exact Hr.
      * exists (c :: a), b. simpl. now f_equal.
    + intros [a [b Hab]]. destruct a as [|a0 a].
      * left. eauto.
      * right. injection Hab as _ Hab. eauto.
Qed.

Lemma endsWith_spec s suffix : endsWith s suffix = true <-> exists a, s = a ++ suffix.
Proof.
  unfold endsWith. rewrite startsWith_spec. split.
  - intros [r Hr]. exists (rev r).
    rewrite <- (rev_involutive s), Hr, rev_app_distr, rev_involutive. reflexivity.
  - intros [a ->]. exists (rev a). apply rev_app_distr.
Qed.

(** ** Argument parsing (C9) *)

Lemma parseArgs_output flag v rest o f :
  isOutputFlag flag ->
  parseArgs (flag :: v :: rest) o f = parseArgs rest (setOutput (Some v) o) f.
Proof. intros [-> | ->]; reflexivity. Qed.

(** A prefix without output flags is parsed on its own. *)
Lemma parseArgs_app pre rest o f :
  Forall (fun a => ~ isOutputFlag a) pre ->
  parseArgs (pre ++ rest) o f =
  match parseArgs pre o f with
  | Parsed o1 f1 => parseArgs rest o1 f1
  | UnknownOption a => UnknownOption a
  end.
Proof.
  intros Hpre. revert o f.
  induction Hpre as [|a pre Ha _ IH]; intros o f; [reflexivity|].
  cbn [app parseArgs].
  destruct (strEq a (js "-h") || strEq a (js "--help")); [apply IH|].
  destruct (strEq a (js "--version")); [apply IH|].
  destruct (strEq a (js "-o") || strEq a (js "--output")) eqn:E.
  { exfalso. apply Ha. apply orb_true_iff in E.
    destruct E as [E | E]; apply strEq_true in E; [left | right]; exact E. }
  destruct (strEq a (js "--absolute")); [apply IH|].
  destruct (strEq a (js "--dry-run")); [apply IH|].
  destruct (strEq a (js "-v") || strEq a (js "--verbose")); [apply IH|].
  destruct (startsWith a (js "-")); [reflexivity | apply IH].
Qed.

(** C9: the token after [-o] or [--output] becomes the output path whatever
    it is, also when it begins with a dash; the arguments [-o --dry-run]
    name the output file [--dry-run] and leave dry-run mode off. *)
Theorem output_value_taken_unconditionally :
  (forall flag v pre rest o f o1 f1,
      isOutputFlag flag ->
      Forall (fun a => ~ isOutputFlag a) pre ->
      parseArgs pre o f = Parsed o1 f1 ->
      parseArgs (pre ++ flag :: v :: rest) o f
      = parseArgs rest (setOutput (Some v) o1) f1)
  /\ parseArgs [js "-o"; js "--dry-run"] defaultOptions []
     = Parsed (mkOptions (Some (js "--dry-run")) false false false false false) [].
Proof.
  split; [|reflexivity].
  intros flag v pre rest o f o1 f1 Hflag Hpre Hparse.
  rewrite parseArgs_app, Hparse by exact Hpre.
  now apply parseArgs_output.
Qed.

Lemma output_value_taken_unconditionally_witness :
  parseArgs ([js "-v"] ++ js "--output" :: js "-x" :: [js "a.md"]) defaultOptions []
  = parseArgs [js "a.md"] (setOutput (Some (js "-x")) (setVerbose defaultOptions)) [].
Proof.
  apply (proj1 output_value_taken_unconditionally).
  - right. reflexivity.
  - repeat constructor; intros [H | H]; vm_compute in H; discriminate.
  - reflexivity.
Defined.

(** ** Reasoning rules of the monad *)

Lemma emit_nil w : emit [] w = w.
Proof. destruct w. unfold emit. simpl. now rewrite app_nil_r. Qed.

Lemma emit_emit l1 l2 w : emit l2 (emit l1 w) = emit (l1 ++ l2) w.
Proof. unfold emit. simpl. now rewrite app_assoc. Qed.

Lemma log_run options msg level w :
  log options msg level w = (Ret tt, emit (logged options msg level) w).
Proof.
  destruct level; simpl; [reflexivity|].
  destruct (verbose options); simpl; [reflexivity|].
  unfold ret. now rewrite emit_nil.
Qed.

Lemma logVerbose_run options msg w :
  logVerbose options msg w = (Ret tt, emit (logged options msg LevelVerbose) w).
Proof. apply log_run. Qed.

Lemma bind_run {A B} (m : M A) (k : A -> M B) w :
  bind m k w =
  match m w with
  | (Ret a, w') => k a w'
  | (Throw e, w') => (Throw e, w')
  | (Exit c, w') => (Exit c, w')
  end.
Proof. reflexivity. Qed.

Lemma log_bind {B} options msg level (k : unit -> M B) w :
  bind (log options msg level) k w = k tt (emit (logged options msg level) w).
Proof. rewrite bind_run, log_run. reflexivity. Qed.

Lemma logVerbose_bind {B} options msg (k : unit -> M B) w :
  bind (logVerbose options msg) k w = k tt (emit (logged options msg LevelVerbose) w).
Proof. apply log_bind. Qed.

Lemma consoleLog_bind {B} msg (k : unit -> M B) w :
  bind (consoleLog msg) k w = k tt (emit [StdOut msg] w).
Proof. reflexivity. Qed.

Lemma consoleError_bind {B} msg (k : unit -> M B) w :
  bind (consoleError msg) k w = k tt (emit [StdErr msg] w).
Proof. reflexivity. Qed.

Lemma ret_bind {A B} (a : A) (k : A -> M B) w : bind (ret a) k w = k a w.
Proof. reflexivity. Qed.

Lemma fsRead_run {A} (f : FS -> Error + A) w :
  fsRead f w = match f (files w) with
               | inl e => (Throw e, w)
               | inr a => (Ret a, w)
               end.
Proof. reflexivity. Qed.

Lemma fsWrite_run (f : FS -> Error + FS) w :
  fsWrite f w = match f (files w) with
                | inl e => (Throw e, w)
                | inr fs' => (Ret tt, mkWorld fs' (console w))
                end.
Proof. reflexivity. Qed.

Lemma attempt_run {A} (m : M A) w :
  attempt m w =
  match m w with
  | (Ret a, w') => (Ret (inr a), w')
  | (Throw e, w') => (Ret (inl e), w')
  | (Exit c, w') => (Exit c, w')
  end.
Proof. reflexivity. Qed.

Lemma files_emit ls w : files (emit ls w) = files w.
Proof. reflexivity. Qed.

(** ** The link-creation primitive (C8) *)

Lemma windowsFallbackApplies_spec env err :
  windowsFallbackApplies env err = true <->
  platform env = js "win32" /\ (code err = js "EPERM" \/ code err = js "ENOENT").
Proof.
  unfold windowsFallbackApplies.
  rewrite andb_true_iff, orb_true_iff, !strEq_true. reflexivity.
Qed.

Lemma createSymlink_ok env options target linkPath src w fs' :
  fsSymlink env target linkPath (files w) = inr fs' ->
  createSymlinkWithFallback env options target linkPath src w
  = (Ret tt,
     emit (logged options (js "Created symlink: " ++ linkPath ++ js " -> " ++ target)
             LevelVerbose)
       (mkWorld fs' (console w))).
Proof.
  intros H. unfold createSymlinkWithFallback.
  rewrite bind_run, attempt_run, fsWrite_run, H. apply logVerbose_run.
Qed.

Lemma createSymlink_throw env options target linkPath src w err :
  fsSymlink env target linkPath (files w) = inl err ->
  windowsFallbackApplies env err = false ->
  createSymlinkWithFallback env options target linkPath src w
  = (Throw err,
     emit (logged options (js "Symlink error: " ++ message err) LevelVerbose) w).
Proof.
  intros H Hw. unfold createSymlinkWithFallback.
  rewrite bind_run, attempt_run, fsWrite_run, H, Hw, logVerbose_bind. reflexivity.
Qed.

Lemma createSymlink_fallback env options target linkPath src w err :
  fsSymlink env target linkPath (files w) = inl err ->
  windowsFallbackApplies env err = true ->
  createSymlinkWithFallback env options target linkPath src w
  = let w1 :=
      emit (StdOut (js "Symlink failed on Windows, falling back to copy mode for "
                      ++ pathBasename env linkPath)
              :: logged options (js "Error: " ++ message err) LevelVerbose) w in
    match fsCopyFile env src linkPath (files w) with
    | inl e => (Throw e, w1)
    | inr fs' =>
        (Ret tt,
         emit (logged options (js "Copied file: " ++ src ++ js " -> " ++ linkPath)
                 LevelVerbose)
           (mkWorld fs' (console w1)))
    end.
Proof.
  intros H Hw. unfold createSymlinkWithFallback.
  rewrite bind_run, attempt_run, fsWrite_run, H, Hw, log_bind, logVerbose_bind.
  rewrite emit_emit, bind_run, fsWrite_run, files_emit. cbn [logged app].
  destruct (fsCopyFile env src linkPath (files w)); [reflexivity|].
  apply logVerbose_run.
Qed.

(** C8: when creating the symbolic link fails on the Windows platform with
    a permission ([EPERM]) or missing-support ([ENOENT]) error, the bytes of
    the fallback source (the unified file) are copied to the link path, the
    fallback is announced on standard output and the call returns normally;
    with any other error, or with these codes on another platform, the
    error is thrown to the caller and the file system is left as it was. *)
Theorem windows_fallback_or_propagate env options target linkPath src w err :
  fsSymlink env target linkPath (files w) = inl err ->
  let r := createSymlinkWithFallback env options target linkPath src w in
  (platform env = js "win32" -> code err = js "EPERM" \/ code err = js "ENOENT" ->
   forall q c d,
     fault env (CallCopyFile src linkPath) = None ->
     realpath env (files w) src = Some q -> files w !! q = Some (File c) ->
     realpath env (files w) linkPath = Some d ->
     fst r = Ret tt
     /\ files (snd r) = <[d := File c]> (files w)
     /\ exists more,
         console (snd r)
         = console w
             ++ StdOut (js "Symlink failed on Windows, falling back to copy mode for "
                          ++ pathBasename env linkPath) :: more
         /\ Forall (fun l => exists s, l = StdOut s) more)
  /\ (platform env ≠ js "win32" \/ (code err ≠ js "EPERM" /\ code err ≠ js "ENOENT") ->
      fst r = Throw err /\ files (snd r) = files w).
Proof.
  intros Hsym r. subst r. split.
  - intros Hp Hc q c d Hf Hq Hqc Hd.
    rewrite createSymlink_fallback with (err := err);
      [|exact Hsym | now apply windowsFallbackApplies_spec].
    unfold fsCopyFile, guarded. rewrite Hf, Hq, Hqc, Hd. cbn -[js].
    split; [reflexivity|]. split; [reflexivity|].
    rewrite <- app_assoc. eexists. split; [cbn [app]; reflexivity|].
    apply Forall_app. split; unfold logged; destruct (verbose options);
      repeat constructor; eauto.
  - intros Hno.
    rewrite createSymlink_throw with (err := err); [split; reflexivity | exact Hsym |].
    destruct (windowsFallbackApplies env err) eqn:E; [|reflexivity].
    apply windowsFallbackApplies_spec in E. destruct E as [Hp Hc].
    destruct Hno as [Hno | [H1 H2]]; [contradiction|].
    destruct Hc; contradiction.
Qed.

Lemma windows_fallback_or_propagate_witness :
  (let r := createSymlinkWithFallback Scenario.deniedWin32 defaultOptions
              (js "AGENTS.md") (js "C:\w\CLAUDE.md") (js "C:\w\AGENTS.md")
              Scenario.winWorld in
   fst r = Ret tt
   /\ files (snd r) = <[js "C:\w\CLAUDE.md" := File (js "hello")]> (files Scenario.winWorld))
  /\ (let r := createSymlinkWithFallback Scenario.deniedLinux defaultOptions
                 (js "AGENTS.md") (js "/w/GEMINI.md") (js "/w/AGENTS.md")
                 Scenario.rulesWorld in
      fst r = Throw (uvError (js "EPERM") (js "operation not permitted") (js "symlink")
                       (js "AGENTS.md") (Some (js "/w/GEMINI.md")))
      /\ files (snd r) = files Scenario.rulesWorld).
Proof.
  split.
  - pose proof (windows_fallback_or_propagate Scenario.deniedWin32 defaultOptions
                  (js "AGENTS.md") (js "C:\w\CLAUDE.md") (js "C:\w\AGENTS.md")
                  Scenario.winWorld _ eq_refl) as [H _].
    specialize (H eq_refl (or_introl eq_refl)
                  (js "C:\w\AGENTS.md") (js "hello") (js "C:\w\CLAUDE.md")
                  eq_refl eq_refl eq_refl eq_refl).
    destruct H as [H1 [H2 _]]. split; assumption.
  - pose proof (windows_fallback_or_propagate Scenario.deniedLinux defaultOptions
                  (js "AGENTS.md") (js "/w/GEMINI.md") (js "/w/AGENTS.md")
                  Scenario.rulesWorld _ eq_refl) as [_ H].
    apply H. left. vm_compute. discriminate.
Defined.

(** ** The content merge (C3) *)

Lemma fsReadFile_intro env p fs q c :
  fault env (CallReadFile p) = None ->
  realpath env fs p = Some q -> fs !! q = Some (File c) ->
  fsReadFile env p fs = inr c.
Proof. intros Hf Hq Hc. unfold fsReadFile, guarded. now rewrite Hf, Hq, Hc. Qed.

Lemma mergeSeparator_spec U :
  (U ≠ [] -> (~ exists a, U = a ++ [NL; NL]) -> mergeSeparator U = [NL; NL])
  /\ (U = [] \/ (exists a, U = a ++ [NL; NL]) -> mergeSeparator U = []).
Proof.
  unfold mergeSeparator. split.
  - intros Hne Hno.
    destruct (endsWith U [NL; NL]) eqn:E.
    { apply endsWith_spec in E. contradiction. }
    destruct U; [contradiction|]. reflexivity.
  - intros [-> | Hsuf]; [reflexivity|].
    apply endsWith_spec in Hsuf. rewrite Hsuf. now rewrite andb_false_r.
Qed.

(** The merge step in a run that is not a dry run, the two reads done. *)
Lemma mergeContents_run env options unified unifiedPath file filePath w C U :
  dryRun options = false ->
  fsReadFile env filePath (files w) = inr C ->
  fsReadFile env unifiedPath (files w) = inr U ->
  mergeContents env options unified unifiedPath file filePath w =
  if includes U (blockStart file) then
    (Ret tt,
     emit (logged options
             (js "Block for " ++ file ++ js " already exists in " ++ unified
                ++ js ", skipping merge") LevelVerbose
           ++ logged options (js "Found existing block: " ++ blockStart file) LevelVerbose)
       w)
  else
    match fsAppendFile env unifiedPath (mergeText file C U) (files w) with
    | inl e => (Throw e, w)
    | inr fs' =>
        (Ret tt,
         emit (StdOut (js "Merged" ++ js " " ++ file ++ js " into " ++ unified)
                 :: logged options
                      (js "Block markers: " ++ blockStart file ++ js " ... "
                         ++ blockEnd file) LevelVerbose)
           (mkWorld fs' (console w)))
    end.
Proof.
  intros Hdry HC HU. unfold mergeContents.
  rewrite bind_run, fsRead_run, HC, bind_run, fsRead_run, HU, Hdry.
  destruct (includes U (blockStart file)); cbn [negb].
  - rewrite logVerbose_bind, logVerbose_run, emit_emit. reflexivity.
  - rewrite bind_run, fsWrite_run.
    destruct (fsAppendFile env unifiedPath (mergeText file C U) (files w));
      [reflexivity|].
    rewrite log_bind, logVerbose_run, emit_emit. reflexivity.
Qed.

(** C3: merging a regular input file with content [C] and name [file] into
    the unified file with text [U] is a pure append. When [U] contains the
    start marker as a substring nothing is written. Otherwise the unified
    file becomes [U] followed by the separator, the start marker, a newline,
    the trimmed content, a newline, the end marker and a newline, where the
    separator is two newlines when [U] is non-empty and does not end with a
    blank line, and is empty otherwise; no other file changes. *)
Theorem merge_is_pure_append env options unified unifiedPath file filePath w C U q :
  dryRun options = false ->
  fsReadFile env filePath (files w) = inr C ->
  fault env (CallReadFile unifiedPath) = None ->
  realpath env (files w) unifiedPath = Some q ->
  files w !! q = Some (File U) ->
  (forall data, fault env (CallAppendFile unifiedPath data) = None) ->
  let r := mergeContents env options unified unifiedPath file filePath w in
  fst r = Ret tt
  /\ ((exists a b, U = a ++ blockStart file ++ b) -> files (snd r) = files w)
  /\ ((~ exists a b, U = a ++ blockStart file ++ b) ->
      exists separator,
        files (snd r)
        = <[q := File (U ++ separator ++ blockStart file ++ [NL] ++ trim C ++ [NL]
                         ++ blockEnd file ++ [NL])]> (files w)
        /\ (U ≠ [] -> (~ exists a, U = a ++ [NL; NL]) -> separator = [NL; NL])
        /\ (U = [] \/ (exists a, U = a ++ [NL; NL]) -> separator = [])).
Proof.
  intros Hdry HC Hf Hq HU Happ r. subst r.
  rewrite (mergeContents_run env options unified unifiedPath file filePath w C U Hdry HC)
    by (eapply fsReadFile_intro; eassumption).
  destruct (includes U (blockStart file)) eqn:Hinc.
  - apply includes_spec in Hinc. split; [reflexivity|]. split; [reflexivity|].
    intros Hno. contradiction.
  - assert (Hnot : ~ exists a b, U = a ++ blockStart file ++ b).
    { intros H. apply includes_spec in H. congruence. }
    unfold fsAppendFile, guarded. rewrite Happ, Hq, HU. cbn [fst snd files emit].
    split; [reflexivity|]. split; [intros H; contradiction|].
    intros _. exists (mergeSeparator U). split; [reflexivity|].
    apply mergeSeparator_spec.
Qed.

Lemma merge_is_pure_append_witness :
  let r := mergeContents Paths.linux defaultOptions (js "AGENTS.md") (js "/w/AGENTS.md")
             (js "CLAUDE.md") (js "/w/CLAUDE.md") MergeScenario.mergeWorld in
  fst r = Ret tt
  /\ files (snd r)
     = <[js "/w/AGENTS.md" :=
           File (js "x" ++ [NL; NL] ++ js "`>>> CLAUDE.md`" ++ [NL] ++ js "rules" ++ [NL]
                   ++ js "`<<< CLAUDE.md`" ++ [NL])]> (files MergeScenario.mergeWorld).
Proof.
  pose proof (merge_is_pure_append Paths.linux defaultOptions (js "AGENTS.md")
                (js "/w/AGENTS.md") (js "CLAUDE.md") (js "/w/CLAUDE.md")
                MergeScenario.mergeWorld (js " rules ") (js "x") (js "/w/AGENTS.md")
                eq_refl eq_refl eq_refl eq_refl eq_refl (fun _ => eq_refl))
    as [Hret [_ Happend]].
  split; [exact Hret|].
  destruct Happend as [separator [Hfiles [Hsep _]]].
  - intros [a [b Hab]]. vm_compute in Hab.
    destruct a as [|? [|? ?]]; discriminate.
  - rewrite Hfiles, Hsep; [reflexivity | discriminate |].
    intros [a Ha]. vm_compute in Ha. destruct a as [|? [|? ?]]; discriminate.
Defined.

(** ** Lines: [split] and [join] *)

Lemma split_nonempty s sep : split s sep ≠ [].
Proof.
  destruct s as [|c s]; simpl; [discriminate|].
  destruct (c =? sep)%N; [discriminate|].
  destruct (split s sep); discriminate.
Qed.

Lemma split_cons_other c s sep :
  (c =? sep)%N = false ->
  exists l ls, split s sep = l :: ls /\ split (c :: s) sep = (c :: l) :: ls.
Proof.
  intros Hc. simpl. rewrite Hc.
  destruct (split s sep) as [|l ls] eqn:E; [now apply split_nonempty in E|].
  eauto.
Qed.

Lemma split_app_sep a b sep : split (a ++ sep :: b) sep = split a sep ++ split b sep.
Proof.
  induction a as [|c a IH].
  - simpl. now rewrite N.eqb_refl.
  - destruct (c =? sep)%N eqn:Hc.
    + simpl. rewrite Hc, IH. reflexivity.
    + destruct (split_cons_other c a sep Hc) as [l [ls [E1 E2]]].
      rewrite E2. change ((c :: a) ++ sep :: b) with (c :: (a ++ sep :: b)).
      simpl. rewrite Hc, IH, E1. reflexivity.
Qed.

Lemma split_no_sep s sep : sep ∉ s -> split s sep = [s].
Proof.
  induction s as [|c s IH]; intros Hs; [reflexivity|].
  apply not_elem_of_cons in Hs as [Hc Hs].
  simpl. destruct (c =? sep)%N eqn:E.
  - apply N.eqb_eq in E. congruence.
  - now rewrite (IH Hs).
Qed.

Lemma split_lines_no_sep s sep : Forall (fun l => sep ∉ l) (split s sep).
Proof.
  induction s as [|c s IH].
  - repeat constructor. apply not_elem_of_nil.
  - simpl. destruct (c =? sep)%N eqn:E.
    + constructor; [apply not_elem_of_nil | exact IH].
    + destruct (split s sep) as [|l ls].
      * repeat constructor. apply not_elem_of_cons. split; [|apply not_elem_of_nil].
        intros ->. now rewrite N.eqb_refl in E.
      * inversion IH; subst. constructor; [|assumption].
        apply not_elem_of_cons. split; [|assumption].
        intros ->. now rewrite N.eqb_refl in E.
Qed.

Lemma join_cons l ls sep :
  ls ≠ [] -> join (l :: ls) sep = l ++ sep ++ join ls sep.
Proof. destruct ls; [contradiction | reflexivity]. Qed.

Lemma split_join ls sep :
  ls ≠ [] -> Forall (fun l => sep ∉ l) ls -> split (join ls [sep]) sep = ls.
Proof.
  induction ls as [|l ls IH]; [contradiction|].
  intros _ Hall. inversion Hall as [|? ? Hl Hls]; subst.
  destruct ls as [|l' ls].
  - simpl. now apply split_no_sep.
  - rewrite join_cons by discriminate. cbn [app].
    rewrite split_app_sep, (split_no_sep l sep Hl), IH by (discriminate || assumption).
    reflexivity.
Qed.

Lemma join_split s sep : join (split s sep) [sep] = s.
Proof.
  induction s as [|c s IH]; [reflexivity|].
  simpl. destruct (c =? sep)%N eqn:E.
  - apply N.eqb_eq in E. subst c.
    rewrite join_cons by apply split_nonempty. simpl. now rewrite IH.
  - destruct (split s sep) as [|l ls] eqn:Es; [now apply split_nonempty in Es|].
    destruct ls as [|l' ls]; simpl in *; now rewrite <- IH.
Qed.

(** ** Arrays: [findIndex], [slice] and [splice] *)

Lemma findIndexFrom_ext {A} (p p' : A -> Z -> bool) l i :
  (forall k x, l !! k = Some x -> p x (i + Z.of_nat k) = p' x (i + Z.of_nat k)) ->
  findIndexFrom p l i = findIndexFrom p' l i.
Proof.
  revert i. induction l as [|x l IH]; intros i H; [reflexivity|].
  pose proof (H 0%nat x eq_refl) as H0. rewrite Z.add_0_r in H0.
  simpl. rewrite <- H0.
  destruct (p x i); [reflexivity|].
  apply IH. intros k y Hk. specialize (H (S k) y Hk).
  now replace (i + 1 + Z.of_nat k) with (i + Z.of_nat (S k)) by lia.
Qed.

Lemma findIndexFrom_skip {A} (p : A -> Z -> bool) l1 l2 i :
  (forall k x, l1 !! k = Some x -> p x (i + Z.of_nat k) = false) ->
  findIndexFrom p (l1 ++ l2) i = findIndexFrom p l2 (i + Z.of_nat (length l1)).
Proof.
  revert i. induction l1 as [|x l1 IH]; intros i H.
  - simpl. now rewrite Z.add_0_r.
  - simpl app. cbn [findIndexFrom].
    pose proof (H 0%nat x eq_refl) as H0. rewrite Z.add_0_r in H0. rewrite H0.
    rewrite IH.
    + f_equal. simpl length. lia.
    + intros k y Hk. specialize (H (S k) y Hk).
      now replace (i + 1 + Z.of_nat k) with (i + Z.of_nat (S k)) by lia.
Qed.

Lemma findIndexFrom_none {A} (p : A -> bool) l i :
  Forall (fun x => p x = false) l -> findIndexFrom (fun x _ => p x) l i = -1.
Proof.
  intros H. revert i. induction H as [|x l Hx _ IH]; intros i; [reflexivity|].
  simpl. rewrite Hx. apply IH.
Qed.

Lemma findIndexFrom_first {A} (p : A -> bool) pre x post i :
  Forall (fun y => p y = false) pre -> p x = true ->
  findIndexFrom (fun y _ => p y) (pre ++ x :: post) i = i + Z.of_nat (length pre).
Proof.
  intros Hpre Hx. rewrite findIndexFrom_skip.
  - simpl. now rewrite Hx.
  - intros k y Hk. rewrite Forall_forall in Hpre. apply Hpre.
    eapply list_elem_of_lookup_2. exact Hk.
Qed.

(** Either no element satisfies [p] or there is a first one. *)
Lemma first_or_none {A} (p : A -> bool) l :
  Forall (fun x => p x = false) l
  \/ exists pre x post,
       l = pre ++ x :: post /\ Forall (fun y => p y = false) pre /\ p x = true.
Proof.
  induction l as [|x l IH]; [left; constructor|].
  destruct (p x) eqn:Hx.
  - right. exists [], x, l. repeat split; [constructor | exact Hx].
  - destruct IH as [IH | [pre [y [post [-> [Hpre Hy]]]]]].
    + left. now constructor.
    + right. exists (x :: pre), y, post. repeat split; [now constructor | exact Hy].
Qed.

Lemma slice_middle {A} (pre mid post : list A) :
  slice (pre ++ mid ++ post) (Z.of_nat (length pre))
    (Z.of_nat (length pre + length mid)) = mid.
Proof.
  unfold slice. rewrite Nat2Z.id.
  replace (Z.to_nat (Z.of_nat (length pre + length mid) - Z.of_nat (length pre)))
    with (length mid) by lia.
  rewrite drop_app_length. apply take_app_length.
Qed.

Lemma spliceInsert_at {A} (pre post : list A) x :
  spliceInsert (pre ++ post) (Z.of_nat (length pre)) x = pre ++ x :: post.
Proof.
  unfold spliceInsert. rewrite Nat2Z.id.
  now rewrite take_app_length, drop_app_length.
Qed.

(** ** The ignore list: the two index searches *)

Lemma gitignoreStartIdx_none lines :
  Forall (fun l => isStartLine l = false) lines -> gitignoreStartIdx lines = -1.
Proof. intros H. unfold gitignoreStartIdx, findIndex. now apply findIndexFrom_none. Qed.

Lemma gitignoreStartIdx_first pre s post :
  Forall (fun l => isStartLine l = false) pre -> isStartLine s = true ->
  gitignoreStartIdx (pre ++ s :: post) = Z.of_nat (length pre).
Proof.
  intros Hpre Hs. unfold gitignoreStartIdx, findIndex.
  now rewrite (findIndexFrom_first isStartLine) by assumption.
Qed.

(** The search for the end marker looks only behind the start marker. *)
Lemma gitignoreEndIdx_behind pre s rest :
  gitignoreEndIdx (pre ++ s :: rest) (Z.of_nat (length pre))
  = findIndexFrom (fun l _ => isEndLine l) rest (Z.of_nat (length pre) + 1).
Proof.
  unfold gitignoreEndIdx, findIndex.
  replace (Z.of_nat (length pre) =? -1) with false by (symmetry; apply Z.eqb_neq; lia).
  cbn [negb].
  change (pre ++ s :: rest) with (pre ++ [s] ++ rest). rewrite app_assoc.
  rewrite findIndexFrom_skip.
  - rewrite length_app. simpl length.
    replace (0 + Z.of_nat (length pre + 1)) with (Z.of_nat (length pre) + 1) by lia.
    apply findIndexFrom_ext. intros k x _.
    replace (Z.of_nat (length pre) <? Z.of_nat (length pre) + 1 + Z.of_nat k) with true
      by (symmetry; apply Z.ltb_lt; lia).
    reflexivity.
  - intros k x Hk. apply lookup_lt_Some in Hk. rewrite length_app in Hk. simpl in Hk.
    replace (Z.of_nat (length pre) <? 0 + Z.of_nat k) with false
      by (symmetry; apply Z.ltb_ge; lia).
    reflexivity.
Qed.

Lemma gitignoreEndIdx_none pre s post :
  Forall (fun l => isEndLine l = false) post ->
  gitignoreEndIdx (pre ++ s :: post) (Z.of_nat (length pre)) = -1.
Proof. intros H. rewrite gitignoreEndIdx_behind. now apply findIndexFrom_none. Qed.

Lemma gitignoreEndIdx_first pre s mid e post :
  Forall (fun l => isEndLine l = false) mid -> isEndLine e = true ->
  gitignoreEndIdx (pre ++ s :: mid ++ e :: post) (Z.of_nat (length pre))
  = Z.of_nat (length pre + 1 + length mid).
Proof.
  intros Hmid He. rewrite gitignoreEndIdx_behind.
  rewrite (findIndexFrom_first isEndLine) by assumption. lia.
Qed.

(** The entries of a complete block and the place of a new entry. *)
Lemma gitignore_block_entries {A} (pre mid post : list A) (s e : A) :
  slice (pre ++ s :: mid ++ e :: post) (Z.of_nat (length pre) + 1)
    (Z.of_nat (length pre + 1 + length mid)) = mid.
Proof.
  change (pre ++ s :: mid ++ e :: post) with (pre ++ [s] ++ mid ++ e :: post).
  rewrite app_assoc.
  replace (Z.of_nat (length pre) + 1) with (Z.of_nat (length (pre ++ [s])))
    by (rewrite length_app; simpl; lia).
  replace (length pre + 1 + length mid)%nat with (length (pre ++ [s]) + length mid)%nat
    by (rewrite length_app; simpl; lia).
  apply slice_middle.
Qed.

Lemma gitignore_block_insert {A} (pre mid post : list A) (s e filename : A) :
  spliceInsert (pre ++ s :: mid ++ e :: post) (Z.of_nat (length pre + 1 + length mid))
    filename
  = pre ++ s :: mid ++ filename :: e :: post.
Proof.
  replace (pre ++ s :: mid ++ e :: post) with ((pre ++ s :: mid) ++ e :: post)
    by (rewrite <- app_assoc; reflexivity).
  replace (length pre + 1 + length mid)%nat with (length (pre ++ s :: mid))
    by (rewrite length_app; simpl; lia).
  rewrite spliceInsert_at, <- app_assoc. reflexivity.
Qed.

(** ** Effects of the program's steps on the file system *)

Lemma effect_bind {A B} (m : M A) (k : A -> M B) w :
  effect (bind m k) w =
  match m w with
  | (Ret a, w') => effect (k a) w'
  | (Throw e, w') => (Throw e, files w')
  | (Exit c, w') => (Exit c, files w')
  end.
Proof. unfold effect. rewrite bind_run. destruct (m w) as [[a|e|c] w']; reflexivity. Qed.

Lemma effect_log options msg level w : effect (log options msg level) w = (Ret tt, files w).
Proof. unfold effect. now rewrite log_run. Qed.

Lemma effect_logVerbose options msg w : effect (logVerbose options msg) w = (Ret tt, files w).
Proof. apply effect_log. Qed.

Lemma effect_log_bind {B} options msg level (k : unit -> M B) w :
  effect (bind (log options msg level) k) w
  = effect (k tt) (emit (logged options msg level) w).
Proof. unfold effect. now rewrite log_bind. Qed.

Lemma effect_logVerbose_bind {B} options msg (k : unit -> M B) w :
  effect (bind (logVerbose options msg) k) w
  = effect (k tt) (emit (logged options msg LevelVerbose) w).
Proof. apply effect_log_bind. Qed.

Lemma effect_fsWrite_logs f options m1 l1 m2 w :
  effect (fsWrite f >> log options m1 l1 >> logVerbose options m2) w
  = written (f (files w)) (files w).
Proof.
  rewrite effect_bind, fsWrite_run. destruct (f (files w)); [reflexivity|].
  rewrite effect_log_bind. apply effect_logVerbose.
Qed.

(** [addToGitignore] when the ignore file cannot be read. *)
Lemma addToGitignore_unreadable env options cwd' filename w e :
  dryRun options = false ->
  fsReadFile env (pathJoin env cwd' (js ".gitignore")) (files w) = inl e ->
  effect (addToGitignore env options cwd' filename) w
  = written (fsWriteFile env (pathJoin env cwd' (js ".gitignore"))
               (gitignoreBlock filename) (files w)) (files w).
Proof.
  intros Hdry Hread. unfold addToGitignore. rewrite Hdry.
  rewrite effect_logVerbose_bind. cbv zeta.
  rewrite effect_bind, attempt_run, fsRead_run, files_emit, Hread.
  rewrite effect_fsWrite_logs. reflexivity.
Qed.

(** [addToGitignore] when the ignore file is read. *)
Lemma addToGitignore_readable env options cwd' filename w content :
  dryRun options = false ->
  fsReadFile env (pathJoin env cwd' (js ".gitignore")) (files w) = inr content ->
  effect (addToGitignore env options cwd' filename) w
  = let gitignorePath := pathJoin env cwd' (js ".gitignore") in
    let lines := split content NL in
    let startIdx := gitignoreStartIdx lines in
    let endIdx := gitignoreEndIdx lines startIdx in
    if negb (startIdx =? -1) && negb (endIdx =? -1) then
      if some (fun line => strEq (trim line) filename) (slice lines (startIdx + 1) endIdx)
      then (Ret tt, files w)
      else written (fsWriteFile env gitignorePath
                      (join (spliceInsert lines endIdx filename) [NL]) (files w))
             (files w)
    else
      written (fsAppendFile env gitignorePath
                 (gitignoreSeparator content ++ gitignoreBlock filename) (files w))
        (files w).
Proof.
  intros Hdry Hread. unfold addToGitignore. rewrite Hdry.
  rewrite effect_logVerbose_bind. cbv zeta.
  rewrite effect_bind, attempt_run, fsRead_run, files_emit, Hread.
  destruct (negb (gitignoreStartIdx (split content NL) =? -1)
            && negb (gitignoreEndIdx (split content NL)
                       (gitignoreStartIdx (split content NL)) =? -1)).
  - destruct (some _ _); [reflexivity|].
    rewrite effect_bind, fsWrite_run, files_emit.
    destruct (fsWriteFile _ _ _ _); [reflexivity|].
    rewrite effect_logVerbose_bind. apply effect_logVerbose.
  - rewrite effect_fsWrite_logs. reflexivity.
Qed.

Lemma addToGitignore_complete env options cwd' filename w content pre s mid e post :
  dryRun options = false ->
  fsReadFile env (pathJoin env cwd' (js ".gitignore")) (files w) = inr content ->
  completeBlock (split content NL) pre s mid e post ->
  effect (addToGitignore env options cwd' filename) w
  = if some (fun line => strEq (trim line) filename) mid
    then (Ret tt, files w)
    else written (fsWriteFile env (pathJoin env cwd' (js ".gitignore"))
                    (join (pre ++ s :: mid ++ filename :: e :: post) [NL]) (files w))
           (files w).
Proof.
  intros Hdry Hread (Hl & Hpre & Hs & Hmid & He).
  rewrite (addToGitignore_readable env options cwd' filename w content Hdry Hread).
  cbv zeta. rewrite Hl.
  rewrite (gitignoreStartIdx_first pre s _ Hpre Hs).
  rewrite (gitignoreEndIdx_first pre s mid e post Hmid He).
  rewrite gitignore_block_entries, gitignore_block_insert.
  replace (Z.of_nat (length pre) =? -1) with false by (symmetry; apply Z.eqb_neq; lia).
  replace (Z.of_nat (length pre + 1 + length mid) =? -1) with false
    by (symmetry; apply Z.eqb_neq; lia).
  reflexivity.
Qed.

Lemma addToGitignore_truncated env options cwd' filename w content pre s post :
  dryRun options = false ->
  fsReadFile env (pathJoin env cwd' (js ".gitignore")) (files w) = inr content ->
  truncatedBlock (split content NL) pre s post ->
  effect (addToGitignore env options cwd' filename) w
  = written (fsAppendFile env (pathJoin env cwd' (js ".gitignore"))
               (gitignoreSeparator content ++ gitignoreBlock filename) (files w))
      (files w).
Proof.
  intros Hdry Hread (Hl & Hpre & Hs & Hpost).
  rewrite (addToGitignore_readable env options cwd' filename w content Hdry Hread).
  cbv zeta. rewrite Hl.
  rewrite (gitignoreStartIdx_first pre s _ Hpre Hs).
  rewrite (gitignoreEndIdx_none pre s post Hpost).
  now rewrite andb_false_r.
Qed.

Lemma addToGitignore_no_start env options cwd' filename w content :
  dryRun options = false ->
  fsReadFile env (pathJoin env cwd' (js ".gitignore")) (files w) = inr content ->
  Forall (fun l => isStartLine l = false) (split content NL) ->
  effect (addToGitignore env options cwd' filename) w
  = written (fsAppendFile env (pathJoin env cwd' (js ".gitignore"))
               (gitignoreSeparator content ++ gitignoreBlock filename) (files w))
      (files w).
Proof.
  intros Hdry Hread Hl.
  rewrite (addToGitignore_readable env options cwd' filename w content Hdry Hread).
  cbv zeta. now rewrite (gitignoreStartIdx_none _ Hl).
Qed.

(** Every list of lines has one of the three shapes. *)
Lemma gitignore_shapes lines :
  Forall (fun l => isStartLine l = false) lines
  \/ (exists pre s post, truncatedBlock lines pre s post)
  \/ (exists pre s mid e post, completeBlock lines pre s mid e post).
Proof.
  destruct (first_or_none isStartLine lines)
    as [H | (pre & s & rest & -> & Hpre & Hs)]; [now left|].
  right.
  destruct (first_or_none isEndLine rest)
    as [H | (mid & e & post & -> & Hmid & He)].
  - left. exists pre, s, rest. repeat split; assumption.
  - right. exists pre, s, mid, e, post. repeat split; assumption.
Qed.

Lemma isStartLine_marker : isStartLine gitignoreBlockStart = true.
Proof. vm_compute. reflexivity. Qed.

Lemma isEndLine_marker : isEndLine gitignoreBlockEnd = true.
Proof. vm_compute. reflexivity. Qed.

Lemma gitignoreBlockStart_one_line : NL ∉ gitignoreBlockStart.
Proof. apply (bool_decide_unpack _). vm_compute. exact I. Qed.

Lemma gitignoreBlockEnd_one_line : NL ∉ gitignoreBlockEnd.
Proof. apply (bool_decide_unpack _). vm_compute. exact I. Qed.

(** The lines of a file to which a new block has been appended. *)
Lemma split_appended_block content filename :
  content ≠ [] ->
  split (content ++ gitignoreSeparator content ++ gitignoreBlock filename) NL
  = split content NL ++ [[]; gitignoreBlockStart] ++ split filename NL
      ++ [gitignoreBlockEnd; []].
Proof.
  intros Hne.
  assert (Hsep : gitignoreSeparator content = [NL; NL]).
  { unfold gitignoreSeparator. destruct content; [contradiction | reflexivity]. }
  rewrite Hsep.
  change (content ++ [NL; NL] ++ gitignoreBlock filename)
    with (content ++ NL :: [] ++ NL :: gitignoreBlockStart ++ NL :: filename
            ++ NL :: gitignoreBlockEnd ++ NL :: []).
  rewrite !split_app_sep.
  rewrite (split_no_sep _ _ gitignoreBlockStart_one_line).
  rewrite (split_no_sep _ _ gitignoreBlockEnd_one_line).
  reflexivity.
Qed.

Lemma count_start_lines_app l1 l2 :
  length (List.filter isStartLine (l1 ++ l2))
  = (length (List.filter isStartLine l1) + length (List.filter isStartLine l2))%nat.
Proof. now rewrite List.filter_app, length_app. Qed.

Lemma some_spec {A} (p : A -> bool) l : some p l = true <-> exists x, x ∈ l /\ p x = true.
Proof.
  unfold some. rewrite existsb_exists. split; intros [x [Hx Hp]]; exists x; split;
    try assumption; now apply list_elem_of_In.
Qed.

Lemma some_false {A} (p : A -> bool) l : some p l = false <-> forall x, x ∈ l -> p x = false.
Proof.
  split.
  - intros H x Hx. destruct (p x) eqn:E; [|reflexivity].
    assert (some p l = true) by (apply some_spec; eauto). congruence.
  - intros H. destruct (some p l) eqn:E; [|reflexivity].
    apply some_spec in E as [x [Hx Hp]]. rewrite (H x Hx) in Hp. discriminate.
Qed.

Lemma fsAppendFile_to_file env p data fs q c :
  fault env (CallAppendFile p data) = None ->
  realpath env fs p = Some q -> fs !! q = Some (File c) ->
  fsAppendFile env p data fs = inr (<[q := File (c ++ data)]> fs).
Proof. intros Hf Hq Hc. unfold fsAppendFile, guarded. now rewrite Hf, Hq, Hc. Qed.

Lemma fsWriteFile_to env p data fs q :
  fault env (CallWriteFile p data) = None ->
  realpath env fs p = Some q ->
  fsWriteFile env p data fs = inr (<[q := File data]> fs).
Proof. intros Hf Hq. unfold fsWriteFile, guarded. now rewrite Hf, Hq. Qed.

(** C10: when the ignore file holds a start marker line with no end marker
    line behind the first one, a run appends a whole new block (blank line,
    start marker, filename, end marker) at the end of the file and repairs
    nothing, so that the file then holds at least two start marker lines.
    When the block is complete, the duplicate check reads the lines strictly
    between the first start marker line and the first end marker line behind
    it and no other line. *)
Theorem truncated_block_gets_new_block env options cwd' filename w content q :
  dryRun options = false ->
  fault env (CallReadFile (pathJoin env cwd' (js ".gitignore"))) = None ->
  realpath env (files w) (pathJoin env cwd' (js ".gitignore")) = Some q ->
  files w !! q = Some (File content) ->
  (forall data, fault env (CallAppendFile (pathJoin env cwd' (js ".gitignore")) data) = None) ->
  (forall data, fault env (CallWriteFile (pathJoin env cwd' (js ".gitignore")) data) = None) ->
  let r := effect (addToGitignore env options cwd' filename) w in
  (forall pre s post,
      truncatedBlock (split content NL) pre s post ->
      let content' :=
        content ++ [NL; NL] ++ gitignoreBlockStart ++ [NL] ++ filename ++ [NL]
          ++ gitignoreBlockEnd ++ [NL] in
      r = (Ret tt, <[q := File content']> (files w))
      /\ (2 <= length (List.filter isStartLine (split content' NL)))%nat)
  /\ (forall pre s mid e post,
         completeBlock (split content NL) pre s mid e post ->
         ((exists line, line ∈ mid /\ trim line = filename) -> r = (Ret tt, files w))
         /\ ((forall line, line ∈ mid -> trim line ≠ filename) ->
             r = (Ret tt,
                  <[q := File (join (pre ++ s :: mid ++ filename :: e :: post) [NL])]>
                    (files w)))).
Proof.
  intros Hdry Hfr Hq Hc Hfa Hfw r.
  assert (Hread : fsReadFile env (pathJoin env cwd' (js ".gitignore")) (files w)
                  = inr content) by (eapply fsReadFile_intro; eassumption).
  split.
  - intros pre s post Hshape content'.
    assert (Hne : content ≠ []).
    { intros ->. destruct Hshape as (Hl & _ & Hs & _). simpl in Hl.
      destruct pre as [|? [|? ?]]; try discriminate.
      injection Hl as <- _. vm_compute in Hs. discriminate. }
    assert (Hsep : gitignoreSeparator content = [NL; NL]).
    { unfold gitignoreSeparator. destruct content; [contradiction | reflexivity]. }
    split.
    + subst r.
      rewrite (addToGitignore_truncated env options cwd' filename w content pre s post
                 Hdry Hread Hshape).
      rewrite (fsAppendFile_to_file env _ _ _ q content (Hfa _) Hq Hc), Hsep.
      reflexivity.
    + subst content'. rewrite <- Hsep.
      change (gitignoreBlockStart ++ [NL] ++ filename ++ [NL] ++ gitignoreBlockEnd ++ [NL])
        with (gitignoreBlock filename).
      rewrite (split_appended_block content filename Hne).
      destruct Hshape as (-> & _ & Hs & _).
      rewrite !count_start_lines_app.
      cbn [List.filter]. rewrite Hs, isStartLine_marker. cbn [length].
      replace (isStartLine []) with false by (vm_compute; reflexivity).
      cbn [length]. lia.
  - intros pre s mid e post Hshape. subst r.
    rewrite (addToGitignore_complete env options cwd' filename w content pre s mid e post
               Hdry Hread Hshape).
    split.
    + intros (line & Hin & Htrim).
      replace (some _ mid) with true; [reflexivity|].
      symmetry. apply some_spec. exists line. split; [exact Hin|].
      now apply strEq_true.
    + intros Hnone.
      replace (some _ mid) with false.
      * now rewrite (fsWriteFile_to env _ _ _ q (Hfw _) Hq).
      * symmetry. apply some_false. intros line Hin. apply strEq_false. now apply Hnone.
Qed.

Lemma truncated_block_gets_new_block_witness :
  (effect (addToGitignore Paths.linux defaultOptions (js "/w") (js "CLAUDE.md"))
     IgnoreScenario.truncatedWorld
   = (Ret tt,
      <[js "/w/.gitignore" :=
          File (IgnoreScenario.truncated ++ [NL; NL] ++ gitignoreBlockStart ++ [NL]
                  ++ js "CLAUDE.md" ++ [NL] ++ gitignoreBlockEnd ++ [NL])]>
        (files IgnoreScenario.truncatedWorld)))
  /\ (effect (addToGitignore Paths.linux defaultOptions (js "/w") (js "CLAUDE.md"))
        IgnoreScenario.completeWorld
      = (Ret tt,
         <[js "/w/.gitignore" :=
             File (join [js "CLAUDE.md"; gitignoreBlockStart; js "old.md"; js "CLAUDE.md";
                         gitignoreBlockEnd; js "CLAUDE.md"] [NL])]>
           (files IgnoreScenario.completeWorld))).
Proof.
  split.
  - refine (proj1 (proj1 (truncated_block_gets_new_block Paths.linux defaultOptions
                     (js "/w") (js "CLAUDE.md") IgnoreScenario.truncatedWorld
                     IgnoreScenario.truncated (js "/w/.gitignore")
                     eq_refl eq_refl eq_refl eq_refl (fun _ => eq_refl) (fun _ => eq_refl))
                   [js "node_modules"] gitignoreBlockStart [js "old.md"] _)).
    repeat split; repeat constructor.
  - refine (proj2 (proj2 (truncated_block_gets_new_block Paths.linux defaultOptions
                     (js "/w") (js "CLAUDE.md") IgnoreScenario.completeWorld
                     IgnoreScenario.complete (js "/w/.gitignore")
                     eq_refl eq_refl eq_refl eq_refl (fun _ => eq_refl) (fun _ => eq_refl))
                   [js "CLAUDE.md"] gitignoreBlockStart [js "old.md"] gitignoreBlockEnd
                   [js "CLAUDE.md"] _) _).
    + repeat split; repeat constructor.
    + intros line Hin. apply list_elem_of_singleton in Hin. subst line.
      vm_compute. discriminate.
Defined.

(** ** Steps that leave the file system alone *)

Lemma preserves_ret {A} (a : A) : preservesFiles (ret a).
Proof. intros w. reflexivity. Qed.

Lemma preserves_throw {A} e : preservesFiles (@throw A e).
Proof. intros w. reflexivity. Qed.

Lemma preserves_exit {A} c : preservesFiles (@processExit A c).
Proof. intros w. reflexivity. Qed.

Lemma preserves_consoleLog msg : preservesFiles (consoleLog msg).
Proof. intros w. reflexivity. Qed.

Lemma preserves_consoleError msg : preservesFiles (consoleError msg).
Proof. intros w. reflexivity. Qed.

Lemma preserves_log options msg level : preservesFiles (log options msg level).
Proof. intros w. now rewrite log_run. Qed.

Lemma preserves_logVerbose options msg : preservesFiles (logVerbose options msg).
Proof. apply preserves_log. Qed.

Lemma preserves_fsRead {A} (f : FS -> Error + A) : preservesFiles (fsRead f).
Proof. intros w. rewrite fsRead_run. destruct (f (files w)); reflexivity. Qed.

Lemma preserves_bind {A B} (m : M A) (k : A -> M B) :
  preservesFiles m -> (forall a, preservesFiles (k a)) -> preservesFiles (bind m k).
Proof.
  intros Hm Hk w. rewrite bind_run. specialize (Hm w).
  destruct (m w) as [[a|e|c] w']; simpl in *; [|assumption..].
  now rewrite Hk.
Qed.

Lemma preserves_attempt {A} (m : M A) : preservesFiles m -> preservesFiles (attempt m).
Proof.
  intros Hm w. rewrite attempt_run. specialize (Hm w).
  destruct (m w) as [[a|e|c] w']; assumption.
Qed.

Lemma preserves_forEach {A} (l : list A) body :
  (forall x, preservesFiles (body x)) -> preservesFiles (forEach l body).
Proof.
  intros H. induction l as [|x l IH]; [apply preserves_ret|].
  apply preserves_bind; [apply H | intros _; exact IH].
Qed.

Ltac preserves_step :=
  match goal with
  | |- preservesFiles (bind _ _) => apply preserves_bind; [|intros ?]
  | |- preservesFiles (attempt _) => apply preserves_attempt
  | |- preservesFiles (ret _) => apply preserves_ret
  | |- preservesFiles (throw _) => apply preserves_throw
  | |- preservesFiles (processExit _) => apply preserves_exit
  | |- preservesFiles (log _ _ _) => apply preserves_log
  | |- preservesFiles (logVerbose _ _) => apply preserves_logVerbose
  | |- preservesFiles (consoleLog _) => apply preserves_consoleLog
  | |- preservesFiles (consoleError _) => apply preserves_consoleError
  | |- preservesFiles (fsRead _) => apply preserves_fsRead
  | |- preservesFiles (forEach _ _) => apply preserves_forEach; intros ?
  | |- preservesFiles (if ?b then _ else _) => destruct b
  | |- preservesFiles (match ?x with _ => _ end) => destruct x
  end.

Lemma addToGitignore_dry_preserves env options cwd' filename :
  dryRun options = true -> preservesFiles (addToGitignore env options cwd' filename).
Proof. intros H. unfold addToGitignore. rewrite H. apply preserves_logVerbose. Qed.

Lemma processFile_dry_preserves env options unified unifiedPath file :
  dryRun options = true -> preservesFiles (processFile env options unified unifiedPath file).
Proof.
  intros H. pose proof (addToGitignore_dry_preserves env options (cwd env) file H).
  unfold processFile, mergeContents, replaceWithSymlink. rewrite H. cbn [negb].
  repeat preserves_step; assumption.
Qed.

(** No path of the program before the bootstrap step touches the file
    system: unknown option, help, version, no input files, missing output
    value. The steps behind it do not in a dry run. *)
Lemma mainTry_preserves env args :
  (forall o fl, parseArgs args defaultOptions [] = Parsed o fl ->
                showHelp o = false -> showVersion o = false -> fl ≠ [] ->
                output o ≠ None -> dryRun o = true) ->
  preservesFiles (mainTry env args).
Proof.
  intros Hdry. unfold mainTry.
  destruct (parseArgs args defaultOptions []) as [o fl|arg] eqn:Hparse;
    [|repeat preserves_step].
  specialize (Hdry o fl eq_refl).
  destruct (showHelp o); [repeat preserves_step|].
  destruct (showVersion o); [repeat preserves_step|].
  destruct (Z.of_nat (length fl) =? 0) eqn:El; [repeat preserves_step|].
  assert (Hfl : fl ≠ []) by (intros ->; discriminate El).
  destruct (output o) as [unified|] eqn:Hout; [|apply preserves_throw].
  assert (Hd : dryRun o = true) by (apply Hdry; congruence).
  unfold ensureUnified. rewrite Hd. cbn [negb].
  repeat preserves_step. now apply processFile_dry_preserves.
Qed.

Lemma main_preserves env args :
  preservesFiles (mainTry env args) -> preservesFiles (main env args).
Proof.
  intros H. unfold main. apply preserves_bind; [now apply preserves_attempt|].
  intros [e|[]]; repeat preserves_step.
Qed.

Lemma main_dry_run_preserves env args options filesToProcess :
  parseArgs args defaultOptions [] = Parsed options filesToProcess ->
  dryRun options = true ->
  preservesFiles (main env args).
Proof.
  intros Hparse Hdry. apply main_preserves, mainTry_preserves.
  intros o fl Ho _ _ _ _. congruence.
Qed.

(** C5: with the dry-run flag recognised, a run leaves every file as it
    was, in whatever state the inputs are: the bootstrap of the unified
    file, the creation and removal of links, the merge append, the
    replacement by a link and the ignore-list writes are all skipped. *)
Theorem dry_run_changes_nothing env args options filesToProcess w :
  parseArgs args defaultOptions [] = Parsed options filesToProcess ->
  dryRun options = true ->
  files (snd (main env args w)) = files w.
Proof.
  intros Hparse Hdry.
  exact (main_dry_run_preserves env args options filesToProcess Hparse Hdry w).
Qed.

Lemma dry_run_changes_nothing_witness :
  files (snd (main Paths.linux [js "--dry-run"; js "CLAUDE.md"] Scenario.rulesWorld))
  = files Scenario.rulesWorld.
Proof.
  apply (dry_run_changes_nothing Paths.linux [js "--dry-run"; js "CLAUDE.md"]
           (setDryRun defaultOptions) [js "CLAUDE.md"] Scenario.rulesWorld);
    reflexivity.
Defined.

(** ** The output flag without a value (C6) *)

Lemma main_of_throw env args w e w' :
  mainTry env args w = (Throw e, w') ->
  main env args w = (Exit 1, emit [StdErr (js "Error: " ++ message e)] w').
Proof. intros H. unfold main. rewrite bind_run, attempt_run, H. reflexivity. Qed.

Lemma main_of_exit env args w c w' :
  mainTry env args w = (Exit c, w') -> main env args w = (Exit c, w').
Proof. intros H. unfold main. rewrite bind_run, attempt_run, H. reflexivity. Qed.

(** An output flag in last position leaves the output undefined. *)
Lemma parseArgs_dangling_output pre flag o f o1 f1 :
  isOutputFlag flag ->
  Forall (fun a => ~ isOutputFlag a) pre ->
  parseArgs pre o f = Parsed o1 f1 ->
  parseArgs (pre ++ [flag]) o f = Parsed (setOutput None o1) f1.
Proof.
  intros Hflag Hpre Hparse. rewrite parseArgs_app, Hparse by exact Hpre.
  destruct Hflag as [-> | ->]; reflexivity.
Qed.

(** The output is undefined only behind an output flag in last position. *)
Lemma parseArgs_output_undefined n :
  forall args o f o' f',
    (length args <= n)%nat ->
    parseArgs args o f = Parsed o' f' -> output o' = None ->
    output o = None \/ exists pre flag, args = pre ++ [flag] /\ isOutputFlag flag.
Proof.
  induction n as [|n IH]; intros args o f o' f' Hlen Hparse Hout.
  - destruct args; [|simpl in Hlen; lia]. injection Hparse as <- _. now left.
  - destruct args as [|a rest]; [injection Hparse as <- _; now left|].
    simpl in Hlen.
    assert (Hstep : forall o1 f1, parseArgs rest o1 f1 = Parsed o' f' ->
                    output o1 = output o ->
                    output o = None
                    \/ exists pre flag, a :: rest = pre ++ [flag] /\ isOutputFlag flag).
    { intros o1 f1 H1 Ho.
      destruct (IH rest o1 f1 o' f' ltac:(lia) H1 Hout) as [H | (pre & flag & -> & Hf)].
      - left. congruence.
      - right. exists (a :: pre), flag. split; [reflexivity | exact Hf]. }
    cbn [parseArgs] in Hparse.
    destruct (strEq a (js "-h") || strEq a (js "--help")); [exact (Hstep _ _ Hparse eq_refl)|].
    destruct (strEq a (js "--version")); [exact (Hstep _ _ Hparse eq_refl)|].
    destruct (strEq a (js "-o") || strEq a (js "--output")) eqn:E.
    { assert (Ha : isOutputFlag a).
      { apply orb_true_iff in E. destruct E as [E|E]; apply strEq_true in E;
          [left | right]; exact E. }
      destruct rest as [|v rest'].
      - right. exists [], a. split; [reflexivity | exact Ha].
      - simpl in Hlen.
        destruct (IH rest' _ f o' f' ltac:(lia) Hparse Hout)
          as [H | (pre & flag & -> & Hf)]; [discriminate H|].
        right. exists (a :: v :: pre), flag. split; [reflexivity | exact Hf]. }
    destruct (strEq a (js "--absolute")); [exact (Hstep _ _ Hparse eq_refl)|].
    destruct (strEq a (js "--dry-run")); [exact (Hstep _ _ Hparse eq_refl)|].
    destruct (strEq a (js "-v") || strEq a (js "--verbose")); [exact (Hstep _ _ Hparse eq_refl)|].
    destruct (startsWith a (js "-")); [discriminate | exact (Hstep _ _ Hparse eq_refl)].
Qed.

(** C6, as the program has it: an output flag without a value leaves the
    output undefined and no file is touched. With an input file (and
    neither help nor version asked for) the run fails at the resolution of
    the output path: the error is printed on standard error and the exit
    code is 1. Without input files the usage text is printed on standard
    output and the exit code is 0, as it is for help and version. *)
Theorem missing_output_value env args options filesToProcess w :
  parseArgs args defaultOptions [] = Parsed options filesToProcess ->
  output options = None ->
  let r := main env args w in
  (exists pre flag, args = pre ++ [flag] /\ isOutputFlag flag)
  /\ files (snd r) = files w
  /\ (showHelp options = false -> showVersion options = false ->
      filesToProcess ≠ [] ->
      fst r = Exit 1
      /\ console (snd r) = console w ++ [StdErr (js "Error: " ++ message pathTypeError)])
  /\ (showHelp options = false -> showVersion options = false ->
      filesToProcess = [] ->
      fst r = Exit 0
      /\ console (snd r)
         = console w ++ [StdOut (js "No input files specified.");
                         StdOut (js "Usage: come [options] <file1.md> [file2.md] [...]")])
  /\ (showHelp options = true \/ showVersion options = true -> fst r = Exit 0).
Proof.
  intros Hparse Hout r. subst r. split; [|split].
  - destruct (parseArgs_output_undefined (length args) args defaultOptions []
                options filesToProcess (Nat.le_refl _) Hparse Hout) as [H | H];
      [discriminate H | exact H].
  - apply main_preserves, mainTry_preserves.
    intros o fl Ho _ _ _ Hsome. congruence.
  - split; [|split].
    + intros Hh Hv Hfl.
      rewrite (main_of_throw env args w pathTypeError w); [split; reflexivity|].
      unfold mainTry. rewrite Hparse, Hh, Hv, Hout.
      destruct filesToProcess; [contradiction | reflexivity].
    + intros Hh Hv ->.
      rewrite (main_of_exit env args w 0
                 (emit [StdOut (js "No input files specified.");
                        StdOut (js "Usage: come [options] <file1.md> [file2.md] [...]")] w));
        [split; reflexivity|].
      unfold mainTry. rewrite Hparse, Hh, Hv.
      change (Z.of_nat (length (@nil jsstring)) =? 0) with true. cbv iota.
      rewrite !consoleLog_bind, emit_emit. reflexivity.
    + intros Hhv. unfold main, mainTry.
      rewrite bind_run, attempt_run, Hparse.
      destruct (showHelp options); [reflexivity|].
      destruct Hhv as [Hh | Hv]; [discriminate|]. rewrite Hv. reflexivity.
Qed.

Lemma missing_output_value_witness :
  let r := main Paths.linux [js "CLAUDE.md"; js "-o"] Scenario.rulesWorld in
  files (snd r) = files Scenario.rulesWorld /\ fst r = Exit 1.
Proof.
  destruct (missing_output_value Paths.linux [js "CLAUDE.md"; js "-o"]
              (setOutput None defaultOptions) [js "CLAUDE.md"] Scenario.rulesWorld
              eq_refl eq_refl) as (_ & Hfiles & Herr & _).
  split; [exact Hfiles|].
  apply Herr; [reflexivity | reflexivity | discriminate].
Defined.

(** C6 as the specification states it does not hold for the arguments [-o]
    alone: the run prints the usage text on standard output and exits with
    code 0. *)
Lemma missing_output_value_exits_zero :
  let r := main Paths.linux [js "-o"] Scenario.rulesWorld in
  parseArgs [js "-o"] defaultOptions [] = Parsed (setOutput None defaultOptions) []
  /\ exitCodeOf (fst r) = 0
  /\ console (snd r)
     = [StdOut (js "No input files specified.");
        StdOut (js "Usage: come [options] <file1.md> [file2.md] [...]")].
Proof. vm_compute. repeat split. Qed.

(** ** Steps that keep a relation between the file systems *)

Section Respects.
Context (R : FS -> FS -> Prop) `{!PreOrder R}.

Lemma respects_of_preserves {A} (m : M A) : preservesFiles m -> respects R m.
Proof. intros H w. rewrite H. reflexivity. Qed.

Lemma respects_bind {A B} (m : M A) (k : A -> M B) :
  respects R m -> (forall a, respects R (k a)) -> respects R (bind m k).
Proof.
  intros Hm Hk w. rewrite bind_run. specialize (Hm w).
  destruct (m w) as [[a|e|c] w']; simpl in *; [|assumption..].
  etransitivity; [exact Hm | apply Hk].
Qed.

Lemma respects_attempt {A} (m : M A) : respects R m -> respects R (attempt m).
Proof.
  intros Hm w. rewrite attempt_run. specialize (Hm w).
  destruct (m w) as [[a|e|c] w']; assumption.
Qed.

Lemma respects_fsWrite (f : FS -> Error + FS) :
  (forall fs fs', f fs = inr fs' -> R fs fs') -> respects R (fsWrite f).
Proof.
  intros H w. rewrite fsWrite_run. specialize (H (files w)).
  destruct (f (files w)) as [e|fs']; simpl; [reflexivity | now apply H].
Qed.

Lemma respects_forEach {A} (l : list A) body :
  (forall x, respects R (body x)) -> respects R (forEach l body).
Proof.
  intros H. induction l as [|x l IH].
  - apply respects_of_preserves, preserves_ret.
  - apply respects_bind; [apply H | intros _; exact IH].
Qed.
End Respects.

Ltac respects_step :=
  match goal with
  | |- respects _ (bind _ _) => refine (respects_bind _ _ _ _ _); [|intros ?]
  | |- respects _ (attempt _) => refine (respects_attempt _ _ _)
  | |- respects _ (ret _) => refine (respects_of_preserves _ _ (preserves_ret _))
  | |- respects _ (throw _) => refine (respects_of_preserves _ _ (preserves_throw _))
  | |- respects _ (log _ _ _) => refine (respects_of_preserves _ _ (preserves_log _ _ _))
  | |- respects _ (logVerbose _ _) =>
      refine (respects_of_preserves _ _ (preserves_logVerbose _ _))
  | |- respects _ (consoleError _) =>
      refine (respects_of_preserves _ _ (preserves_consoleError _))
  | |- respects _ (fsRead _) => refine (respects_of_preserves _ _ (preserves_fsRead _))
  | |- respects _ (fsWrite _) => refine (respects_fsWrite _ _ _); intros ? ?
  | |- respects _ (if ?b then _ else _) => destruct b
  | |- respects _ (match ?x with _ => _ end) => destruct x
  end.

(** ** Writing through links keeps the links *)

Lemma follow_not_link env fuel fs p q :
  follow env fuel fs p = Some q -> forall t, fs !! q ≠ Some (Link t).
Proof.
  revert p. induction fuel as [|fuel IH]; intros p H t.
  - simpl in H. destruct (fs !! p) as [[c|t']|] eqn:E; try discriminate;
      injection H as <-; congruence.
  - simpl in H. destruct (fs !! p) as [[c|t']|] eqn:E.
    + injection H as <-. congruence.
    + eapply IH. exact H.
    + injection H as <-. congruence.
Qed.

Lemma realpath_not_link env fs p q :
  realpath env fs p = Some q -> forall t, fs !! q ≠ Some (Link t).
Proof. apply follow_not_link. Qed.

(** A path that is no link is its own real path. *)
Lemma realpath_self env fs p :
  (forall t, fs !! p ≠ Some (Link t)) -> realpath env fs p = Some p.
Proof.
  intros H. unfold realpath, MAXSYMLINKS. simpl.
  destruct (fs !! p) as [[c|t]|] eqn:E; try reflexivity. now destruct (H t).
Qed.

Lemma linksKept_preorder : PreOrder linksKept.
Proof.
  split.
  - intros fs p t H. exact H.
  - intros a b c Hab Hbc p t H. apply Hbc, Hab, H.
Qed.

#[local] Existing Instance linksKept_preorder.

Lemma linksKept_insert_file fs q c :
  (forall t, fs !! q ≠ Some (Link t)) -> linksKept fs (<[q := File c]> fs).
Proof.
  intros Hq p t Hp. rewrite lookup_insert_ne; [exact Hp|].
  intros ->. now apply (Hq t).
Qed.

Lemma fsWriteFile_keeps_links env p data fs fs' :
  fsWriteFile env p data fs = inr fs' -> linksKept fs fs'.
Proof.
  unfold fsWriteFile, guarded. intros H.
  destruct (fault env _); [discriminate|].
  destruct (realpath env fs p) as [q|] eqn:Hq; [|discriminate].
  injection H as <-. eapply linksKept_insert_file, realpath_not_link, Hq.
Qed.

Lemma fsAppendFile_keeps_links env p data fs fs' :
  fsAppendFile env p data fs = inr fs' -> linksKept fs fs'.
Proof.
  unfold fsAppendFile, guarded. intros H.
  destruct (fault env _); [discriminate|].
  destruct (realpath env fs p) as [q|] eqn:Hq; [|discriminate].
  destruct (fs !! q) as [[c|t]|]; injection H as <-;
    eapply linksKept_insert_file, realpath_not_link, Hq.
Qed.

Lemma addToGitignore_keeps_links env options cwd' filename :
  respects linksKept (addToGitignore env options cwd' filename).
Proof.
  unfold addToGitignore.
  repeat first
    [ respects_step | apply fsWriteFile_keeps_links | apply fsAppendFile_keeps_links ].
Qed.

(** ** Link-state reconciliation of a symbolic link (C7) *)

Lemma fsLstat_found env p fs n :
  fault env (CallLstat p) = None -> fs !! p = Some n -> fsLstat env p fs = inr n.
Proof. intros Hf Hp. unfold fsLstat, guarded. now rewrite Hf, Hp. Qed.

Lemma fsReadlink_link env p fs t :
  fault env (CallReadlink p) = None -> fs !! p = Some (Link t) ->
  fsReadlink env p fs = inr t.
Proof. intros Hf Hp. unfold fsReadlink, guarded. now rewrite Hf, Hp. Qed.

Lemma fsUnlink_found env p fs n :
  fault env (CallUnlink p) = None -> fs !! p = Some n ->
  fsUnlink env p fs = inr (delete p fs).
Proof. intros Hf Hp. unfold fsUnlink, guarded. now rewrite Hf, Hp. Qed.

Lemma fsSymlink_fresh env target p fs :
  fault env (CallSymlink target p) = None -> fs !! p = None ->
  fsSymlink env target p fs = inr (<[p := Link target]> fs).
Proof. intros Hf Hp. unfold fsSymlink, guarded. now rewrite Hf, Hp. Qed.

(** The last step of a sequence decides how the file systems relate. *)
Lemma bind_last {A B} (m : M A) (k : A -> M B) w a w1 :
  m w = (Ret a, w1) -> bind m k w = k a w1.
Proof. intros H. now rewrite bind_run, H. Qed.

(** The loop body on a path that is a symbolic link. *)
Lemma processFile_on_link env options unified unifiedPath file w cur :
  file ≠ unified ->
  fault env (CallLstat (pathJoin env (cwd env) file)) = None ->
  fault env (CallReadlink (pathJoin env (cwd env) file)) = None ->
  files w !! pathJoin env (cwd env) file = Some (Link cur) ->
  processFile env options unified unifiedPath file w
  = let filePath := pathJoin env (cwd env) file in
    let expectedTarget := linkTarget env options filePath unifiedPath in
    ((if negb (strEq cur expectedTarget) then
        log options
          (js "Symlink " ++ file ++ js " points to wrong target (" ++ cur
             ++ js "), updating to " ++ expectedTarget) LevelInfo >>
        logVerbose options (js "Expected target: " ++ expectedTarget) >>
        (if negb (dryRun options) then
           fsWrite (fsUnlink env filePath) >>
           createSymlinkWithFallback env options expectedTarget filePath unifiedPath
         else ret tt) >>
        log options
          ((if dryRun options then js "[dry-run] Would update" else js "Updated")
             ++ js " symlink target for " ++ file) LevelInfo
      else
        logVerbose options
          (js "Skipping " ++ file ++ js " (already a symlink with correct target)") >>
        logVerbose options (js "Current target: " ++ cur)) >>
     addToGitignore env options (cwd env) file)
      (emit (logged options (js "Processing file: " ++ file) LevelVerbose) w).
Proof.
  intros Hne Hfl Hfr Hcur. unfold processFile.
  replace (strEq file unified) with false by (symmetry; now apply strEq_false).
  rewrite logVerbose_bind. cbv zeta.
  rewrite bind_run, attempt_run, fsRead_run, files_emit.
  rewrite (fsLstat_found env _ _ _ Hfl Hcur).
  rewrite bind_run, fsRead_run, files_emit.
  rewrite (fsReadlink_link env _ _ _ Hfr Hcur). reflexivity.
Qed.

(** C7, as the program has it: in a run that is no dry run, an input other
    than the unified file that is a symbolic link (its status and its target
    are read without failure) whose target differs from the expected target
    [T] (the absolute path of the unified file with the absolute option,
    otherwise the path of the unified file relative to the directory of the
    input) is removed and created anew with target [T] by one pass, where
    neither the removal of the link nor the creation of the new one fails;
    a link whose target is [T] already stays as it is. *)
Theorem stale_link_is_retargeted env options unified unifiedPath file w cur :
  let filePath := pathJoin env (cwd env) file in
  let T := linkTarget env options filePath unifiedPath in
  let w' := snd (processFile env options unified unifiedPath file w) in
  dryRun options = false ->
  file ≠ unified ->
  fault env (CallLstat filePath) = None ->
  fault env (CallReadlink filePath) = None ->
  files w !! filePath = Some (Link cur) ->
  (T = if absolute options then unifiedPath
       else pathRelative env (pathDirname env filePath) unifiedPath)
  /\ (cur ≠ T ->
      fault env (CallUnlink filePath) = None ->
      fault env (CallSymlink T filePath) = None ->
      files w' !! filePath = Some (Link T))
  /\ (cur = T -> files w' !! filePath = Some (Link cur)).
Proof.
  intros filePath T w' Hdry Hne Hfl Hfr Hcur. split; [reflexivity|].
  subst w'.
  rewrite (processFile_on_link env options unified unifiedPath file w cur Hne Hfl Hfr Hcur).
  cbv zeta. fold filePath. fold T. rewrite Hdry. cbn [negb].
  split.
  - intros HT Hfu Hfs.
    replace (strEq cur T) with false by (symmetry; now apply strEq_false).
    cbn [negb].
    erewrite bind_last; cycle 1.
    + rewrite log_bind, logVerbose_bind, bind_run, bind_run, fsWrite_run.
      rewrite !files_emit.
      rewrite (fsUnlink_found env filePath _ _ Hfu Hcur).
      rewrite (createSymlink_ok env options T filePath unifiedPath _
                 (<[filePath := Link T]> (delete filePath (files w)))).
      * rewrite log_run. reflexivity.
      * apply fsSymlink_fresh; [exact Hfs|]. apply lookup_delete_eq.
    + apply addToGitignore_keeps_links. cbn [files emit]. apply lookup_insert_eq.
  - intros ->.
    replace (strEq T T) with true by (symmetry; apply strEq_refl).
    cbn [negb].
    erewrite bind_last; cycle 1.
    + rewrite logVerbose_bind, logVerbose_run. reflexivity.
    + apply addToGitignore_keeps_links. exact Hcur.
Qed.

Lemma stale_link_is_retargeted_witness :
  files (snd (processFile Paths.linux defaultOptions (js "AGENTS.md") (js "/w/AGENTS.md")
                (js "CLAUDE.md") LinkScenario.linkWorld))
    !! js "/w/CLAUDE.md" = Some (Link (js "AGENTS.md"))
  /\ files (snd (processFile Paths.linux defaultOptions (js "AGENTS.md")
                   (js "/w/AGENTS.md") (js "GEMINI.md") LinkScenario.linkWorld))
       !! js "/w/GEMINI.md" = Some (Link (js "AGENTS.md")).
Proof.
  split.
  - refine (proj1 (proj2 (stale_link_is_retargeted Paths.linux defaultOptions
                            (js "AGENTS.md") (js "/w/AGENTS.md") (js "CLAUDE.md")
                            LinkScenario.linkWorld (js "OLD.md")
                            eq_refl _ eq_refl eq_refl eq_refl)) _ eq_refl eq_refl).
    + vm_compute. discriminate.
    + vm_compute. discriminate.
  - refine (proj2 (proj2 (stale_link_is_retargeted Paths.linux defaultOptions
                            (js "AGENTS.md") (js "/w/AGENTS.md") (js "GEMINI.md")
                            LinkScenario.linkWorld (js "AGENTS.md")
                            eq_refl _ eq_refl eq_refl eq_refl)) eq_refl).
    vm_compute. discriminate.
Defined.

(** C7 as the specification states it does not hold where the host makes
    the program copy instead of link: on Windows without the right to create
    links, the pass over a link with a wrong target removes the link,
    returns normally and reports the update, and leaves a copy of the
    unified file at the input path, not a link with the expected target. *)
Lemma stale_link_becomes_copy_on_windows :
  let r := processFile Scenario.deniedWin32 defaultOptions (js "AGENTS.md")
             (js "C:\w\AGENTS.md") (js "CLAUDE.md") LinkScenario.winLinkWorld in
  files LinkScenario.winLinkWorld !! js "C:\w\CLAUDE.md" = Some (Link (js "OLD.md"))
  /\ linkTarget Scenario.deniedWin32 defaultOptions (js "C:\w\CLAUDE.md")
       (js "C:\w\AGENTS.md") = js "AGENTS.md"
  /\ fst r = Ret tt
  /\ In (StdOut (js "Updated symlink target for CLAUDE.md")) (console (snd r))
  /\ files (snd r) !! js "C:\w\CLAUDE.md" = Some (File (js "hello"))
  /\ files (snd r) !! js "C:\w\CLAUDE.md" ≠ Some (Link (js "AGENTS.md")).
Proof.
  intros r. subst r.
  split; [reflexivity|]. split; [vm_compute; reflexivity|].
  split; [vm_compute; reflexivity|]. split; [vm_compute; tauto|].
  split; [vm_compute; reflexivity|]. vm_compute. discriminate.
Qed.

(** ** Backup, replace and roll back (C2) *)

Lemma fsRename_found env a b fs n :
  fault env (CallRename a b) = None -> fs !! a = Some n ->
  fsRename env a b fs = inr (<[b := n]> (delete a fs)).
Proof. intros Hf Ha. unfold fsRename, guarded. now rewrite Hf, Ha. Qed.

Lemma fsSymlink_fault env target p fs err :
  fault env (CallSymlink target p) = Some err -> fsSymlink env target p fs = inl err.
Proof. intros Hf. unfold fsSymlink, guarded. now rewrite Hf. Qed.

Lemma fsRename_fault env a b fs err :
  fault env (CallRename a b) = Some err -> fsRename env a b fs = inl err.
Proof. intros Hf. unfold fsRename, guarded. now rewrite Hf. Qed.

Lemma backupPath_differs env filePath : backupPathOf env filePath ≠ filePath.
Proof.
  unfold backupPathOf. intros H.
  assert (Hlen : length (filePath ++ js ".backup-" ++ showN (now env)) = length filePath)
    by now rewrite H.
  rewrite !length_app in Hlen. simpl in Hlen. lia.
Qed.

(** The loop body on a path that is a regular file. *)
Lemma processFile_on_file env options unified unifiedPath file w C :
  file ≠ unified ->
  fault env (CallLstat (pathJoin env (cwd env) file)) = None ->
  files w !! pathJoin env (cwd env) file = Some (File C) ->
  processFile env options unified unifiedPath file w
  = (mergeContents env options unified unifiedPath file (pathJoin env (cwd env) file) >>
     replaceWithSymlink env options unified unifiedPath file
       (pathJoin env (cwd env) file) >>
     addToGitignore env options (cwd env) file)
      (emit (logged options (js "Processing file: " ++ file) LevelVerbose) w).
Proof.
  intros Hne Hfl HC. unfold processFile.
  replace (strEq file unified) with false by (symmetry; now apply strEq_false).
  rewrite logVerbose_bind. cbv zeta.
  rewrite bind_run, attempt_run, fsRead_run, files_emit.
  rewrite (fsLstat_found env _ _ _ Hfl HC). reflexivity.
Qed.







(** ** The ignore list keeps what it lists *)

Lemma completeBlock_indices lines pre s mid e post :
  completeBlock lines pre s mid e post ->
  gitignoreStartIdx lines = Z.of_nat (length pre)
  /\ gitignoreEndIdx lines (gitignoreStartIdx lines)
     = Z.of_nat (length pre + 1 + length mid)
  /\ slice lines (gitignoreStartIdx lines + 1)
       (gitignoreEndIdx lines (gitignoreStartIdx lines)) = mid.
Proof.
  intros (-> & Hpre & Hs & Hmid & He).
  rewrite (gitignoreStartIdx_first pre s _ Hpre Hs).
  rewrite (gitignoreEndIdx_first pre s mid e post Hmid He).
  rewrite gitignore_block_entries. repeat split.
Qed.

(** The entries of a complete block are determined by the lines. *)
Lemma completeBlock_entries_unique lines pre s mid e post pre' s' mid' e' post' :
  completeBlock lines pre s mid e post ->
  completeBlock lines pre' s' mid' e' post' ->
  mid = mid'.
Proof.
  intros H H'.
  destruct (completeBlock_indices _ _ _ _ _ _ H) as (_ & _ & <-).
  destruct (completeBlock_indices _ _ _ _ _ _ H') as (_ & _ & <-).
  reflexivity.
Qed.

Lemma complete_not_truncated lines pre s mid e post pre' s' post' :
  completeBlock lines pre s mid e post -> truncatedBlock lines pre' s' post' -> False.
Proof.
  intros H (Hl & Hpre & Hs & Hpost).
  destruct (completeBlock_indices _ _ _ _ _ _ H) as (H1 & H2 & _).
  rewrite Hl in H1, H2.
  rewrite (gitignoreStartIdx_first pre' s' _ Hpre Hs) in H1, H2.
  rewrite (gitignoreEndIdx_none pre' s' post' Hpost) in H2. lia.
Qed.

Lemma complete_has_start lines pre s mid e post :
  completeBlock lines pre s mid e post ->
  Forall (fun l => isStartLine l = false) lines -> False.
Proof.
  intros (-> & _ & Hs & _) Hall.
  apply Forall_app in Hall as [_ Hall]. inversion Hall; subst. congruence.
Qed.

Lemma plainName_not_end f : plainName f -> isEndLine f = false.
Proof.
  intros (Ht & _ & Hne). unfold isEndLine. rewrite Ht. now apply strEq_false.
Qed.

Lemma plainName_matches f : plainName f -> strEq (trim f) f = true.
Proof. intros (Ht & _). rewrite Ht. apply strEq_refl. Qed.

Lemma some_app {A} (p : A -> bool) l1 l2 : some p (l1 ++ l2) = some p l1 || some p l2.
Proof. apply existsb_app. Qed.

Lemma isEndLine_blank : isEndLine [] = false.
Proof. vm_compute. reflexivity. Qed.

Lemma isStartLine_blank : isStartLine [] = false.
Proof. vm_compute. reflexivity. Qed.

Lemma isEndLine_start : isEndLine gitignoreBlockStart = false.
Proof. vm_compute. reflexivity. Qed.

Lemma split_gitignoreBlock f :
  NL ∉ f -> split (gitignoreBlock f) NL = [gitignoreBlockStart; f; gitignoreBlockEnd; []].
Proof.
  intros Hf. unfold gitignoreBlock.
  change (gitignoreBlockStart ++ [NL] ++ f ++ [NL] ++ gitignoreBlockEnd ++ [NL])
    with (gitignoreBlockStart ++ NL :: f ++ NL :: gitignoreBlockEnd ++ NL :: []).
  rewrite !split_app_sep.
  rewrite (split_no_sep _ _ gitignoreBlockStart_one_line).
  rewrite (split_no_sep _ _ gitignoreBlockEnd_one_line).
  rewrite (split_no_sep _ _ Hf). reflexivity.
Qed.

Ltac block_intro := split; [|split; [|split; [|split]]].

(** A new block lists its entry. *)
Lemma entryListed_created f : plainName f -> entryListed (gitignoreBlock f) f.
Proof.
  intros Hf. pose proof Hf as (_ & Hnl & _).
  exists [], gitignoreBlockStart, [f], gitignoreBlockEnd, [[]].
  split.
  - rewrite (split_gitignoreBlock f Hnl). block_intro.
    + reflexivity.
    + constructor.
    + exact isStartLine_marker.
    + constructor; [now apply plainName_not_end | constructor].
    + exact isEndLine_marker.
  - cbn. now rewrite plainName_matches.
Qed.

(** A block appended to a file without a complete block lists its entry. *)
Lemma entryListed_appended content f :
  plainName f ->
  (forall pre s mid e post, ~ completeBlock (split content NL) pre s mid e post) ->
  entryListed (content ++ gitignoreSeparator content ++ gitignoreBlock f) f.
Proof.
  intros Hf Hno. pose proof Hf as (_ & Hnl & _).
  destruct content as [|c content'] eqn:Ec.
  { cbn [app gitignoreSeparator length Z.of_nat Z.ltb Z.compare].
    now apply entryListed_created. }
  rewrite <- Ec in *. assert (Hne : content ≠ []) by (rewrite Ec; discriminate).
  clear Ec c content'.
  unfold entryListed. rewrite (split_appended_block content f Hne).
  rewrite (split_no_sep _ _ Hnl).
  destruct (gitignore_shapes (split content NL))
    as [Hnone | [(pre & s & post & Hl & Hpre & Hs & Hpost) | (pre & s & mid & e & post & H)]].
  - exists (split content NL ++ [[]]), gitignoreBlockStart, [f], gitignoreBlockEnd, [[]].
    split.
    + block_intro.
      * rewrite <- app_assoc. reflexivity.
      * apply Forall_app. split; [exact Hnone|].
        constructor; [exact isStartLine_blank | constructor].
      * exact isStartLine_marker.
      * constructor; [now apply plainName_not_end | constructor].
      * exact isEndLine_marker.
    + cbn. now rewrite plainName_matches.
  - exists pre, s, (post ++ [[]; gitignoreBlockStart; f]), gitignoreBlockEnd, [[]].
    split.
    + block_intro.
      * rewrite Hl, <- !app_assoc. reflexivity.
      * exact Hpre.
      * exact Hs.
      * apply Forall_app. split; [exact Hpost|].
        constructor; [exact isEndLine_blank|].
        constructor; [exact isEndLine_start|].
        constructor; [now apply plainName_not_end | constructor].
      * exact isEndLine_marker.
    + rewrite some_app. cbn. rewrite (plainName_matches f Hf).
      now rewrite !orb_true_r.
  - now destruct (Hno _ _ _ _ _ H).
Qed.

(** An entry inserted into a complete block is listed, with the old ones. *)
Lemma entryListed_inserted content pre s mid e post f :
  plainName f ->
  completeBlock (split content NL) pre s mid e post ->
  forall g,
    g = f \/ some (fun line => strEq (trim line) g) mid = true ->
    entryListed (join (pre ++ s :: mid ++ f :: e :: post) [NL]) g.
Proof.
  intros Hf (Hl & Hpre & Hs & Hmid & He) g Hg. pose proof Hf as (_ & Hnl & _).
  exists pre, s, (mid ++ [f]), e, post.
  assert (Hlines : Forall (fun l => NL ∉ l) (pre ++ s :: mid ++ f :: e :: post)).
  { pose proof (split_lines_no_sep content NL) as Hall. rewrite Hl in Hall.
    apply Forall_app in Hall as [H1 Hall]. inversion Hall as [|? ? H2 Hall']; subst.
    apply Forall_app in Hall' as [H3 Hall']. inversion Hall' as [|? ? H4 H5]; subst.
    apply Forall_app. split; [exact H1|]. constructor; [exact H2|].
    apply Forall_app. split; [exact H3|]. constructor; [exact Hnl|].
    now constructor. }
  split.
  - rewrite split_join; [| now destruct pre | exact Hlines].
    block_intro; try assumption.
    + rewrite <- app_assoc. reflexivity.
    + apply Forall_app. split; [exact Hmid|].
      constructor; [now apply plainName_not_end | constructor].
  - rewrite some_app. destruct Hg as [-> | Hg].
    + cbn. rewrite (plainName_matches f Hf). now rewrite orb_true_r.
    + now rewrite Hg.
Qed.

Lemma fsReadFile_of_file env p fs c :
  fault env (CallReadFile p) = None -> fs !! p = Some (File c) ->
  fsReadFile env p fs = inr c.
Proof.
  intros Hf Hp. eapply fsReadFile_intro; [exact Hf | | exact Hp].
  apply realpath_self. intros t. congruence.
Qed.

Lemma fsReadFile_absent env p fs :
  fault env (CallReadFile p) = None -> fs !! p = None ->
  fsReadFile env p fs = inl (ENOENT (js "open") p None).
Proof.
  intros Hf Hp. unfold fsReadFile, guarded.
  rewrite Hf, realpath_self by (intros t; congruence). now rewrite Hp.
Qed.

(** An entry that is listed is left alone. *)
Lemma addToGitignore_listed env options f w :
  dryRun options = false ->
  (forall c, fault env c = None) ->
  listedIn (pathJoin env (cwd env) (js ".gitignore")) (files w) f ->
  effect (addToGitignore env options (cwd env) f) w = (Ret tt, files w).
Proof.
  intros Hdry Hnf (content & Hgp & pre & s & mid & e & post & Hshape & Hsome).
  rewrite (addToGitignore_complete env options (cwd env) f w content pre s mid e post
             Hdry (fsReadFile_of_file env _ _ _ (Hnf _) Hgp) Hshape).
  now rewrite Hsome.
Qed.

(** After [addToGitignore] the filename is listed, what was listed still
    is, and no other file has changed. *)
Lemma addToGitignore_lists env options f w :
  dryRun options = false ->
  (forall c, fault env c = None) ->
  (forall t, files w !! pathJoin env (cwd env) (js ".gitignore") ≠ Some (Link t)) ->
  plainName f ->
  exists fs',
    effect (addToGitignore env options (cwd env) f) w = (Ret tt, fs')
    /\ listedIn (pathJoin env (cwd env) (js ".gitignore")) fs' f
    /\ (forall p, p ≠ pathJoin env (cwd env) (js ".gitignore") -> fs' !! p = files w !! p)
    /\ (forall g, listedIn (pathJoin env (cwd env) (js ".gitignore")) (files w) g ->
                  listedIn (pathJoin env (cwd env) (js ".gitignore")) fs' g).
Proof.
  intros Hdry Hnf Hnl Hf.
  set (gp := pathJoin env (cwd env) (js ".gitignore")) in *.
  assert (Hreal : realpath env (files w) gp = Some gp) by now apply realpath_self.
  destruct (files w !! gp) as [[content|t]|] eqn:Hgp; [| now destruct (Hnl t) |].
  - pose proof (fsReadFile_of_file env gp _ _ (Hnf _) Hgp) as Hread.
    destruct (gitignore_shapes (split content NL))
      as [Hnone | [(pre & s & post & Htr) | (pre & s & mid & e & post & Hshape)]].
    + (* no start marker: a block is appended *)
      exists (<[gp := File (content ++ gitignoreSeparator content ++ gitignoreBlock f)]>
                (files w)).
      rewrite (addToGitignore_no_start env options (cwd env) f w content Hdry Hread Hnone).
      fold gp. rewrite (fsAppendFile_to_file env gp _ _ gp content (Hnf _) Hreal Hgp).
      split; [reflexivity|]. split; [|split].
      * eexists. split; [apply lookup_insert_eq|].
        apply entryListed_appended; [exact Hf|].
        intros ? ? ? ? ? H. eapply complete_has_start; eassumption.
      * intros p Hp. now apply lookup_insert_ne.
      * intros g (content' & Hc & ? & ? & ? & ? & ? & H & _).
        assert (content' = content) by congruence. subst content'.
        exfalso. eapply complete_has_start; eassumption.
    + (* truncated block: a block is appended *)
      exists (<[gp := File (content ++ gitignoreSeparator content ++ gitignoreBlock f)]>
                (files w)).
      rewrite (addToGitignore_truncated env options (cwd env) f w content pre s post
                 Hdry Hread Htr).
      fold gp. rewrite (fsAppendFile_to_file env gp _ _ gp content (Hnf _) Hreal Hgp).
      split; [reflexivity|]. split; [|split].
      * eexists. split; [apply lookup_insert_eq|].
        apply entryListed_appended; [exact Hf|].
        intros ? ? ? ? ? H. eapply complete_not_truncated; eassumption.
      * intros p Hp. now apply lookup_insert_ne.
      * intros g (content' & Hc & ? & ? & ? & ? & ? & H & _).
        assert (content' = content) by congruence. subst content'.
        exfalso. eapply complete_not_truncated; eassumption.
    + (* complete block *)
      rewrite (addToGitignore_complete env options (cwd env) f w content pre s mid e post
                 Hdry Hread Hshape).
      fold gp.
      destruct (some (fun line => strEq (trim line) f) mid) eqn:Hsome.
      * exists (files w). split; [reflexivity|]. split; [|split].
        -- exists content. split; [exact Hgp|]. exists pre, s, mid, e, post. now split.
        -- reflexivity.
        -- intros g Hg. exact Hg.
      * exists (<[gp := File (join (pre ++ s :: mid ++ f :: e :: post) [NL])]> (files w)).
        rewrite (fsWriteFile_to env gp _ _ gp (Hnf _) Hreal).
        split; [reflexivity|]. split; [|split].
        -- eexists. split; [apply lookup_insert_eq|].
           eapply entryListed_inserted; [exact Hf | exact Hshape | now left].
        -- intros p Hp. now apply lookup_insert_ne.
        -- intros g (content' & Hc & pre' & s' & mid' & e' & post' & H & Hg).
           assert (content' = content) by congruence. subst content'.
           rewrite <- (completeBlock_entries_unique _ _ _ _ _ _ _ _ _ _ _ Hshape H) in Hg.
           eexists. split; [apply lookup_insert_eq|].
           eapply entryListed_inserted; [exact Hf | exact Hshape | now right].
  - (* no ignore file: it is created with the block *)
    exists (<[gp := File (gitignoreBlock f)]> (files w)).
    rewrite (addToGitignore_unreadable env options (cwd env) f w _ Hdry
               (fsReadFile_absent env gp _ (Hnf _) Hgp)).
    fold gp. rewrite (fsWriteFile_to env gp _ _ gp (Hnf _) Hreal).
    split; [reflexivity|]. split; [|split].
    + eexists. split; [apply lookup_insert_eq|]. now apply entryListed_created.
    + intros p Hp. now apply lookup_insert_ne.
    + intros g (content' & Hc & _). congruence.
Qed.

(** ** One pass converges, a second pass changes nothing (C1) *)

Lemma fsLstat_absent env p fs :
  fault env (CallLstat p) = None -> fs !! p = None ->
  fsLstat env p fs = inl (ENOENT (js "lstat") p None).
Proof. intros Hf Hp. unfold fsLstat, guarded. now rewrite Hf, Hp. Qed.

(** The loop body on a path where nothing is. *)
Lemma processFile_on_absent env options unified unifiedPath file w :
  file ≠ unified ->
  fault env (CallLstat (pathJoin env (cwd env) file)) = None ->
  files w !! pathJoin env (cwd env) file = None ->
  processFile env options unified unifiedPath file w
  = let filePath := pathJoin env (cwd env) file in
    let symlinkTarget := linkTarget env options filePath unifiedPath in
    ((if negb (dryRun options)
      then createSymlinkWithFallback env options symlinkTarget filePath unifiedPath
      else ret tt) >>
     log options
       ((if dryRun options then js "[dry-run] Would create" else js "Created")
          ++ js " symlink for non-existent file: " ++ file) LevelInfo >>
     logVerbose options (js "Symlink target: " ++ symlinkTarget) >>
     addToGitignore env options (cwd env) file)
      (emit (logged options (js "Processing file: " ++ file) LevelVerbose) w).
Proof.
  intros Hne Hfl Hnone. unfold processFile.
  replace (strEq file unified) with false by (symmetry; now apply strEq_false).
  rewrite logVerbose_bind. cbv zeta.
  rewrite bind_run, attempt_run, fsRead_run, files_emit.
  rewrite (fsLstat_absent env _ _ Hfl Hnone). reflexivity.
Qed.

(** The replace step when the host fails no call. *)
Lemma replaceWithSymlink_ok env options unified unifiedPath file filePath w C :
  dryRun options = false ->
  (forall c, fault env c = None) ->
  files w !! filePath = Some (File C) ->
  exists w',
    replaceWithSymlink env options unified unifiedPath file filePath w = (Ret tt, w')
    /\ files w'
       = delete (backupPathOf env filePath)
           (<[filePath := Link (linkTarget env options filePath unifiedPath)]>
              (<[backupPathOf env filePath := File C]> (delete filePath (files w)))).
Proof.
  intros Hdry Hnf HC. unfold replaceWithSymlink. cbv zeta. rewrite Hdry. cbn [negb].
  rewrite bind_run, bind_run, attempt_run, bind_run, fsWrite_run.
  rewrite (fsRename_found env _ _ _ _ (Hnf _) HC).
  rewrite bind_run.
  erewrite createSymlink_ok; cycle 1.
  { apply fsSymlink_fresh; [apply Hnf|]. cbn [files].
    rewrite lookup_insert_ne by apply backupPath_differs. apply lookup_delete_eq. }
  rewrite fsWrite_run. cbn [files emit].
  erewrite fsUnlink_found; cycle 1.
  { apply Hnf. }
  { rewrite lookup_insert_ne by (intros H; symmetry in H; revert H; apply backupPath_differs).
    apply lookup_insert_eq. }
  cbv beta iota delta [ret]. rewrite log_bind, logVerbose_run. eexists. split; reflexivity.
Qed.

(** The merge step when the host fails no call. *)
Lemma mergeContents_ok env options unified unifiedPath file filePath w C U :
  dryRun options = false ->
  (forall c, fault env c = None) ->
  files w !! filePath = Some (File C) ->
  files w !! unifiedPath = Some (File U) ->
  exists w' U',
    mergeContents env options unified unifiedPath file filePath w = (Ret tt, w')
    /\ files w' = <[unifiedPath := File U']> (files w).
Proof.
  intros Hdry Hnf HC HU.
  rewrite (mergeContents_run env options unified unifiedPath file filePath w C U Hdry
             (fsReadFile_of_file env _ _ _ (Hnf _) HC)
             (fsReadFile_of_file env _ _ _ (Hnf _) HU)).
  destruct (includes U (blockStart file)).
  - eexists _, U. split; [reflexivity|]. cbn [files emit]. symmetry. now apply insert_id.
  - assert (Hreal : realpath env (files w) unifiedPath = Some unifiedPath)
      by (apply realpath_self; intros t; congruence).
    rewrite (fsAppendFile_to_file env unifiedPath _ _ unifiedPath U (Hnf _) Hreal HU).
    eexists _, _. split; reflexivity.
Qed.

Lemma effect_bind_ret {A B} (m : M A) (k : A -> M B) w a fs1 :
  effect m w = (Ret a, fs1) ->
  exists w1, files w1 = fs1 /\ effect (bind m k) w = effect (k a) w1.
Proof.
  intros H. rewrite effect_bind. unfold effect in H.
  destruct (m w) as [o w1]. cbn [fst snd] in H. injection H as -> <-.
  exists w1. split; reflexivity.
Qed.

(** One pass takes an input other than the unified file to a link with the
    expected target, whatever it was, and then turns to the ignore list. *)
Lemma processFile_reaches_link env options unified unifiedPath f w U :
  dryRun options = false ->
  (forall c, fault env c = None) ->
  f ≠ unified ->
  files w !! unifiedPath = Some (File U) ->
  inputPath env f ≠ unifiedPath ->
  backupPathOf env (inputPath env f) ≠ unifiedPath ->
  exists wA,
    processFile env options unified unifiedPath f w
    = addToGitignore env options (cwd env) f wA
    /\ files wA !! inputPath env f
       = Some (Link (linkTarget env options (inputPath env f) unifiedPath))
    /\ (exists U', files wA !! unifiedPath = Some (File U'))
    /\ (forall p, p ≠ inputPath env f -> p ≠ unifiedPath ->
                  p ≠ backupPathOf env (inputPath env f) ->
                  files wA !! p = files w !! p).
Proof.
  intros Hdry Hnf Hne HU Hfu Hbu. unfold inputPath in *.
  set (fp := pathJoin env (cwd env) f) in *.
  set (T := linkTarget env options fp unifiedPath).
  destruct (files w !! fp) as [[C|cur]|] eqn:Hfp.
  - (* a regular file: merge, then replace *)
    rewrite (processFile_on_file env options unified unifiedPath f w C Hne (Hnf _) Hfp).
    fold fp.
    set (w0 := emit (logged options (js "Processing file: " ++ f) LevelVerbose) w).
    destruct (mergeContents_ok env options unified unifiedPath f fp w0 C U Hdry Hnf Hfp HU)
      as (w1 & U' & Hmerge & Hfiles1).
    rewrite (bind_last _ _ w0 tt w1 Hmerge).
    assert (HC1 : files w1 !! fp = Some (File C)).
    { rewrite Hfiles1, lookup_insert_ne by congruence. exact Hfp. }
    destruct (replaceWithSymlink_ok env options unified unifiedPath f fp w1 C Hdry Hnf HC1)
      as (w2 & Hreplace & Hfiles2).
    rewrite (bind_last _ _ w1 tt w2 Hreplace).
    exists w2. split; [reflexivity|]. rewrite Hfiles2, Hfiles1. fold T.
    split; [|split].
    + rewrite lookup_delete_ne by apply backupPath_differs. apply lookup_insert_eq.
    + exists U'. rewrite lookup_delete_ne, !lookup_insert_ne, lookup_delete_ne by congruence.
      apply lookup_insert_eq.
    + intros p Hp1 Hp2 Hp3.
      rewrite lookup_delete_ne, !lookup_insert_ne, lookup_delete_ne, lookup_insert_ne
        by congruence.
      reflexivity.
  - (* a link *)
    rewrite (processFile_on_link env options unified unifiedPath f w cur Hne
               (Hnf _) (Hnf _) Hfp).
    cbv zeta. fold fp. fold T. rewrite Hdry. cbn [negb].
    destruct (strEq cur T) eqn:Hcur; cbn [negb].
    + apply strEq_true in Hcur. subst cur.
      eexists. split.
      * erewrite bind_last; [reflexivity|].
        rewrite logVerbose_bind, logVerbose_run. reflexivity.
      * cbn [files emit]. split; [exact Hfp|]. split; [now exists U|]. reflexivity.
    + eexists. split.
      * erewrite bind_last; [reflexivity|].
        rewrite log_bind, logVerbose_bind, bind_run, bind_run, fsWrite_run.
        rewrite !files_emit.
        rewrite (fsUnlink_found env fp _ _ (Hnf _) Hfp).
        rewrite (createSymlink_ok env options T fp unifiedPath _
                   (<[fp := Link T]> (delete fp (files w)))).
        -- rewrite log_run. reflexivity.
        -- apply fsSymlink_fresh; [apply Hnf | apply lookup_delete_eq].
      * cbn [files emit]. split; [apply lookup_insert_eq|]. split.
        -- exists U. rewrite lookup_insert_ne, lookup_delete_ne by congruence. exact HU.
        -- intros p Hp _ _. rewrite lookup_insert_ne, lookup_delete_ne by congruence.
           reflexivity.
  - (* nothing: a link is created *)
    rewrite (processFile_on_absent env options unified unifiedPath f w Hne (Hnf _) Hfp).
    cbv zeta. fold fp. fold T. rewrite Hdry. cbn [negb].
    rewrite bind_run.
    rewrite (createSymlink_ok env options T fp unifiedPath _ (<[fp := Link T]> (files w)))
      by (apply fsSymlink_fresh; [apply Hnf | exact Hfp]).
    rewrite log_bind, logVerbose_bind.
    eexists. split; [reflexivity|].
    cbn [files emit]. split; [apply lookup_insert_eq|]. split.
    + exists U. rewrite lookup_insert_ne by congruence. exact HU.
    + intros p Hp _ _. now rewrite lookup_insert_ne by congruence.
Qed.

Lemma processFile_skips_unified env options unified unifiedPath w :
  effect (processFile env options unified unifiedPath unified) w = (Ret tt, files w).
Proof. unfold processFile. rewrite strEq_refl. apply effect_logVerbose. Qed.

(** A converged input is left alone by a pass. *)
Lemma processFile_stable env options unified unifiedPath done f w :
  dryRun options = false ->
  (forall c, fault env c = None) ->
  converged env options unified unifiedPath done (files w) ->
  f ∈ done ->
  effect (processFile env options unified unifiedPath f) w = (Ret tt, files w).
Proof.
  intros Hdry Hnf (_ & _ & Hdone) Hin.
  destruct (decide (f = unified)) as [-> | Hne]; [apply processFile_skips_unified|].
  destruct (Hdone f Hin Hne) as [Hlink Hlisted]. unfold inputPath in Hlink.
  unfold effect.
  rewrite (processFile_on_link env options unified unifiedPath f w _ Hne
             (Hnf _) (Hnf _) Hlink).
  cbv zeta. rewrite strEq_refl. cbn [negb].
  erewrite bind_last; cycle 1.
  { rewrite logVerbose_bind, logVerbose_run. reflexivity. }
  match goal with
  | |- (fst (addToGitignore _ _ _ _ ?wA), _) = _ =>
      exact (addToGitignore_listed env options f wA Hdry Hnf Hlisted)
  end.
Qed.

(** One pass over an input extends the converged state to it. *)
Lemma processFile_converges env options unified unifiedPath done f w :
  dryRun options = false ->
  (forall c, fault env c = None) ->
  unifiedPath ≠ gitignorePathOf env ->
  (f ≠ unified -> plainName f /\ clearPaths env unifiedPath f) ->
  (forall g, g ∈ done -> f ≠ unified -> g ≠ unified ->
             backupPathOf env (inputPath env f) ≠ inputPath env g) ->
  converged env options unified unifiedPath done (files w) ->
  exists fs',
    effect (processFile env options unified unifiedPath f) w = (Ret tt, fs')
    /\ converged env options unified unifiedPath (f :: done) fs'.
Proof.
  intros Hdry Hnf Hug Hf Hbk Hconv.
  destruct (decide (f = unified)) as [-> | Hne].
  { exists (files w). split; [apply processFile_skips_unified|].
    destruct Hconv as (H1 & H2 & H3). split; [exact H1|]. split; [exact H2|].
    intros g Hg Hgu. apply elem_of_cons in Hg as [-> | Hg]; [contradiction|].
    now apply H3. }
  destruct (Hf Hne) as (Hname & Hc1 & Hc2 & Hc3 & Hc4).
  pose proof Hconv as ((U & HU) & Hgp & Hdone).
  destruct (processFile_reaches_link env options unified unifiedPath f w U
              Hdry Hnf Hne HU Hc1 Hc3) as (wA & Hrun & HlinkA & (U' & HUA) & Hframe).
  assert (HgpA : files wA !! gitignorePathOf env = files w !! gitignorePathOf env)
    by (apply Hframe; congruence).
  destruct (addToGitignore_lists env options f wA Hdry Hnf) as (fs' & Heff & Hlisted & Hother & Hkeep).
  { fold (gitignorePathOf env). rewrite HgpA. exact Hgp. }
  { exact Hname. }
  fold (gitignorePathOf env) in Hlisted, Hother, Hkeep.
  exists fs'. split.
  { unfold effect in *. rewrite Hrun. exact Heff. }
  split; [|split].
  - exists U'. rewrite Hother by exact Hug. exact HUA.
  - intros t Ht. destruct Hlisted as (content & Hc & _). congruence.
  - intros g Hg Hgu. apply elem_of_cons in Hg as [-> | Hg].
    + split; [|exact Hlisted]. rewrite Hother by exact Hc2. exact HlinkA.
    + destruct (Hdone g Hg Hgu) as [Hlink Hl]. split.
      * destruct (decide (inputPath env g = inputPath env f)) as [Heq | Hdiff].
        -- rewrite Heq, Hother by exact Hc2. exact HlinkA.
        -- rewrite Hother by (intros E; rewrite E in Hlink; now destruct (Hgp _ Hlink)).
           rewrite Hframe; [exact Hlink | exact Hdiff | | ].
           ++ intros E. rewrite E in Hlink. congruence.
           ++ intros E. symmetry in E. revert E. now apply Hbk.
      * apply Hkeep. destruct Hl as (content & Hc & Hentry).
        exists content. split; [|exact Hentry]. now rewrite HgpA.
Qed.

Lemma converged_subset env options unified unifiedPath done done' fs :
  (forall f, f ∈ done' -> f ∈ done) ->
  converged env options unified unifiedPath done fs ->
  converged env options unified unifiedPath done' fs.
Proof.
  intros Hsub (H1 & H2 & H3). split; [exact H1|]. split; [exact H2|].
  intros f Hf. apply H3, Hsub, Hf.
Qed.

(** The loop of the first pass. *)
Lemma forEach_converges env options unified unifiedPath (all : list jsstring) :
  dryRun options = false ->
  (forall c, fault env c = None) ->
  unifiedPath ≠ gitignorePathOf env ->
  (forall f, f ∈ all -> f ≠ unified -> plainName f /\ clearPaths env unifiedPath f) ->
  (forall f g, f ∈ all -> g ∈ all -> f ≠ unified -> g ≠ unified ->
               backupPathOf env (inputPath env f) ≠ inputPath env g) ->
  forall rest done w,
    (forall f, f ∈ rest -> f ∈ all) ->
    (forall f, f ∈ done -> f ∈ all) ->
    converged env options unified unifiedPath done (files w) ->
    exists fs',
      effect (forEach rest (processFile env options unified unifiedPath)) w = (Ret tt, fs')
      /\ converged env options unified unifiedPath (rest ++ done) fs'.
Proof.
  intros Hdry Hnf Hug Hnames Hbk rest.
  induction rest as [|f rest IH]; intros done w Hrest Hdone Hconv.
  - exists (files w). split; [reflexivity | exact Hconv].
  - assert (Hf : f ∈ all) by (apply Hrest; left).
    destruct (processFile_converges env options unified unifiedPath done f w Hdry Hnf Hug)
      as (fs1 & Heff & Hconv1); [now apply Hnames | | exact Hconv |].
    { intros g Hg Hfu Hgu. apply Hbk; auto. }
    cbn [forEach].
    destruct (effect_bind_ret _ (fun _ => forEach rest
                                   (processFile env options unified unifiedPath))
                _ _ _ Heff) as (w1 & Hw1 & ->).
    destruct (IH (f :: done) w1) as (fs' & Heff' & Hconv').
    + intros g Hg. apply Hrest. now right.
    + intros g Hg. apply elem_of_cons in Hg as [-> | Hg]; [exact Hf | now apply Hdone].
    + now rewrite Hw1.
    + exists fs'. split; [exact Heff'|].
      eapply converged_subset; [|exact Hconv'].
      intros g Hg. rewrite elem_of_app, elem_of_cons.
      change ((f :: rest) ++ done) with (f :: (rest ++ done)) in Hg.
      rewrite elem_of_cons, elem_of_app in Hg. tauto.
Qed.

(** The loop of a further pass. *)
Lemma forEach_stable env options unified unifiedPath done :
  dryRun options = false ->
  (forall c, fault env c = None) ->
  forall l w,
    (forall f, f ∈ l -> f ∈ done) ->
    converged env options unified unifiedPath done (files w) ->
    effect (forEach l (processFile env options unified unifiedPath)) w = (Ret tt, files w).
Proof.
  intros Hdry Hnf l. induction l as [|f l IH]; intros w Hsub Hconv; [reflexivity|].
  cbn [forEach].
  destruct (effect_bind_ret _ (fun _ => forEach l
                                 (processFile env options unified unifiedPath))
              _ _ _ (processFile_stable env options unified unifiedPath done f w
                       Hdry Hnf Hconv ltac:(apply Hsub; left)))
    as (w1 & Hw1 & ->).
  rewrite <- Hw1. apply IH.
  - intros g Hg. apply Hsub. now right.
  - now rewrite Hw1.
Qed.

(** The bootstrap of the unified file. *)
Lemma ensureUnified_effect env options unified unifiedPath w :
  dryRun options = false ->
  (forall c, fault env c = None) ->
  (forall t, files w !! unifiedPath ≠ Some (Link t)) ->
  exists fs',
    effect (ensureUnified env options unified unifiedPath) w = (Ret tt, fs')
    /\ (exists U, fs' !! unifiedPath = Some (File U))
    /\ (forall p, p ≠ unifiedPath -> fs' !! p = files w !! p)
    /\ (is_Some (files w !! unifiedPath) -> fs' = files w).
Proof.
  intros Hdry Hnf Hnl. unfold ensureUnified. rewrite Hdry. cbn [negb].
  assert (Hreal : realpath env (files w) unifiedPath = Some unifiedPath)
    by now apply realpath_self.
  rewrite effect_bind, attempt_run, fsRead_run.
  unfold fsAccess, guarded. rewrite Hnf, Hreal.
  destruct (files w !! unifiedPath) as [[U|t]|] eqn:Hup; [| now destruct (Hnl t) |].
  - exists (files w). rewrite effect_logVerbose.
    split; [reflexivity|]. split; [now exists U|]. split; reflexivity.
  - exists (<[unifiedPath := File []]> (files w)).
    rewrite effect_bind, fsWrite_run, (fsWriteFile_to env _ _ _ _ (Hnf _) Hreal).
    rewrite effect_logVerbose. cbn [files].
    split; [reflexivity|]. split; [eexists; apply lookup_insert_eq|]. split.
    + intros p Hp. now apply lookup_insert_ne.
    + intros [x Hx]. discriminate.
Qed.

(** The program behind the early exits, in a run that is not a dry run. *)
Lemma mainTry_run env args options filesToProcess unified w :
  parseArgs args defaultOptions [] = Parsed options filesToProcess ->
  output options = Some unified ->
  showHelp options = false -> showVersion options = false ->
  filesToProcess ≠ [] ->
  dryRun options = false ->
  exists w0,
    files w0 = files w
    /\ effect (mainTry env args) w
       = effect (ensureUnified env options unified (unifiedPathOf env unified) >>
                 forEach filesToProcess
                   (processFile env options unified (unifiedPathOf env unified))) w0.
Proof.
  intros Hparse Hout Hh Hv Hfl Hdry. unfold effect, mainTry.
  rewrite Hparse, Hh, Hv, Hout, Hdry.
  destruct filesToProcess as [|f0 fl0]; [contradiction|].
  replace (Z.of_nat (length (f0 :: fl0)) =? 0) with false by reflexivity.
  cbv zeta. rewrite ret_bind, !logVerbose_bind.
  eexists. split; [|reflexivity]. reflexivity.
Qed.

Lemma main_effect env args w fs :
  effect (mainTry env args) w = (Ret tt, fs) -> effect (main env args) w = (Ret tt, fs).
Proof.
  unfold effect, main. rewrite bind_run, attempt_run.
  destruct (mainTry env args w) as [[[]|e|c] w']; cbn [fst snd]; intros H;
    try discriminate. exact H.
Qed.

(** C1, as the program has it: on a host that fails no file-system call (so
    that no link is replaced by a copy), with input names that the ignore
    list can hold (no blank at either end, no newline, not the end marker)
    and with the paths of the inputs and of their backups clear of the
    unified file, of the ignore file and of each other, a second run with
    the same arguments from the state the first run leaves changes no file:
    no block is added to the unified file, no entry to the ignore list, and
    every link stays as it is. *)
Theorem second_run_changes_nothing env args options filesToProcess unified w :
  parseArgs args defaultOptions [] = Parsed options filesToProcess ->
  output options = Some unified ->
  (forall c, fault env c = None) ->
  unifiedPathOf env unified ≠ gitignorePathOf env ->
  (forall t, files w !! unifiedPathOf env unified ≠ Some (Link t)) ->
  (forall t, files w !! gitignorePathOf env ≠ Some (Link t)) ->
  (forall f, f ∈ filesToProcess -> f ≠ unified ->
             plainName f /\ clearPaths env (unifiedPathOf env unified) f) ->
  (forall f g, f ∈ filesToProcess -> g ∈ filesToProcess -> f ≠ unified -> g ≠ unified ->
               backupPathOf env (inputPath env f) ≠ inputPath env g) ->
  let w1 := snd (main env args w) in
  files (snd (main env args w1)) = files w1.
Proof.
  intros Hparse Hout Hnf Hug Hup Hgp Hnames Hbk w1.
  destruct (dryRun options) eqn:Hdry.
  { exact (main_dry_run_preserves env args options filesToProcess Hparse Hdry w1). }
  destruct (showHelp options) eqn:Hh.
  { apply main_preserves, mainTry_preserves. intros o fl Ho. congruence. }
  destruct (showVersion options) eqn:Hv.
  { apply main_preserves, mainTry_preserves. intros o fl Ho. congruence. }
  destruct (decide (filesToProcess = [])) as [Hnil | Hfl].
  { apply main_preserves, mainTry_preserves. intros o fl Ho. congruence. }
  set (up := unifiedPathOf env unified) in *.
  (* the first run *)
  assert (Hfirst : exists fs1,
             effect (main env args) w = (Ret tt, fs1)
             /\ converged env options unified up filesToProcess fs1).
  { destruct (mainTry_run env args options filesToProcess unified w
                Hparse Hout Hh Hv Hfl Hdry) as (w0 & Hw0 & Hrun).
    destruct (ensureUnified_effect env options unified up w0 Hdry Hnf)
      as (fs0 & Heff0 & HU0 & Hother0 & _); [now rewrite Hw0|].
    destruct (effect_bind_ret _ (fun _ => forEach filesToProcess
                                   (processFile env options unified up)) _ _ _ Heff0)
      as (wb & Hwb & Hbind).
    destruct (forEach_converges env options unified up filesToProcess Hdry Hnf Hug
                Hnames Hbk filesToProcess [] wb) as (fs1 & Heff1 & Hconv1).
    - auto.
    - intros f Hf. now apply elem_of_nil in Hf.
    - rewrite Hwb. split; [exact HU0|]. split.
      + intros t. rewrite Hother0, Hw0 by (symmetry; exact Hug). apply Hgp.
      + intros f Hf. now apply elem_of_nil in Hf.
    - exists fs1. split.
      + apply main_effect. rewrite Hrun. fold up. rewrite Hbind. exact Heff1.
      + now rewrite app_nil_r in Hconv1. }
  destruct Hfirst as (fs1 & Heff1 & Hconv1).
  assert (Hw1 : files w1 = fs1).
  { subst w1. unfold effect in Heff1. now injection Heff1. }
  (* the second run *)
  destruct (mainTry_run env args options filesToProcess unified w1
              Hparse Hout Hh Hv Hfl Hdry) as (w0 & Hw0 & Hrun).
  pose proof Hconv1 as ((U & HU) & Hgp1 & _).
  destruct (ensureUnified_effect env options unified up w0 Hdry Hnf)
    as (fs0 & Heff0 & _ & _ & Hsame).
  { rewrite Hw0, Hw1. intros t. congruence. }
  rewrite Hsame in Heff0 by (rewrite Hw0, Hw1; eauto).
  destruct (effect_bind_ret _ (fun _ => forEach filesToProcess
                                 (processFile env options unified up)) _ _ _ Heff0)
    as (wb & Hwb & Hbind).
  assert (Hsecond : effect (main env args) w1 = (Ret tt, files w1)).
  { apply main_effect. rewrite Hrun. fold up. rewrite Hbind.
    rewrite (forEach_stable env options unified up filesToProcess Hdry Hnf
               filesToProcess wb); [now rewrite Hwb, Hw0 | auto |].
    now rewrite Hwb, Hw0, Hw1. }
  unfold effect in Hsecond. now injection Hsecond.
Qed.

Lemma second_run_changes_nothing_witness :
  let args := [js "CLAUDE.md"; js "GEMINI.md"] in
  let w1 := snd (main Paths.linux args Scenario.rulesWorld) in
  files (snd (main Paths.linux args w1)) = files w1.
Proof.
  apply (second_run_changes_nothing Paths.linux [js "CLAUDE.md"; js "GEMINI.md"]
           defaultOptions [js "CLAUDE.md"; js "GEMINI.md"] (js "AGENTS.md")
           Scenario.rulesWorld eq_refl eq_refl (fun _ => eq_refl)).
  - vm_compute. discriminate.
  - intros t H. vm_compute in H. discriminate.
  - intros t H. vm_compute in H. discriminate.
  - intros f Hf _.
    apply elem_of_cons in Hf as [-> | Hf];
      [|apply list_elem_of_singleton in Hf; subst f];
      (split; [split; [vm_compute; reflexivity|split]|repeat split]);
      try (vm_compute; discriminate);
      apply (bool_decide_unpack _); vm_compute; exact I.
  - intros f g Hf Hg _ _.
    apply elem_of_cons in Hf as [-> | Hf];
      [|apply list_elem_of_singleton in Hf; subst f];
      (apply elem_of_cons in Hg as [-> | Hg];
       [|apply list_elem_of_singleton in Hg; subst g]);
      vm_compute; discriminate.
Defined.

(** C1 as the specification states it does not hold where the host makes
    the program copy instead of link: on Windows without the right to create
    links, the first run leaves a copy of the unified file at the input
    path, and the second run merges that copy into the unified file as a
    block. *)
Lemma second_run_differs_after_copy_fallback :
  let args := [js "CLAUDE.md"] in
  let w1 := snd (main Scenario.deniedWin32 args Scenario.winWorld) in
  fst (main Scenario.deniedWin32 args Scenario.winWorld) = Ret tt
  /\ files (snd (main Scenario.deniedWin32 args w1)) ≠ files w1.
Proof.
  intros args w1. split; [vm_compute; reflexivity|].
  intros H. apply (f_equal (fun m : FS => m !! js "C:\w\AGENTS.md")) in H.
  vm_compute in H. discriminate.
Qed.

(** The duplicate check compares the trimmed line with the name as given:
    a name with a blank at its end is entered into the ignore list again by
    every run. *)
Lemma padded_name_is_listed_twice :
  let args := [js "CLAUDE.md "] in
  let w1 := snd (main Paths.linux args Scenario.rulesWorld) in
  files w1 !! js "/w/.gitignore"
  = Some (File (join [gitignoreBlockStart; js "CLAUDE.md "; gitignoreBlockEnd; []] [NL]))
  /\ files (snd (main Paths.linux args w1)) !! js "/w/.gitignore"
     = Some (File (join [gitignoreBlockStart; js "CLAUDE.md "; js "CLAUDE.md ";
                         gitignoreBlockEnd; []] [NL])).
Proof. split; vm_compute; reflexivity. Qed.

(** ** Argument parsing: what becomes an input file, what is refused *)

(** The files of a parse are arguments without a leading dash, in the order
    of the command line; an argument refused as unknown option is an
    argument with a leading dash. *)
Lemma parseArgs_shape n :
  forall args o f,
    (length args <= n)%nat ->
    match parseArgs args o f with
    | Parsed _ f' =>
        exists added,
          f' = f ++ added /\ sublist added args
          /\ Forall (fun a => startsWith a (js "-") = false) added
    | UnknownOption a => a ∈ args /\ startsWith a (js "-") = true
    end.
Proof.
  induction n as [|n IH]; intros args o f Hlen.
  - destruct args; [|simpl in Hlen; lia].
    exists []. rewrite app_nil_r. repeat split; constructor.
  - destruct args as [|a rest].
    { exists []. rewrite app_nil_r. repeat split; constructor. }
    simpl in Hlen.
    assert (Hskip : forall o1,
               match parseArgs rest o1 f with
               | Parsed _ f' =>
                   exists added,
                     f' = f ++ added /\ sublist added (a :: rest)
                     /\ Forall (fun a => startsWith a (js "-") = false) added
               | UnknownOption b => b ∈ a :: rest /\ startsWith b (js "-") = true
               end).
    { intros o1. specialize (IH rest o1 f ltac:(lia)).
      destruct (parseArgs rest o1 f) as [o' f'|b].
      - destruct IH as (added & E & Hs & Hd). exists added.
        split; [exact E|]. split; [now apply sublist_cons | exact Hd].
      - destruct IH as [Hin Hd]. split; [now right | exact Hd]. }
    cbn [parseArgs].
    destruct (strEq a (js "-h") || strEq a (js "--help")); [apply Hskip|].
    destruct (strEq a (js "--version")); [apply Hskip|].
    destruct (strEq a (js "-o") || strEq a (js "--output")).
    { destruct rest as [|v rest'].
      - exists []. rewrite app_nil_r. repeat split; [apply sublist_nil_l | constructor].
      - simpl in Hlen. specialize (IH rest' (setOutput (Some v) o) f ltac:(lia)).
        destruct (parseArgs rest' (setOutput (Some v) o) f) as [o' f'|b].
        + destruct IH as (added & E & Hs & Hd). exists added.
          split; [exact E|]. split; [now do 2 apply sublist_cons | exact Hd].
        + destruct IH as [Hin Hd]. split; [now do 2 right | exact Hd]. }
    destruct (strEq a (js "--absolute")); [apply Hskip|].
    destruct (strEq a (js "--dry-run")); [apply Hskip|].
    destruct (strEq a (js "-v") || strEq a (js "--verbose")); [apply Hskip|].
    destruct (startsWith a (js "-")) eqn:Hd.
    + split; [now left | exact Hd].
    + specialize (IH rest o (f ++ [a]) ltac:(lia)).
      destruct (parseArgs rest o (f ++ [a])) as [o' f'|b].
      * destruct IH as (added & E & Hs & Hall). exists (a :: added).
        split; [now rewrite E, <- app_assoc|].
        split; [now apply sublist_skip | now constructor].
      * destruct IH as [Hin Hb]. split; [now right | exact Hb].
Qed.

Lemma parseArgs_file a rest o f :
  startsWith a (js "-") = false ->
  parseArgs (a :: rest) o f = parseArgs rest o (f ++ [a]).
Proof.
  intros Hd. cbn [parseArgs].
  assert (Hno : forall flag, startsWith flag (js "-") = true -> strEq a flag = false).
  { intros flag Hflag. apply strEq_false. intros ->. congruence. }
  rewrite !Hno by reflexivity. cbn [orb]. now rewrite Hd.
Qed.

(** Without output flags, the files of a parse are the arguments without a
    leading dash. *)
Lemma parseArgs_without_output args :
  forall o f o' f',
    Forall (fun a => ~ isOutputFlag a) args ->
    parseArgs args o f = Parsed o' f' ->
    f' = f ++ List.filter (fun a => negb (startsWith a (js "-"))) args.
Proof.
  induction args as [|a rest IH]; intros o f o' f' Hno Hparse.
  - cbn in Hparse. injection Hparse as _ <-. cbn. now rewrite app_nil_r.
  - apply Forall_cons in Hno as [Ha Hrest]. cbn [List.filter].
    destruct (startsWith a (js "-")) eqn:Hd; cbn [negb].
    + cbn [parseArgs] in Hparse. rewrite Hd in Hparse.
      destruct (strEq a (js "-h") || strEq a (js "--help")); [now apply IH in Hparse|].
      destruct (strEq a (js "--version")); [now apply IH in Hparse|].
      destruct (strEq a (js "-o") || strEq a (js "--output")) eqn:E.
      { exfalso. apply Ha. apply orb_true_iff in E.
        destruct E as [E | E]; apply strEq_true in E; [left | right]; exact E. }
      destruct (strEq a (js "--absolute")); [now apply IH in Hparse|].
      destruct (strEq a (js "--dry-run")); [now apply IH in Hparse|].
      destruct (strEq a (js "-v") || strEq a (js "--verbose")); [now apply IH in Hparse|].
      discriminate.
    + rewrite parseArgs_file in Hparse by exact Hd.
      apply IH in Hparse; [|exact Hrest]. rewrite Hparse, <- app_assoc. reflexivity.
Qed.

(** The files of a parse do not depend on the options it starts from, and
    extend the files it starts from. *)
Lemma parseArgs_files_independent n :
  forall args o f o2 f2,
    (length args <= n)%nat ->
    match parseArgs args o f, parseArgs args o2 f2 with
    | Parsed _ fl, Parsed _ fl2 => exists added, fl = f ++ added /\ fl2 = f2 ++ added
    | UnknownOption a, UnknownOption b => a = b
    | _, _ => False
    end.
Proof.
  induction n as [|n IH]; intros args o f o2 f2 Hlen.
  - destruct args; [|simpl in Hlen; lia]. exists []. now rewrite !app_nil_r.
  - destruct args as [|a rest]; [exists []; now rewrite !app_nil_r|]. simpl in Hlen.
    cbn [parseArgs].
    destruct (strEq a (js "-h") || strEq a (js "--help")); [apply IH; lia|].
    destruct (strEq a (js "--version")); [apply IH; lia|].
    destruct (strEq a (js "-o") || strEq a (js "--output")).
    { destruct rest as [|v rest'].
      - exists []. now rewrite !app_nil_r.
      - simpl in Hlen. apply IH. lia. }
    destruct (strEq a (js "--absolute")); [apply IH; lia|].
    destruct (strEq a (js "--dry-run")); [apply IH; lia|].
    destruct (strEq a (js "-v") || strEq a (js "--verbose")); [apply IH; lia|].
    destruct (startsWith a (js "-")); [reflexivity|].
    specialize (IH rest o (f ++ [a]) o2 (f2 ++ [a]) ltac:(lia)).
    destruct (parseArgs rest o (f ++ [a])) as [o' fl|b],
             (parseArgs rest o2 (f2 ++ [a])) as [o2' fl2|b2]; try exact IH.
    destruct IH as (added & -> & ->). exists (a :: added).
    now rewrite <- !app_assoc.
Qed.

(** X1: the input files of a run are command-line arguments that do not
    begin with a dash, in the order of the command line. Without [-o] and
    [--output] they are all of these. The argument behind the first [-o] or
    [--output] is no input file, whatever it is: the input files are then
    the dash-free arguments before the flag, followed by the input files of
    the arguments behind the value; a flag that is the last argument adds
    nothing. *)
Theorem input_files_are_plain_arguments args options filesToProcess :
  parseArgs args defaultOptions [] = Parsed options filesToProcess ->
  sublist filesToProcess args
  /\ Forall (fun a => startsWith a (js "-") = false) filesToProcess
  /\ (Forall (fun a => ~ isOutputFlag a) args ->
      filesToProcess = List.filter (fun a => negb (startsWith a (js "-"))) args)
  /\ (forall pre flag v rest,
         args = pre ++ flag :: v :: rest ->
         Forall (fun a => ~ isOutputFlag a) pre -> isOutputFlag flag ->
         exists o' fl',
           parseArgs rest defaultOptions [] = Parsed o' fl'
           /\ filesToProcess
              = List.filter (fun a => negb (startsWith a (js "-"))) pre ++ fl')
  /\ (forall pre flag,
         args = pre ++ [flag] ->
         Forall (fun a => ~ isOutputFlag a) pre -> isOutputFlag flag ->
         filesToProcess = List.filter (fun a => negb (startsWith a (js "-"))) pre).
Proof.
  intros H. split; [|split; [|split; [|split]]].
  - pose proof (parseArgs_shape (length args) args defaultOptions []
                  (Nat.le_refl _)) as Hs.
    rewrite H in Hs. destruct Hs as (added & E & Hsub & Hd).
    simpl in E. now subst added.
  - pose proof (parseArgs_shape (length args) args defaultOptions []
                  (Nat.le_refl _)) as Hs.
    rewrite H in Hs. destruct Hs as (added & E & Hsub & Hd).
    simpl in E. now subst added.
  - intros Hno. exact (parseArgs_without_output args _ _ _ _ Hno H).
  - intros pre flag v rest -> Hpre Hflag.
    rewrite parseArgs_app in H by exact Hpre.
    destruct (parseArgs pre defaultOptions []) as [o1 f1|b] eqn:Hp; [|discriminate].
    apply parseArgs_without_output in Hp; [|exact Hpre]. cbn [app] in Hp.
    rewrite parseArgs_output in H by exact Hflag.
    pose proof (parseArgs_files_independent (length rest) rest (setOutput (Some v) o1) f1
                  defaultOptions [] (Nat.le_refl _)) as Hi.
    rewrite H in Hi.
    destruct (parseArgs rest defaultOptions []) as [o' fl'|b]; [|contradiction].
    destruct Hi as (added & -> & ->). exists o', added. now subst f1.
  - intros pre flag -> Hpre Hflag.
    rewrite parseArgs_app in H by exact Hpre.
    destruct (parseArgs pre defaultOptions []) as [o1 f1|b] eqn:Hp; [|discriminate].
    apply parseArgs_without_output in Hp; [|exact Hpre]. cbn [app] in Hp.
    destruct Hflag as [-> | ->]; cbn in H; injection H as _ <-; exact Hp.
Qed.

Lemma input_files_are_plain_arguments_witness :
  exists o' fl',
    parseArgs [js "a.md"; js "-v"; js "b.md"] defaultOptions [] = Parsed o' fl'
    /\ [js "a.md"; js "b.md"]
       = List.filter (fun a => negb (startsWith a (js "-"))) [] ++ fl'.
Proof.
  refine (proj1 (proj2 (proj2 (proj2
            (input_files_are_plain_arguments
               [js "-o"; js "out.md"; js "a.md"; js "-v"; js "b.md"]
               (mkOptions (Some (js "out.md")) false false true false false)
               [js "a.md"; js "b.md"] eq_refl))))
            [] (js "-o") (js "out.md") [js "a.md"; js "-v"; js "b.md"] eq_refl _ _).
  - constructor.
  - now left.
Defined.

(** X2: an argument with a leading dash that is no option of the program
    ends the run at once, before help or version are looked at: the message
    naming it goes to standard error, the exit code is 1 and no file is
    touched. *)
Theorem unknown_option_is_refused env args a w :
  parseArgs args defaultOptions [] = UnknownOption a ->
  a ∈ args
  /\ startsWith a (js "-") = true
  /\ main env args w = (Exit 1, emit [StdErr (js "Unknown option: " ++ a)] w).
Proof.
  intros H. pose proof (parseArgs_shape (length args) args defaultOptions []
                          (Nat.le_refl _)) as Hs.
  rewrite H in Hs. destruct Hs as [Hin Hd].
  split; [exact Hin|]. split; [exact Hd|].
  apply main_of_exit. unfold mainTry. rewrite H. reflexivity.
Qed.

Lemma unknown_option_is_refused_witness :
  main Paths.linux [js "--help"; js "--force"; js "CLAUDE.md"] Scenario.rulesWorld
  = (Exit 1, emit [StdErr (js "Unknown option: --force")] Scenario.rulesWorld).
Proof.
  apply (unknown_option_is_refused Paths.linux
           [js "--help"; js "--force"; js "CLAUDE.md"] (js "--force")
           Scenario.rulesWorld).
  reflexivity.
Defined.

Lemma forEach_consoleLog lines w :
  forEach lines consoleLog w = (Ret tt, emit (map StdOut lines) w).
Proof.
  revert w. induction lines as [|l lines IH]; intros w.
  - cbn [forEach map]. unfold ret. now rewrite emit_nil.
  - cbn [forEach map]. rewrite consoleLog_bind, IH, emit_emit. reflexivity.
Qed.

(** X3: the early exits and their order. Help wins over version, version
    over the check for input files, and each of the three prints on standard
    output only, exits with code 0 and touches no file, whatever other
    options and files are given. *)
Theorem early_exits env args options filesToProcess w :
  parseArgs args defaultOptions [] = Parsed options filesToProcess ->
  (showHelp options = true ->
   main env args w = (Exit 0, emit (map StdOut helpLines) w))
  /\ (showHelp options = false -> showVersion options = true ->
      main env args w = (Exit 0, emit [StdOut (pkgVersion env)] w))
  /\ (showHelp options = false -> showVersion options = false ->
      filesToProcess = [] ->
      main env args w
      = (Exit 0,
         emit [StdOut (js "No input files specified.");
               StdOut (js "Usage: come [options] <file1.md> [file2.md] [...]")] w)).
Proof.
  intros Hparse. split; [|split].
  - intros Hh. apply main_of_exit. unfold mainTry. rewrite Hparse, Hh.
    rewrite bind_run, forEach_consoleLog. reflexivity.
  - intros Hh Hv. apply main_of_exit. unfold mainTry. rewrite Hparse, Hh, Hv.
    reflexivity.
  - intros Hh Hv ->. apply main_of_exit. unfold mainTry. rewrite Hparse, Hh, Hv.
    change (Z.of_nat (length (@nil jsstring)) =? 0) with true. cbv iota.
    rewrite !consoleLog_bind, emit_emit. reflexivity.
Qed.

Lemma early_exits_witness :
  main Paths.linux [js "--version"; js "CLAUDE.md"; js "-h"] Scenario.rulesWorld
  = (Exit 0, emit (map StdOut helpLines) Scenario.rulesWorld).
Proof.
  apply (proj1 (early_exits Paths.linux [js "--version"; js "CLAUDE.md"; js "-h"]
                  (setShowHelp (setShowVersion defaultOptions)) [js "CLAUDE.md"]
                  Scenario.rulesWorld eq_refl)).
  reflexivity.
Defined.

(** ** Standard error and the exit code *)

Lemma stderrOf_app c1 c2 : stderrOf (c1 ++ c2) = stderrOf c1 ++ stderrOf c2.
Proof. apply List.filter_app. Qed.

Lemma stderrOf_logged options msg level : stderrOf (logged options msg level) = [].
Proof. destruct level; simpl; [reflexivity|]. now destruct (verbose options). Qed.

Lemma silent_ret {A} (a : A) : silent (ret a).
Proof. intros w. split; [reflexivity | discriminate]. Qed.

Lemma silent_throw {A} e : silent (@throw A e).
Proof. intros w. split; [reflexivity | discriminate]. Qed.

Lemma silent_log options msg level : silent (log options msg level).
Proof.
  intros w. rewrite log_run. cbn [fst snd emit console]. split; [|discriminate].
  now rewrite stderrOf_app, stderrOf_logged, app_nil_r.
Qed.

Lemma silent_logVerbose options msg : silent (logVerbose options msg).
Proof. apply silent_log. Qed.

Lemma silent_fsRead {A} (f : FS -> Error + A) : silent (fsRead f).
Proof.
  intros w. rewrite fsRead_run.
  destruct (f (files w)); (split; [reflexivity | discriminate]).
Qed.

Lemma silent_fsWrite (f : FS -> Error + FS) : silent (fsWrite f).
Proof.
  intros w. rewrite fsWrite_run.
  destruct (f (files w)); (split; [reflexivity | discriminate]).
Qed.

Lemma silent_consoleLog msg : silent (consoleLog msg).
Proof.
  intros w. split; [|discriminate]. cbn [consoleLog fst snd console].
  rewrite stderrOf_app. cbn. now rewrite app_nil_r.
Qed.

Lemma silent_bind {A B} (m : M A) (k : A -> M B) :
  silent m -> (forall a, silent (k a)) -> silent (bind m k).
Proof.
  intros Hm Hk w. rewrite bind_run. destruct (Hm w) as [Hs He].
  destruct (m w) as [[a|e|c] w']; cbn [fst snd] in *.
  - destruct (Hk a w') as [Hs' He']. split; [congruence | exact He'].
  - split; [exact Hs | discriminate].
  - now destruct (He c).
Qed.

Lemma silent_attempt {A} (m : M A) : silent m -> silent (attempt m).
Proof.
  intros Hm w. rewrite attempt_run. destruct (Hm w) as [Hs He].
  destruct (m w) as [[a|e|c] w']; cbn [fst snd] in *;
    try (split; [exact Hs | discriminate]).
  now destruct (He c).
Qed.

Lemma silent_forEach {A} (l : list A) body :
  (forall x, silent (body x)) -> silent (forEach l body).
Proof.
  intros Hb. induction l as [|x l IH]; [apply silent_ret|].
  apply silent_bind; [apply Hb | intros _; exact IH].
Qed.

(** Printing on standard output and leaving with code 0. *)
Lemma print_then_exit_zero (m : M unit) w :
  silent m ->
  match fst ((m >> @processExit unit 0) w) with
  | Ret _ => False
  | Throw _ => True
  | Exit c =>
      c = 0
      /\ stderrOf (console (snd ((m >> @processExit unit 0) w))) = stderrOf (console w)
  end.
Proof.
  intros Hm. rewrite bind_run. destruct (Hm w) as [Hs He].
  destruct (m w) as [[a|e|c] w']; cbn [fst snd] in *.
  - split; [reflexivity | exact Hs].
  - exact I.
  - now destruct (He c).
Qed.

Ltac silent_step :=
  match goal with
  | |- silent (bind _ _) => apply silent_bind; [|intros ?]
  | |- silent (attempt _) => apply silent_attempt
  | |- silent (ret _) => apply silent_ret
  | |- silent (throw _) => apply silent_throw
  | |- silent (consoleLog _) => apply silent_consoleLog
  | |- silent (log _ _ _) => apply silent_log
  | |- silent (logVerbose _ _) => apply silent_logVerbose
  | |- silent (fsRead _) => apply silent_fsRead
  | |- silent (fsWrite _) => apply silent_fsWrite
  | |- silent (if ?b then _ else _) => destruct b
  | |- silent (match ?x with _ => _ end) => destruct x
  end.

Lemma silent_createSymlink env options target linkPath src :
  silent (createSymlinkWithFallback env options target linkPath src).
Proof. unfold createSymlinkWithFallback. repeat silent_step. Qed.

Lemma silent_addToGitignore env options cwd' filename :
  silent (addToGitignore env options cwd' filename).
Proof. unfold addToGitignore. repeat silent_step. Qed.

Lemma silent_mergeContents env options unified unifiedPath file filePath :
  silent (mergeContents env options unified unifiedPath file filePath).
Proof. unfold mergeContents. repeat silent_step. Qed.

Lemma silent_ensureUnified env options unified unifiedPath :
  silent (ensureUnified env options unified unifiedPath).
Proof. unfold ensureUnified. repeat silent_step. Qed.

Lemma quiet_of_silent {A} (m : M A) : silent m -> returnsQuietly m.
Proof. intros Hm w. destruct (Hm w) as [Hs He]. split; [exact He | intros; exact Hs]. Qed.

Lemma quiet_bind {A B} (m : M A) (k : A -> M B) :
  returnsQuietly m -> (forall a, returnsQuietly (k a)) -> returnsQuietly (bind m k).
Proof.
  intros Hm Hk w. rewrite bind_run. destruct (Hm w) as [He Hs].
  destruct (m w) as [[a|e|c] w']; cbn [fst snd] in *.
  - destruct (Hk a w') as [He' Hs']. split; [exact He'|].
    intros b Hb. rewrite (Hs' b Hb). now apply (Hs a).
  - split; [discriminate | intros; discriminate].
  - now destruct (He c).
Qed.

Lemma quiet_error_then_throw {A} msg e : returnsQuietly (consoleError msg >> @throw A e).
Proof. intros w. split; [discriminate | intros; discriminate]. Qed.

Lemma quiet_forEach {A} (l : list A) body :
  (forall x, returnsQuietly (body x)) -> returnsQuietly (forEach l body).
Proof.
  intros Hb. induction l as [|x l IH]; [apply quiet_of_silent, silent_ret|].
  apply quiet_bind; [apply Hb | intros _; exact IH].
Qed.

Ltac quiet_step :=
  match goal with
  | |- returnsQuietly (consoleError _ >> throw _) => apply quiet_error_then_throw
  | |- returnsQuietly (createSymlinkWithFallback _ _ _ _ _) =>
      apply quiet_of_silent, silent_createSymlink
  | |- returnsQuietly (addToGitignore _ _ _ _) =>
      apply quiet_of_silent, silent_addToGitignore
  | |- returnsQuietly (mergeContents _ _ _ _ _ _) =>
      apply quiet_of_silent, silent_mergeContents
  | |- returnsQuietly (bind (attempt _) _) =>
      apply quiet_bind; [apply quiet_of_silent, silent_attempt|intros ?]
  | |- returnsQuietly (bind _ _) => apply quiet_bind; [|intros ?]
  | |- returnsQuietly (if ?b then _ else _) => destruct b
  | |- returnsQuietly (match ?x with _ => _ end) => destruct x
  | |- returnsQuietly _ => apply quiet_of_silent
  | |- silent (createSymlinkWithFallback _ _ _ _ _) => apply silent_createSymlink
  | |- silent _ => silent_step
  end.

Lemma quiet_replaceWithSymlink env options unified unifiedPath file filePath :
  returnsQuietly (replaceWithSymlink env options unified unifiedPath file filePath).
Proof. unfold replaceWithSymlink. cbv zeta. repeat quiet_step. Qed.

Lemma quiet_processFile env options unified unifiedPath file :
  returnsQuietly (processFile env options unified unifiedPath file).
Proof.
  unfold processFile. cbv zeta.
  repeat first [apply quiet_replaceWithSymlink | quiet_step].
Qed.

(** The [try] block: it exits with code 0 without a line on standard error,
    or with code 1 behind one, and prints none when it returns. *)
Lemma mainTry_outcomes env args w :
  match fst (mainTry env args w) with
  | Ret _ => stderrOf (console (snd (mainTry env args w))) = stderrOf (console w)
  | Throw _ => True
  | Exit c =>
      (c = 0 /\ stderrOf (console (snd (mainTry env args w))) = stderrOf (console w))
      \/ (c = 1 /\ exists before line,
                     console (snd (mainTry env args w)) = before ++ [StdErr line])
  end.
Proof.
  unfold mainTry.
  destruct (parseArgs args defaultOptions []) as [o fl|a].
  2:{ right. split; [reflexivity|]. eexists _, _. reflexivity. }
  assert (Hexit : forall m : M unit, silent m ->
            match fst ((m >> @processExit unit 0) w) with
            | Ret _ => stderrOf (console (snd ((m >> @processExit unit 0) w)))
                       = stderrOf (console w)
            | Throw _ => True
            | Exit c =>
                (c = 0 /\ stderrOf (console (snd ((m >> @processExit unit 0) w)))
                          = stderrOf (console w))
                \/ (c = 1 /\ exists before line,
                               console (snd ((m >> @processExit unit 0) w))
                               = before ++ [StdErr line])
            end).
  { intros m Hm. pose proof (print_then_exit_zero m w Hm) as H.
    destruct (fst ((m >> @processExit unit 0) w)); [contradiction | exact I | now left]. }
  destruct (showHelp o).
  { apply Hexit, silent_forEach. intros l. apply silent_consoleLog. }
  destruct (showVersion o).
  { apply Hexit, silent_consoleLog. }
  destruct (Z.of_nat (length fl) =? 0).
  { apply (Hexit (consoleLog (js "No input files specified.") >>
                  consoleLog (js "Usage: come [options] <file1.md> [file2.md] [...]"))).
    repeat silent_step. }
  destruct (output o) as [unified|]; [|exact I].
  match goal with
  | |- match fst (?m w) with _ => _ end =>
      assert (Hq : returnsQuietly m)
  end.
  { repeat first [ apply quiet_forEach; intros ?; apply quiet_processFile
                 | apply quiet_of_silent, silent_ensureUnified
                 | quiet_step ]. }
  destruct (Hq w) as [He Hs].
  match goal with
  | |- match fst ?r with _ => _ end => destruct (fst r) as [[]|e|c] eqn:E
  end.
  - now apply (Hs tt).
  - exact I.
  - now destruct (He c).
Qed.

(** X4: a run never ends by an uncaught error; it returns (exit code 0) or
    exits with code 0 or 1. It prints on standard error exactly when the
    exit code is 1, and then a line on standard error is the last thing it
    prints. *)
Theorem stderr_iff_exit_one env args w :
  let r := main env args w in
  (fst r = Ret tt \/ fst r = Exit 0 \/ fst r = Exit 1)
  /\ (exitCodeOf (fst r) = 0 -> stderrOf (console (snd r)) = stderrOf (console w))
  /\ (exitCodeOf (fst r) = 1 ->
      exists before line, console (snd r) = before ++ [StdErr line]).
Proof.
  intros r. subst r. unfold main. rewrite bind_run, attempt_run.
  pose proof (mainTry_outcomes env args w) as H.
  destruct (mainTry env args w) as [[[]|e|c] w']; cbn [fst snd] in *.
  - split; [now left|]. split; [intros _; exact H | discriminate].
  - split; [now right; right|]. split; [discriminate|].
    intros _. eexists _, _. reflexivity.
  - destruct H as [[-> H] | [-> H]].
    + split; [now right; left|]. split; [intros _; exact H | discriminate].
    + split; [now right; right|]. split; [discriminate | intros _; exact H].
Qed.

(** ** The bootstrap of the unified file *)

(** X5: the bootstrap step keeps a unified file that exists as it is and
    creates an empty one where none is, at the end of a chain of links if
    the path is one. It takes every failure of the existence check for
    absence: when the check fails, the file is written empty. *)
Theorem bootstrap_creates_or_keeps env options unified unifiedPath w q :
  dryRun options = false ->
  realpath env (files w) unifiedPath = Some q ->
  let r := ensureUnified env options unified unifiedPath w in
  (fault env (CallAccess unifiedPath) = None -> is_Some (files w !! q) ->
   fst r = Ret tt /\ files (snd r) = files w)
  /\ (fault env (CallAccess unifiedPath) ≠ None \/ files w !! q = None ->
      fault env (CallWriteFile unifiedPath []) = None ->
      fst r = Ret tt /\ files (snd r) = <[q := File []]> (files w)).
Proof.
  intros Hdry Hq r. subst r. unfold ensureUnified. rewrite Hdry. cbn [negb].
  rewrite bind_run, attempt_run, fsRead_run. unfold fsAccess, guarded. split.
  - intros Hf [n Hn]. rewrite Hf, Hq, Hn. rewrite logVerbose_run. split; reflexivity.
  - intros Hcase Hfw.
    assert (Hfail : exists e,
               match fault env (CallAccess unifiedPath) with
               | Some e0 => inl e0
               | None =>
                   match realpath env (files w) unifiedPath with
                   | Some q0 =>
                       match files w !! q0 with
                       | Some _ => inr tt
                       | None => inl (ENOENT (js "access") unifiedPath None)
                       end
                   | None => inl (ELOOP (js "access") unifiedPath)
                   end
               end = inl e).
    { destruct (fault env (CallAccess unifiedPath)) as [e0|]; [eauto|].
      destruct Hcase as [Hc | Hc]; [now destruct Hc|]. rewrite Hq, Hc. eauto. }
    destruct Hfail as [e ->].
    rewrite bind_run, fsWrite_run, (fsWriteFile_to env _ _ _ q Hfw Hq).
    rewrite logVerbose_run. split; reflexivity.
Qed.

Lemma bootstrap_creates_or_keeps_witness :
  let r := ensureUnified Paths.linux defaultOptions (js "AGENTS.md") (js "/w/AGENTS.md")
             Scenario.rulesWorld in
  fst r = Ret tt
  /\ files (snd r) = <[js "/w/AGENTS.md" := File []]> (files Scenario.rulesWorld).
Proof.
  apply (proj2 (bootstrap_creates_or_keeps Paths.linux defaultOptions (js "AGENTS.md")
                  (js "/w/AGENTS.md") Scenario.rulesWorld (js "/w/AGENTS.md")
                  eq_refl eq_refl)).
  - right. reflexivity.
  - reflexivity.
Defined.

(** ** The ignore list only gains text *)

Lemma join_app l1 l2 sep :
  l1 ≠ [] -> l2 ≠ [] -> join (l1 ++ l2) sep = join l1 sep ++ sep ++ join l2 sep.
Proof.
  intros H1 H2. induction l1 as [|x l1 IH]; [contradiction|].
  destruct l1 as [|y l1].
  - cbn [app]. now rewrite join_cons.
  - change ((x :: y :: l1) ++ l2) with (x :: ((y :: l1) ++ l2)).
    rewrite join_cons by discriminate. rewrite IH by discriminate.
    rewrite (join_cons x (y :: l1)) by discriminate.
    now rewrite <- !app_assoc.
Qed.

Lemma written_cases (r : Error + FS) fs :
  (exists e, r = inl e /\ written r fs = (Throw e, fs))
  \/ (exists fs', r = inr fs' /\ written r fs = (Ret tt, fs')).
Proof. destruct r as [e|fs']; [left | right]; eauto. Qed.

Lemma fsWriteFile_cases env p data fs q :
  realpath env fs p = Some q ->
  (exists e, fsWriteFile env p data fs = inl e)
  \/ fsWriteFile env p data fs = inr (<[q := File data]> fs).
Proof.
  intros Hq. unfold fsWriteFile, guarded. rewrite Hq.
  destruct (fault env _); [left; eauto | now right].
Qed.

Lemma fsAppendFile_cases env p data fs q c :
  realpath env fs p = Some q -> fs !! q = Some (File c) ->
  (exists e, fsAppendFile env p data fs = inl e)
  \/ fsAppendFile env p data fs = inr (<[q := File (c ++ data)]> fs).
Proof.
  intros Hq Hc. unfold fsAppendFile, guarded. rewrite Hq, Hc.
  destruct (fault env _); [left; eauto | now right].
Qed.

(** X6: whatever fails, [addToGitignore] on an ignore file that it can read
    changes no other file and takes nothing out of the ignore file: the new
    text is the old text with text inserted at one place (nothing, the new
    name on a line before the end marker, or a new block at the end). *)
Theorem ignore_list_only_gains_text env options cwd' filename w q content :
  fault env (CallReadFile (pathJoin env cwd' (js ".gitignore"))) = None ->
  realpath env (files w) (pathJoin env cwd' (js ".gitignore")) = Some q ->
  files w !! q = Some (File content) ->
  let fs' := files (snd (addToGitignore env options cwd' filename w)) in
  (forall p, p ≠ q -> fs' !! p = files w !! p)
  /\ exists a b inserted,
      content = a ++ b /\ fs' !! q = Some (File (a ++ inserted ++ b)).
Proof.
  intros Hfr Hq Hc fs'.
  assert (Hsame : forall fsx, fsx = files w ->
            (forall p, p ≠ q -> fsx !! p = files w !! p)
            /\ exists a b inserted,
                content = a ++ b /\ fsx !! q = Some (File (a ++ inserted ++ b))).
  { intros fsx ->. split; [reflexivity|]. exists content, [], [].
    rewrite !app_nil_r. split; [reflexivity | exact Hc]. }
  destruct (dryRun options) eqn:Hdry.
  { apply Hsame. subst fs'. unfold addToGitignore. rewrite Hdry.
    now rewrite logVerbose_run. }
  pose proof (fsReadFile_intro env _ _ q content Hfr Hq Hc) as Hread.
  change fs' with (snd (effect (addToGitignore env options cwd' filename) w)).
  clear fs'.
  destruct (gitignore_shapes (split content NL))
    as [Hnone | [(pre & s & post & Htr) | (pre & s & mid & e & post & Hshape)]].
  - rewrite (addToGitignore_no_start env options cwd' filename w content Hdry Hread Hnone).
    destruct (fsAppendFile_cases env (pathJoin env cwd' (js ".gitignore"))
                (gitignoreSeparator content ++ gitignoreBlock filename) _ q content Hq Hc)
      as [[err ->] | ->]; [now apply Hsame|].
    cbn [written snd]. split; [intros p Hp; now apply lookup_insert_ne|].
    exists content, [], (gitignoreSeparator content ++ gitignoreBlock filename).
    rewrite !app_nil_r. split; [reflexivity | apply lookup_insert_eq].
  - rewrite (addToGitignore_truncated env options cwd' filename w content pre s post
               Hdry Hread Htr).
    destruct (fsAppendFile_cases env (pathJoin env cwd' (js ".gitignore"))
                (gitignoreSeparator content ++ gitignoreBlock filename) _ q content Hq Hc)
      as [[err ->] | ->]; [now apply Hsame|].
    cbn [written snd]. split; [intros p Hp; now apply lookup_insert_ne|].
    exists content, [], (gitignoreSeparator content ++ gitignoreBlock filename).
    rewrite !app_nil_r. split; [reflexivity | apply lookup_insert_eq].
  - rewrite (addToGitignore_complete env options cwd' filename w content pre s mid e post
               Hdry Hread Hshape).
    destruct (some _ mid); [now apply Hsame|].
    destruct (fsWriteFile_cases env (pathJoin env cwd' (js ".gitignore"))
                (join (pre ++ s :: mid ++ filename :: e :: post) [NL]) (files w) q Hq)
      as [[err ->] | ->]; [now apply Hsame|].
    cbn [written snd]. split; [intros p Hp; now apply lookup_insert_ne|].
    destruct Hshape as (Hl & _).
    exists (join (pre ++ s :: mid) [NL] ++ [NL]), (join (e :: post) [NL]),
      (filename ++ [NL]).
    split.
    + rewrite <- (join_split content NL), Hl.
      replace (pre ++ s :: mid ++ e :: post) with ((pre ++ s :: mid) ++ e :: post)
        by (rewrite <- app_assoc; reflexivity).
      rewrite join_app by (try discriminate; now destruct pre).
      now rewrite <- app_assoc.
    + rewrite lookup_insert_eq. do 2 f_equal.
      replace (pre ++ s :: mid ++ filename :: e :: post)
        with ((pre ++ s :: mid) ++ filename :: e :: post)
        by (rewrite <- app_assoc; reflexivity).
      rewrite join_app by (try discriminate; now destruct pre).
      rewrite (join_cons filename (e :: post)) by discriminate.
      now rewrite <- !app_assoc.
Qed.

Lemma ignore_list_only_gains_text_witness :
  let fs' := files (snd (addToGitignore Paths.linux defaultOptions (js "/w") (js "CLAUDE.md")
                           IgnoreScenario.completeWorld)) in
  (forall p, p ≠ js "/w/.gitignore" -> fs' !! p = files IgnoreScenario.completeWorld !! p)
  /\ exists a b inserted,
      IgnoreScenario.complete = a ++ b
      /\ fs' !! js "/w/.gitignore" = Some (File (a ++ inserted ++ b)).
Proof.
  apply (ignore_list_only_gains_text Paths.linux defaultOptions (js "/w") (js "CLAUDE.md")
           IgnoreScenario.completeWorld (js "/w/.gitignore") IgnoreScenario.complete);
    reflexivity.
Defined.

(** X7: on a host that fails no call, [addToGitignore] with a name without
    blanks at its ends, without newline and other than the end marker
    returns with the name listed in the block, and a second call with the
    same name changes nothing. *)
Theorem ignore_list_entry_is_added_once env options filename w :
  dryRun options = false ->
  (forall c, fault env c = None) ->
  (forall t, files w !! gitignorePathOf env ≠ Some (Link t)) ->
  plainName filename ->
  let w1 := snd (addToGitignore env options (cwd env) filename w) in
  fst (addToGitignore env options (cwd env) filename w) = Ret tt
  /\ listedIn (gitignorePathOf env) (files w1) filename
  /\ effect (addToGitignore env options (cwd env) filename) w1 = (Ret tt, files w1).
Proof.
  intros Hdry Hnf Hnl Hname w1.
  destruct (addToGitignore_lists env options filename w Hdry Hnf Hnl Hname)
    as (fs' & Heff & Hlisted & _ & _).
  unfold effect in Heff. injection Heff as Hret Hfiles.
  fold w1 in Hfiles. rewrite <- Hfiles in Hlisted.
  split; [exact Hret|]. split; [exact Hlisted|].
  now apply addToGitignore_listed.
Qed.

Lemma ignore_list_entry_is_added_once_witness :
  let w1 := snd (addToGitignore Paths.linux defaultOptions (js "/w") (js "CLAUDE.md")
                   IgnoreScenario.truncatedWorld) in
  fst (addToGitignore Paths.linux defaultOptions (js "/w") (js "CLAUDE.md")
         IgnoreScenario.truncatedWorld) = Ret tt
  /\ listedIn (js "/w/.gitignore") (files w1) (js "CLAUDE.md")
  /\ effect (addToGitignore Paths.linux defaultOptions (js "/w") (js "CLAUDE.md")) w1
     = (Ret tt, files w1).
Proof.
  apply (ignore_list_entry_is_added_once Paths.linux defaultOptions (js "CLAUDE.md")
           IgnoreScenario.truncatedWorld eq_refl (fun _ => eq_refl)).
  - intros t H. vm_compute in H. discriminate.
  - split; [vm_compute; reflexivity|]. split; [|vm_compute; discriminate].
    apply (bool_decide_unpack _). vm_compute. exact I.
Defined.

(** ** One input, one pass: the two creating transitions *)

(** X8: on a host that fails no call, a pass over an input where nothing is
    creates the link with the expected target, merges nothing (the unified
    file and every other file but the ignore file stay as they are) and
    lists the name in the ignore file. *)
Theorem absent_input_becomes_link env options unified unifiedPath file w :
  let filePath := inputPath env file in
  let fs' := files (snd (processFile env options unified unifiedPath file w)) in
  dryRun options = false ->
  (forall c, fault env c = None) ->
  file ≠ unified ->
  plainName file ->
  files w !! filePath = None ->
  (forall t, files w !! gitignorePathOf env ≠ Some (Link t)) ->
  filePath ≠ gitignorePathOf env ->
  fst (processFile env options unified unifiedPath file w) = Ret tt
  /\ fs' !! filePath = Some (Link (linkTarget env options filePath unifiedPath))
  /\ listedIn (gitignorePathOf env) fs' file
  /\ (forall p, p ≠ filePath -> p ≠ gitignorePathOf env -> fs' !! p = files w !! p).
Proof.
  intros filePath fs' Hdry Hnf Hne Hname Habs Hgp Hfg. subst fs'.
  unfold inputPath in *.
  rewrite (processFile_on_absent env options unified unifiedPath file w Hne (Hnf _) Habs).
  cbv zeta. fold filePath. rewrite Hdry. cbn [negb].
  rewrite bind_run.
  rewrite (createSymlink_ok env options _ filePath unifiedPath _
             (<[filePath := Link (linkTarget env options filePath unifiedPath)]> (files w)))
    by (apply fsSymlink_fresh; [apply Hnf | exact Habs]).
  rewrite log_bind, logVerbose_bind.
  match goal with
  | |- context [addToGitignore env options (cwd env) file ?wA] =>
      destruct (addToGitignore_lists env options file wA Hdry Hnf)
        as (fsB & Heff & Hlisted & Hother & _)
  end.
  { cbn [files emit]. fold (gitignorePathOf env).
    rewrite lookup_insert_ne by exact Hfg. exact Hgp. }
  { exact Hname. }
  unfold effect in Heff. apply pair_equal_spec in Heff as [Hret Hfiles].
  rewrite Hret, Hfiles. fold (gitignorePathOf env) in Hother.
  split; [reflexivity|]. split; [|split].
  - rewrite Hother by exact Hfg. cbn [files emit]. apply lookup_insert_eq.
  - exact Hlisted.
  - intros p Hp1 Hp2. rewrite Hother by exact Hp2. cbn [files emit].
    now apply lookup_insert_ne.
Qed.



Lemma plainName_GEMINI : plainName (js "GEMINI.md").
Proof.
  split; [vm_compute; reflexivity|]. split; [|vm_compute; discriminate].
  apply (bool_decide_unpack _). vm_compute. exact I.
Defined.

Lemma absent_input_becomes_link_witness :
  let r := processFile Paths.linux defaultOptions (js "AGENTS.md") (js "/w/AGENTS.md")
             (js "GEMINI.md") MergeScenario.mergeWorld in
  fst r = Ret tt
  /\ files (snd r) !! js "/w/GEMINI.md" = Some (Link (js "AGENTS.md"))
  /\ files (snd r) !! js "/w/AGENTS.md" = Some (File (js "x")).
Proof.
  destruct (absent_input_becomes_link Paths.linux defaultOptions (js "AGENTS.md")
              (js "/w/AGENTS.md") (js "GEMINI.md") MergeScenario.mergeWorld
              eq_refl (fun _ => eq_refl)) as (H1 & H2 & _ & H4).
  - vm_compute. discriminate.
  - exact plainName_GEMINI.
  - reflexivity.
  - intros t H. vm_compute in H. discriminate.
  - vm_compute. discriminate.
  - split; [exact H1|]. split; [exact H2|].
    rewrite H4; [reflexivity | vm_compute; discriminate | vm_compute; discriminate].
Defined.


(** ** A run writes to its own paths only *)

Lemma frame_preorder keep S : PreOrder (frame keep S).
Proof.
  split.
  - intros fs Hk. split; [exact Hk | reflexivity].
  - intros a b c Hab Hbc Hk. destruct (Hab Hk) as [Hk' Hf]. destruct (Hbc Hk') as [Hk'' Hf'].
    split; [exact Hk''|]. intros p Hp. now rewrite Hf', Hf.
Qed.

#[local] Existing Instance frame_preorder.

Section Frame.
Context (env : Env) (keep : list jsstring) (S : jsstring -> Prop).

Lemma frame_insert_file fs p c :
  p ∈ keep -> S p -> frame keep S fs (<[p := File c]> fs).
Proof.
  intros Hp HS Hk. split.
  - intros p' Hp' t. destruct (decide (p' = p)) as [-> | Hne].
    + now rewrite lookup_insert_eq.
    + rewrite lookup_insert_ne by congruence. now apply Hk.
  - intros p' Hp'. apply lookup_insert_ne. intros ->. contradiction.
Qed.

Lemma frame_writeFile p data fs fs' :
  p ∈ keep -> S p -> fsWriteFile env p data fs = inr fs' -> frame keep S fs fs'.
Proof.
  intros Hp HS H Hk. revert H. unfold fsWriteFile, guarded.
  destruct (fault env _); [discriminate|].
  rewrite realpath_self by now apply Hk.
  intros H. injection H as <-. now apply frame_insert_file.
Qed.

Lemma frame_appendFile p data fs fs' :
  p ∈ keep -> S p -> fsAppendFile env p data fs = inr fs' -> frame keep S fs fs'.
Proof.
  intros Hp HS H Hk. revert H. unfold fsAppendFile, guarded.
  destruct (fault env _); [discriminate|].
  rewrite realpath_self by now apply Hk.
  destruct (fs !! p) as [[c|t]|]; intros H; injection H as <-;
    now apply frame_insert_file.
Qed.

Lemma frame_at fs fs' (touched : list jsstring) :
  (forall p, p ∈ touched -> S p /\ p ∉ keep) ->
  (forall p, p ∉ touched -> fs' !! p = fs !! p) ->
  frame keep S fs fs'.
Proof.
  intros Ht Hsame Hk. split.
  - intros p Hp t. rewrite Hsame; [now apply Hk|].
    intros Hin. now destruct (Ht p Hin).
  - intros p Hp. apply Hsame. intros Hin. now destruct (Ht p Hin).
Qed.

Lemma frame_symlink target p fs fs' :
  S p -> p ∉ keep -> fsSymlink env target p fs = inr fs' -> frame keep S fs fs'.
Proof.
  intros HS Hp. unfold fsSymlink, guarded.
  destruct (fault env _); [discriminate|].
  destruct (fs !! p); [discriminate|]. intros H. injection H as <-.
  apply (frame_at _ _ [p]).
  - intros p' Hp'. apply list_elem_of_singleton in Hp'. now subst.
  - intros p' Hp'. apply lookup_insert_ne. intros ->. apply Hp'. now left.
Qed.

Lemma frame_unlink p fs fs' :
  S p -> p ∉ keep -> fsUnlink env p fs = inr fs' -> frame keep S fs fs'.
Proof.
  intros HS Hp. unfold fsUnlink, guarded.
  destruct (fault env _); [discriminate|].
  destruct (fs !! p); [|discriminate]. intros H. injection H as <-.
  apply (frame_at _ _ [p]).
  - intros p' Hp'. apply list_elem_of_singleton in Hp'. now subst.
  - intros p' Hp'. apply lookup_delete_ne. intros ->. apply Hp'. now left.
Qed.

Lemma frame_rename a b fs fs' :
  S a -> a ∉ keep -> S b -> b ∉ keep ->
  fsRename env a b fs = inr fs' -> frame keep S fs fs'.
Proof.
  intros HSa Ha HSb Hb. unfold fsRename, guarded.
  destruct (fault env _); [discriminate|].
  destruct (fs !! a); [|discriminate]. intros H. injection H as <-.
  apply (frame_at _ _ [a; b]).
  - intros p' Hp'. apply elem_of_cons in Hp' as [-> | Hp']; [now split|].
    apply list_elem_of_singleton in Hp'. now subst.
  - intros p' Hp'. rewrite lookup_insert_ne, lookup_delete_ne; [reflexivity | |];
      intros ->; apply Hp'; [now left | right; now left].
Qed.
End Frame.

Lemma no_fallback_elsewhere env err :
  platform env ≠ js "win32" -> windowsFallbackApplies env err = false.
Proof.
  intros Hp. unfold windowsFallbackApplies.
  replace (strEq (platform env) (js "win32")) with false; [reflexivity|].
  symmetry. now apply strEq_false.
Qed.

Ltac frame_step Hwin :=
  match goal with
  | |- respects _ (if windowsFallbackApplies ?e ?err then _ else _) =>
      rewrite (no_fallback_elsewhere e err Hwin)
  | |- respects _ (processExit _) => refine (respects_of_preserves _ _ (preserves_exit _))
  | |- respects _ (consoleLog _) => refine (respects_of_preserves _ _ (preserves_consoleLog _))
  | |- respects _ (fsWrite (fsSymlink _ _ _)) =>
      refine (respects_fsWrite _ _ _); intros ? ?; apply frame_symlink
  | |- respects _ (fsWrite (fsUnlink _ _)) =>
      refine (respects_fsWrite _ _ _); intros ? ?; apply frame_unlink
  | |- respects _ (fsWrite (fsRename _ _ _)) =>
      refine (respects_fsWrite _ _ _); intros ? ?; apply frame_rename
  | |- respects _ (fsWrite (fsWriteFile _ _ _)) =>
      refine (respects_fsWrite _ _ _); intros ? ?; apply frame_writeFile
  | |- respects _ (fsWrite (fsAppendFile _ _ _)) =>
      refine (respects_fsWrite _ _ _); intros ? ?; apply frame_appendFile
  | |- _ => respects_step
  end.

(** One pass over one input, whatever fails, on a host without the copy
    fallback. *)
Lemma processFile_frame env options unified unifiedPath file (S : jsstring -> Prop) :
  platform env ≠ js "win32" ->
  S unifiedPath -> S (gitignorePathOf env) ->
  S (inputPath env file) -> S (backupPathOf env (inputPath env file)) ->
  (file ≠ unified -> clearPaths env unifiedPath file) ->
  respects (frame [unifiedPath; gitignorePathOf env] S)
    (processFile env options unified unifiedPath file).
Proof.
  intros Hwin HSu HSg HSf HSb Hclear.
  unfold processFile.
  destruct (strEq file unified) eqn:E.
  { refine (respects_of_preserves _ _ (preserves_logVerbose _ _)). }
  apply strEq_false in E. destruct (Hclear E) as (Hc1 & Hc2 & Hc3 & Hc4).
  assert (Hf : inputPath env file ∉ [unifiedPath; gitignorePathOf env]).
  { intros H. apply elem_of_cons in H as [H | H]; [contradiction|].
    apply list_elem_of_singleton in H. contradiction. }
  assert (Hb : backupPathOf env (inputPath env file) ∉ [unifiedPath; gitignorePathOf env]).
  { intros H. apply elem_of_cons in H as [H | H]; [contradiction|].
    apply list_elem_of_singleton in H. contradiction. }
  assert (Hu : unifiedPath ∈ [unifiedPath; gitignorePathOf env]) by now left.
  assert (Hg : gitignorePathOf env ∈ [unifiedPath; gitignorePathOf env])
    by (right; now left).
  unfold inputPath, gitignorePathOf in *.
  unfold mergeContents, replaceWithSymlink, createSymlinkWithFallback, addToGitignore.
  cbv zeta.
  repeat (frame_step Hwin; try assumption).
Qed.

Lemma respects_forEach_in {A : Type} (R : FS -> FS -> Prop) `{!PreOrder R}
    (l : list A) (body : A -> M unit) :
  (forall x, x ∈ l -> respects R (body x)) -> respects R (forEach l body).
Proof.
  induction l as [|x l IH]; intros H.
  - apply respects_of_preserves; [assumption | apply preserves_ret].
  - cbn [forEach]. apply respects_bind; [assumption | apply H; now left |].
    intros _. apply IH. intros y Hy. apply H. now right.
Qed.

Lemma mainTry_frame env args options filesToProcess unified :
  parseArgs args defaultOptions [] = Parsed options filesToProcess ->
  output options = Some unified ->
  platform env ≠ js "win32" ->
  (forall f, f ∈ filesToProcess -> f ≠ unified ->
             clearPaths env (unifiedPathOf env unified) f) ->
  respects (frame [unifiedPathOf env unified; gitignorePathOf env]
              (pathOfRun env (unifiedPathOf env unified) filesToProcess))
    (mainTry env args).
Proof.
  intros Hparse Hout Hwin Hclear. unfold mainTry. rewrite Hparse, Hout.
  assert (Hu : unifiedPathOf env unified
               ∈ [unifiedPathOf env unified; gitignorePathOf env]) by now left.
  assert (HSu : pathOfRun env (unifiedPathOf env unified) filesToProcess
                  (unifiedPathOf env unified)) by now left.
  cbv zeta. fold (unifiedPathOf env unified). unfold ensureUnified.
  repeat first
    [ match goal with
      | |- respects _ (forEach helpLines consoleLog) =>
          refine (respects_of_preserves _ _
                    (preserves_forEach _ _ (fun x => preserves_consoleLog x)))
      | |- respects _ (forEach _ _) =>
          refine (respects_forEach_in _ _ _ _); intros f Hin
      end
    | frame_step Hwin; try assumption ].
  apply processFile_frame; try assumption.
  - right. now left.
  - right. right. exists f. split; [exact Hin | now left].
  - right. right. exists f. split; [exact Hin | now right].
  - now apply Hclear.
Qed.

(** X10: on a host other than Windows, whatever options are given and
    whatever calls fail, a run changes no path but the unified file, the
    ignore file, the inputs and their backups, provided that the unified
    file and the ignore file are no links and that no input or backup has
    the path of one of them. *)
Theorem run_touches_only_its_paths env args options filesToProcess unified w p :
  parseArgs args defaultOptions [] = Parsed options filesToProcess ->
  output options = Some unified ->
  platform env ≠ js "win32" ->
  (forall t, files w !! unifiedPathOf env unified ≠ Some (Link t)) ->
  (forall t, files w !! gitignorePathOf env ≠ Some (Link t)) ->
  (forall f, f ∈ filesToProcess -> f ≠ unified ->
             clearPaths env (unifiedPathOf env unified) f) ->
  ~ pathOfRun env (unifiedPathOf env unified) filesToProcess p ->
  files (snd (main env args w)) !! p = files w !! p.
Proof.
  intros Hparse Hout Hwin Hup Hgp Hclear Hp.
  assert (Hmain : respects (frame [unifiedPathOf env unified; gitignorePathOf env]
                              (pathOfRun env (unifiedPathOf env unified) filesToProcess))
                    (main env args)).
  { unfold main. apply respects_bind; [apply frame_preorder | |].
    - apply respects_attempt.
      now apply (mainTry_frame env args options filesToProcess unified).
    - intros [e|[]]; repeat (frame_step Hwin). }
  destruct (Hmain w) as [_ Hsame]; [|now apply Hsame].
  intros q Hq. apply elem_of_cons in Hq as [-> | Hq]; [exact Hup|].
  apply list_elem_of_singleton in Hq. now subst.
Qed.

Lemma run_touches_only_its_paths_witness :
  files (snd (main Scenario.deniedLinux [js "CLAUDE.md"; js "GEMINI.md"]
                (mkWorld (<[js "/w/notes.txt" := File (js "keep")]>
                            (files Scenario.rulesWorld)) [])))
    !! js "/w/notes.txt"
  = Some (File (js "keep")).
Proof.
  rewrite (run_touches_only_its_paths Scenario.deniedLinux
             [js "CLAUDE.md"; js "GEMINI.md"] defaultOptions
             [js "CLAUDE.md"; js "GEMINI.md"] (js "AGENTS.md") _ (js "/w/notes.txt")
             eq_refl eq_refl).
  - reflexivity.
  - vm_compute. discriminate.
  - intros t H. vm_compute in H. discriminate.
  - intros t H. vm_compute in H. discriminate.
  - intros f Hf _.
    apply elem_of_cons in Hf as [-> | Hf];
      [|apply list_elem_of_singleton in Hf; subst f];
      repeat split; vm_compute; discriminate.
  - intros [H | [H | (f & Hf & H)]]; try (vm_compute in H; discriminate).
    apply elem_of_cons in Hf as [-> | Hf];
      [|apply list_elem_of_singleton in Hf; subst f];
      destruct H as [H | H]; vm_compute in H; discriminate.
Defined.

(** ** Where the content of a regular input is after a pass *)











(** ** Edges of the replace step and of the link branch *)

Lemma fsUnlink_fault env p fs err :
  fault env (CallUnlink p) = Some err -> fsUnlink env p fs = inl err.
Proof. intros Hf. unfold fsUnlink, guarded. now rewrite Hf. Qed.

(** X12: when the link is created but the backup cannot be removed, the
    rollback renames the backup over the new link: the replace step throws
    the error of the removal and leaves every file as it found it. *)
Theorem failed_backup_removal_undoes_link env options unified unifiedPath file filePath
    w C e :
  let backupPath := backupPathOf env filePath in
  let T := linkTarget env options filePath unifiedPath in
  dryRun options = false ->
  files w !! filePath = Some (File C) ->
  files w !! backupPath = None ->
  fault env (CallRename filePath backupPath) = None ->
  fault env (CallSymlink T filePath) = None ->
  fault env (CallUnlink backupPath) = Some e ->
  fault env (CallRename backupPath filePath) = None ->
  let r := replaceWithSymlink env options unified unifiedPath file filePath w in
  fst r = Throw e /\ files (snd r) = files w.
Proof.
  intros bk T Hdry HC Hbk Hf1 Hf2 Hf3 Hf4 r. subst r.
  assert (Hbf : bk ≠ filePath) by apply backupPath_differs.
  unfold replaceWithSymlink. cbv zeta. fold bk. fold T. rewrite Hdry. cbn [negb].
  rewrite bind_run, bind_run, attempt_run, bind_run, fsWrite_run.
  rewrite (fsRename_found env _ _ _ _ Hf1 HC), bind_run.
  erewrite createSymlink_ok; cycle 1.
  { apply fsSymlink_fresh; [exact Hf2|]. cbn [files].
    rewrite lookup_insert_ne by exact Hbf. apply lookup_delete_eq. }
  rewrite fsWrite_run, files_emit. cbn [files].
  rewrite (fsUnlink_fault env bk _ e Hf3).
  rewrite bind_run, attempt_run, fsWrite_run, files_emit. cbn [files].
  erewrite fsRename_found; cycle 1.
  { exact Hf4. }
  { rewrite lookup_insert_ne by congruence. apply lookup_insert_eq. }
  cbn [fst snd throw files]. split; [reflexivity|].
  apply map_eq. intros p.
  destruct (decide (p = filePath)) as [-> | Hpf].
  { rewrite lookup_insert_eq. now symmetry. }
  rewrite lookup_insert_ne by congruence.
  destruct (decide (p = bk)) as [-> | Hpb].
  { rewrite lookup_delete_eq. now symmetry. }
  now rewrite lookup_delete_ne, !lookup_insert_ne, lookup_delete_ne by congruence.
Qed.

(** X13: when already the rename of the input to the backup fails and no
    file is at the backup path, the rollback tries to rename the missing
    backup back: the message about a failed rollback with the backup path is
    printed, and the error thrown is the one of the rollback ([ENOENT]), not
    the one of the first rename. No file is changed. *)
Theorem failed_first_rename_reports_rollback env options unified unifiedPath file filePath
    w e :
  let backupPath := backupPathOf env filePath in
  dryRun options = false ->
  files w !! backupPath = None ->
  fault env (CallRename filePath backupPath) = Some e ->
  fault env (CallRename backupPath filePath) = None ->
  replaceWithSymlink env options unified unifiedPath file filePath w
  = (Throw (ENOENT (js "rename") backupPath (Some filePath)),
     emit [StdErr (js "Critical error: Failed to rollback " ++ file ++ js ". Backup at "
                     ++ backupPath)] w).
Proof.
  intros bk Hdry Hbk Hf1 Hf2.
  unfold replaceWithSymlink. cbv zeta. fold bk. rewrite Hdry. cbn [negb].
  rewrite bind_run, bind_run, attempt_run, bind_run, fsWrite_run.
  rewrite (fsRename_fault env _ _ _ _ Hf1).
  rewrite bind_run, attempt_run, fsWrite_run.
  unfold fsRename, guarded. rewrite Hf2, Hbk.
  rewrite consoleError_bind. reflexivity.
Qed.

(** X14: the link branch has no rollback. When the stale link is removed
    and the new link cannot be created (with an error the Windows fallback
    does not handle), the pass throws that error and the input path is left
    with nothing at it; no other file changes. *)
Theorem failed_relink_loses_stale_link env options unified unifiedPath file w cur err :
  let filePath := inputPath env file in
  let T := linkTarget env options filePath unifiedPath in
  let r := processFile env options unified unifiedPath file w in
  dryRun options = false ->
  file ≠ unified ->
  fault env (CallLstat filePath) = None ->
  fault env (CallReadlink filePath) = None ->
  files w !! filePath = Some (Link cur) ->
  cur ≠ T ->
  fault env (CallUnlink filePath) = None ->
  fault env (CallSymlink T filePath) = Some err ->
  windowsFallbackApplies env err = false ->
  fst r = Throw err /\ files (snd r) = delete filePath (files w).
Proof.
  intros filePath T r Hdry Hne Hfl Hfr Hcur HT Hfu Hfs Hw. subst r.
  unfold inputPath in *.
  rewrite (processFile_on_link env options unified unifiedPath file w cur Hne Hfl Hfr Hcur).
  cbv zeta. fold filePath. fold T. rewrite Hdry. cbn [negb].
  replace (strEq cur T) with false by (symmetry; now apply strEq_false).
  cbn [negb].
  rewrite bind_run, log_bind, logVerbose_bind, bind_run, bind_run, fsWrite_run.
  rewrite !files_emit, (fsUnlink_found env filePath _ _ Hfu Hcur).
  rewrite (createSymlink_throw env options T filePath unifiedPath _ err
             (fsSymlink_fault env _ _ _ _ Hfs) Hw).
  split; reflexivity.
Qed.

Lemma failed_backup_removal_undoes_link_witness :
  let r := replaceWithSymlink (Paths.posix (js "linux") EdgeScenario.unlinkDenied)
             defaultOptions (js "AGENTS.md") (js "/w/AGENTS.md") (js "CLAUDE.md")
             (js "/w/CLAUDE.md") MergeScenario.mergeWorld in
  fst r = Throw (uvError (js "EACCES") (js "permission denied") (js "unlink")
                   RollbackScenario.backup None)
  /\ files (snd r) = files MergeScenario.mergeWorld.
Proof.
  apply (failed_backup_removal_undoes_link (Paths.posix (js "linux") EdgeScenario.unlinkDenied)
           defaultOptions (js "AGENTS.md") (js "/w/AGENTS.md") (js "CLAUDE.md")
           (js "/w/CLAUDE.md") MergeScenario.mergeWorld (js " rules ")
           (uvError (js "EACCES") (js "permission denied") (js "unlink")
              RollbackScenario.backup None));
    reflexivity.
Defined.

Lemma failed_first_rename_reports_rollback_witness :
  replaceWithSymlink (Paths.posix (js "linux") EdgeScenario.renameDenied)
    defaultOptions (js "AGENTS.md") (js "/w/AGENTS.md") (js "CLAUDE.md")
    (js "/w/CLAUDE.md") MergeScenario.mergeWorld
  = (Throw (ENOENT (js "rename") RollbackScenario.backup (Some (js "/w/CLAUDE.md"))),
     emit [StdErr (js "Critical error: Failed to rollback CLAUDE.md. Backup at /w/CLAUDE.md.backup-1700000000000")]
       MergeScenario.mergeWorld).
Proof.
  apply (failed_first_rename_reports_rollback
           (Paths.posix (js "linux") EdgeScenario.renameDenied)
           defaultOptions (js "AGENTS.md") (js "/w/AGENTS.md") (js "CLAUDE.md")
           (js "/w/CLAUDE.md") MergeScenario.mergeWorld
           (uvError (js "EACCES") (js "permission denied") (js "rename")
              (js "/w/CLAUDE.md") (Some RollbackScenario.backup)));
    reflexivity.
Defined.

Lemma failed_relink_loses_stale_link_witness :
  let r := processFile Scenario.deniedLinux defaultOptions (js "AGENTS.md")
             (js "/w/AGENTS.md") (js "CLAUDE.md") LinkScenario.linkWorld in
  fst r = Throw (uvError (js "EPERM") (js "operation not permitted") (js "symlink")
                   (js "AGENTS.md") (Some (js "/w/CLAUDE.md")))
  /\ files (snd r) = delete (js "/w/CLAUDE.md") (files LinkScenario.linkWorld).
Proof.
  apply (failed_relink_loses_stale_link Scenario.deniedLinux defaultOptions (js "AGENTS.md")
           (js "/w/AGENTS.md") (js "CLAUDE.md") LinkScenario.linkWorld (js "OLD.md")
           (uvError (js "EPERM") (js "operation not permitted") (js "symlink")
              (js "AGENTS.md") (Some (js "/w/CLAUDE.md")))).
  - reflexivity.
  - vm_compute. discriminate.
  - reflexivity.
  - reflexivity.
  - reflexivity.
  - vm_compute. discriminate.
  - reflexivity.
  - reflexivity.
  - reflexivity.
Defined.

(** ** What a run without faults achieves *)



(** ** The ignore file that cannot be read *)

(** X16: [addToGitignore] takes every failure to read the ignore file for
    its absence. When the read fails (the call is refused, or no regular
    file is at the end of the path) and the write goes through, the ignore
    file is written anew with one block that holds only the given name:
    what the file held before is gone. *)
Theorem unreadable_ignore_list_is_overwritten env options cwd' filename w q :
  let gitignorePath := pathJoin env cwd' (js ".gitignore") in
  dryRun options = false ->
  realpath env (files w) gitignorePath = Some q ->
  fault env (CallReadFile gitignorePath) ≠ None
  \/ (forall c, files w !! q ≠ Some (File c)) ->
  fault env (CallWriteFile gitignorePath (gitignoreBlock filename)) = None ->
  effect (addToGitignore env options cwd' filename) w
  = (Ret tt, <[q := File (gitignoreBlock filename)]> (files w)).
Proof.
  intros gp Hdry Hq Hcase Hfw.
  unfold addToGitignore. rewrite Hdry. fold gp. cbv zeta.
  rewrite effect_logVerbose_bind, effect_bind, attempt_run, fsRead_run, files_emit.
  assert (Hfail : exists e, fsReadFile env gp (files w) = inl e).
  { unfold fsReadFile, guarded. rewrite Hq.
    destruct Hcase as [Hf | Hno].
    - destruct (fault env (CallReadFile gp)); [eauto | contradiction].
    - destruct (fault env (CallReadFile gp)); [eauto|].
      destruct (files w !! q) as [[c|t]|] eqn:Hn; eauto.
      now destruct (Hno c). }
  destruct Hfail as [e ->].
  change (gitignoreBlockStart ++ [NL] ++ filename ++ [NL] ++ gitignoreBlockEnd ++ [NL])
    with (gitignoreBlock filename).
  rewrite effect_fsWrite_logs, files_emit.
  now rewrite (fsWriteFile_to env gp _ _ q Hfw Hq).
Qed.

Lemma unreadable_ignore_list_is_overwritten_witness :
  effect (addToGitignore (Paths.posix (js "linux") EdgeScenario.readDenied) defaultOptions
            (js "/w") (js "CLAUDE.md")) IgnoreScenario.completeWorld
  = (Ret tt,
     <[js "/w/.gitignore" := File (gitignoreBlock (js "CLAUDE.md"))]>
       (files IgnoreScenario.completeWorld)).
Proof.
  apply (unreadable_ignore_list_is_overwritten
           (Paths.posix (js "linux") EdgeScenario.readDenied) defaultOptions
           (js "/w") (js "CLAUDE.md") IgnoreScenario.completeWorld (js "/w/.gitignore")
           eq_refl eq_refl).
  - left. discriminate.
  - reflexivity.
Defined.

(** ** A dry run reads what a real run would have created *)

(** X17: a dry run skips the bootstrap of the unified file but still reads
    it. When the first input is a regular file and nothing is at the path
    of the unified file, the dry run ends with exit code 1 and the message
    of the failed read on standard error, with no file changed; a real run
    creates the unified file first and does not fail there. *)
Theorem dry_run_fails_without_unified_file env args options f rest unified w C :
  let filePath := inputPath env f in
  let unifiedPath := unifiedPathOf env unified in
  parseArgs args defaultOptions [] = Parsed options (f :: rest) ->
  showHelp options = false -> showVersion options = false ->
  dryRun options = true ->
  output options = Some unified ->
  f ≠ unified ->
  fault env (CallLstat filePath) = None ->
  fault env (CallReadFile filePath) = None ->
  fault env (CallReadFile unifiedPath) = None ->
  files w !! filePath = Some (File C) ->
  files w !! unifiedPath = None ->
  let r := main env args w in
  fst r = Exit 1
  /\ files (snd r) = files w
  /\ last (console (snd r))
     = Some (StdErr (js "Error: " ++ message (ENOENT (js "open") unifiedPath None))).
Proof.
  intros fp up Hparse Hh Hv Hdry Hout Hne Hfl Hfr Hfu HC HU r. subst r.
  unfold inputPath in fp. unfold unifiedPathOf in up.
  unfold main. rewrite bind_run, attempt_run.
  unfold mainTry. rewrite Hparse, Hh, Hv, Hout, Hdry.
  replace (Z.of_nat (length (f :: rest)) =? 0) with false by reflexivity.
  cbv zeta. fold up.
  rewrite consoleLog_bind, !logVerbose_bind.
  unfold ensureUnified. rewrite Hdry. cbn [negb]. rewrite logVerbose_bind.
  cbn [forEach]. rewrite bind_run.
  rewrite (processFile_on_file env options unified up f _ C Hne Hfl)
    by (rewrite !files_emit; exact HC).
  fold fp. rewrite bind_run.
  unfold mergeContents. rewrite bind_run, fsRead_run, !files_emit.
  rewrite (fsReadFile_intro env fp (files w) fp C Hfr)
    by (try apply realpath_self; first [exact HC | intros t; congruence]).
  rewrite bind_run, fsRead_run, !files_emit.
  assert (Hread : fsReadFile env up (files w) = inl (ENOENT (js "open") up None)).
  { unfold fsReadFile, guarded. rewrite Hfu, realpath_self by (intros t; congruence).
    now rewrite HU. }
  rewrite Hread. rewrite consoleError_bind.
  cbn [fst snd processExit files emit console]. split; [reflexivity|].
  split; [reflexivity|]. now rewrite last_snoc.
Qed.

Lemma dry_run_fails_without_unified_file_witness :
  let r := main Paths.linux [js "--dry-run"; js "CLAUDE.md"] Scenario.rulesWorld in
  fst r = Exit 1
  /\ files (snd r) = files Scenario.rulesWorld
  /\ last (console (snd r))
     = Some (StdErr (js "Error: "
                       ++ message (ENOENT (js "open")
                                     (unifiedPathOf Paths.linux (js "AGENTS.md")) None))).
Proof.
  apply (dry_run_fails_without_unified_file Paths.linux [js "--dry-run"; js "CLAUDE.md"]
           (mkOptions (Some (js "AGENTS.md")) false true false false false)
           (js "CLAUDE.md") [] (js "AGENTS.md") Scenario.rulesWorld (js "rules")).
  - reflexivity.
  - reflexivity.
  - reflexivity.
  - reflexivity.
  - reflexivity.
  - vm_compute. discriminate.
  - reflexivity.
  - reflexivity.
  - reflexivity.
  - reflexivity.
  - reflexivity.
Defined.

(** ** Verbosity changes the console only *)

Lemma sameEffect_bind {A B} (m m' : M A) (k k' : A -> M B) :
  sameEffect m m' -> (forall a, sameEffect (k a) (k' a)) ->
  sameEffect (bind m k) (bind m' k').
Proof.
  intros Hm Hk w w' Hw. rewrite !effect_bind.
  specialize (Hm w w' Hw). unfold effect in Hm.
  destruct (m w) as [o1 w1], (m' w') as [o2 w2]. cbn [fst snd] in Hm.
  apply pair_equal_spec in Hm as [Ho Hf]. subst o2.
  destruct o1 as [a|e|c]; [now apply Hk | now rewrite Hf | now rewrite Hf].
Qed.

Lemma sameEffect_log o o' msg msg' level level' :
  sameEffect (log o msg level) (log o' msg' level').
Proof. intros w w' Hw. now rewrite !effect_log, Hw. Qed.

Lemma sameEffect_logVerbose o o' msg msg' :
  sameEffect (logVerbose o msg) (logVerbose o' msg').
Proof. apply sameEffect_log. Qed.

Lemma sameEffect_ret {A} (a : A) : sameEffect (ret a) (ret a).
Proof. intros w w' Hw. unfold effect, ret. cbn [fst snd]. now rewrite Hw. Qed.

Lemma sameEffect_throw {A} e : sameEffect (@throw A e) (throw e).
Proof. intros w w' Hw. unfold effect, throw. cbn [fst snd]. now rewrite Hw. Qed.

Lemma sameEffect_processExit {A} c : sameEffect (@processExit A c) (processExit c).
Proof. intros w w' Hw. unfold effect, processExit. cbn [fst snd]. now rewrite Hw. Qed.

Lemma sameEffect_consoleLog msg msg' : sameEffect (consoleLog msg) (consoleLog msg').
Proof. intros w w' Hw. unfold effect, consoleLog. cbn [fst snd files]. now rewrite Hw. Qed.

Lemma sameEffect_consoleError msg msg' : sameEffect (consoleError msg) (consoleError msg').
Proof. intros w w' Hw. unfold effect, consoleError. cbn [fst snd files]. now rewrite Hw. Qed.

Lemma sameEffect_fsRead {A} (f : FS -> Error + A) : sameEffect (fsRead f) (fsRead f).
Proof.
  intros w w' Hw. unfold effect. rewrite !fsRead_run, Hw.
  destruct (f (files w')); cbn [fst snd]; now rewrite ?Hw.
Qed.

Lemma sameEffect_fsWrite f : sameEffect (fsWrite f) (fsWrite f).
Proof.
  intros w w' Hw. unfold effect. rewrite !fsWrite_run, Hw.
  destruct (f (files w')); cbn [fst snd files]; now rewrite ?Hw.
Qed.

Lemma sameEffect_attempt {A} (m m' : M A) :
  sameEffect m m' -> sameEffect (attempt m) (attempt m').
Proof.
  intros Hm w w' Hw. specialize (Hm w w' Hw). unfold effect in *.
  rewrite !attempt_run.
  destruct (m w) as [o1 w1], (m' w') as [o2 w2]. cbn [fst snd] in Hm.
  apply pair_equal_spec in Hm as [Ho Hf]. subst o2.
  destruct o1; cbn [fst snd]; now rewrite Hf.
Qed.

Lemma sameEffect_forEach {A} (l : list A) (body body' : A -> M unit) :
  (forall x, sameEffect (body x) (body' x)) ->
  sameEffect (forEach l body) (forEach l body').
Proof.
  intros Hb. induction l as [|x l IH]; cbn [forEach].
  - apply sameEffect_ret.
  - apply sameEffect_bind; [apply Hb | intros _; exact IH].
Qed.

(** One step of a proof that two runs of the same code have the same effect. *)
Ltac same_step :=
  first
    [ apply sameEffect_logVerbose
    | apply sameEffect_log
    | apply sameEffect_ret
    | apply sameEffect_throw
    | apply sameEffect_processExit
    | apply sameEffect_consoleLog
    | apply sameEffect_consoleError
    | apply sameEffect_fsRead
    | apply sameEffect_fsWrite
    | apply sameEffect_attempt
    | apply sameEffect_forEach; intros ?
    | apply sameEffect_bind; [|intros ?] ].

Ltac same_cases :=
  match goal with
  | |- sameEffect (match ?x with _ => _ end) _ => destruct x
  | |- sameEffect (if ?b then _ else _) _ => destruct b
  end.

Ltac same_solve := repeat first [same_step | same_cases].

Lemma sameButVerbose_fields o o' :
  sameButVerbose o o' ->
  exists out a d v v' h s,
    o = mkOptions out a d v h s /\ o' = mkOptions out a d v' h s.
Proof.
  destruct o, o'. unfold sameButVerbose. cbn.
  intros (-> & -> & -> & -> & ->). now eexists _, _, _, _, _, _, _.
Qed.

Lemma sameEffect_createSymlink env o o' target linkPath src :
  sameEffect (createSymlinkWithFallback env o target linkPath src)
             (createSymlinkWithFallback env o' target linkPath src).
Proof. unfold createSymlinkWithFallback. same_solve. Qed.

Lemma sameEffect_addToGitignore env o o' cwd' filename :
  sameButVerbose o o' ->
  sameEffect (addToGitignore env o cwd' filename) (addToGitignore env o' cwd' filename).
Proof.
  intros H. apply sameButVerbose_fields in H as (out & a & d & v & v' & h & s & -> & ->).
  unfold addToGitignore. cbn [dryRun]. same_solve.
Qed.

Lemma sameEffect_mergeContents env o o' unified unifiedPath file filePath :
  sameButVerbose o o' ->
  sameEffect (mergeContents env o unified unifiedPath file filePath)
             (mergeContents env o' unified unifiedPath file filePath).
Proof.
  intros H. apply sameButVerbose_fields in H as (out & a & d & v & v' & h & s & -> & ->).
  unfold mergeContents. cbn [dryRun]. same_solve.
Qed.

Lemma sameEffect_replaceWithSymlink env o o' unified unifiedPath file filePath :
  sameButVerbose o o' ->
  sameEffect (replaceWithSymlink env o unified unifiedPath file filePath)
             (replaceWithSymlink env o' unified unifiedPath file filePath).
Proof.
  intros H. apply sameButVerbose_fields in H as (out & a & d & v & v' & h & s & -> & ->).
  unfold replaceWithSymlink, linkTarget. cbn [dryRun absolute]. cbv zeta.
  repeat first [apply sameEffect_createSymlink | same_step | same_cases].
Qed.

Lemma sameEffect_processFile env o o' unified unifiedPath file :
  sameButVerbose o o' ->
  sameEffect (processFile env o unified unifiedPath file)
             (processFile env o' unified unifiedPath file).
Proof.
  intros H.
  pose proof (sameEffect_addToGitignore env o o' (cwd env) file H) as Hg.
  pose proof (sameEffect_mergeContents env o o' unified unifiedPath file
                (pathJoin env (cwd env) file) H) as Hm.
  pose proof (sameEffect_replaceWithSymlink env o o' unified unifiedPath file
                (pathJoin env (cwd env) file) H) as Hr.
  apply sameButVerbose_fields in H as (out & a & d & v & v' & h & s & -> & ->).
  unfold processFile, linkTarget. cbn [dryRun absolute]. cbv zeta.
  repeat first [exact Hg | exact Hm | exact Hr | apply sameEffect_createSymlink
               | same_step | same_cases].
Qed.

Lemma sameEffect_ensureUnified env o o' unified unifiedPath :
  sameButVerbose o o' ->
  sameEffect (ensureUnified env o unified unifiedPath)
             (ensureUnified env o' unified unifiedPath).
Proof.
  intros H. apply sameButVerbose_fields in H as (out & a & d & v & v' & h & s & -> & ->).
  unfold ensureUnified. cbn [dryRun]. same_solve.
Qed.

Lemma sameButVerbose_setVerbose o : sameButVerbose (setVerbose o) o.
Proof. repeat split. Qed.

(** Parsing from options that differ in verbosity at most. *)
Lemma parseArgs_sameButVerbose n :
  forall args o o' f,
    (length args <= n)%nat ->
    sameButVerbose o o' ->
    match parseArgs args o f, parseArgs args o' f with
    | Parsed o1 f1, Parsed o1' f1' => sameButVerbose o1 o1' /\ f1 = f1'
    | UnknownOption a, UnknownOption a' => a = a'
    | _, _ => False
    end.
Proof.
  induction n as [|n IH]; intros args o o' f Hlen Ho.
  - destruct args; [|simpl in Hlen; lia]. now split.
  - destruct args as [|a rest]; [now split|]. simpl in Hlen.
    destruct Ho as (H1 & H2 & H3 & H4 & H5).
    cbn [parseArgs].
    destruct (strEq a (js "-h") || strEq a (js "--help")).
    { apply IH; [lia|]. repeat split; assumption. }
    destruct (strEq a (js "--version")).
    { apply IH; [lia|]. repeat split; assumption. }
    destruct (strEq a (js "-o") || strEq a (js "--output")).
    { destruct rest as [|v rest'].
      - split; [|reflexivity]. repeat split; assumption.
      - simpl in Hlen. apply IH; [lia|]. repeat split; assumption. }
    destruct (strEq a (js "--absolute")).
    { apply IH; [lia|]. repeat split; assumption. }
    destruct (strEq a (js "--dry-run")).
    { apply IH; [lia|]. repeat split; assumption. }
    destruct (strEq a (js "-v") || strEq a (js "--verbose")).
    { apply IH; [lia|]. repeat split; assumption. }
    destruct (startsWith a (js "-")); [reflexivity|].
    apply IH; [lia|]. repeat split; assumption.
Qed.

Lemma sameEffect_main_verbose env a args :
  a = js "-v" \/ a = js "--verbose" ->
  sameEffect (main env (a :: args)) (main env args).
Proof.
  intros Ha.
  assert (Hparse : parseArgs (a :: args) defaultOptions []
                   = parseArgs args (setVerbose defaultOptions) []).
  { destruct Ha as [-> | ->]; reflexivity. }
  unfold main. apply sameEffect_bind.
  2:{ intros r. same_solve. }
  apply sameEffect_attempt. unfold mainTry. rewrite Hparse.
  pose proof (parseArgs_sameButVerbose (length args) args (setVerbose defaultOptions)
                defaultOptions [] (le_n _) (sameButVerbose_setVerbose _)) as H.
  destruct (parseArgs args (setVerbose defaultOptions) []) as [o1 f1|b],
           (parseArgs args defaultOptions []) as [o2 f2|b']; try contradiction.
  2:{ subst b'. same_solve. }
  destruct H as [Ho <-].
  pose proof Ho as (H1 & H2 & H3 & H4 & H5).
  rewrite H1, H3, H4, H5.
  destruct (showHelp o2); [same_solve|].
  destruct (showVersion o2); [same_solve|].
  destruct (Z.of_nat (length f1) =? 0); [same_solve|].
  destruct (output o2) as [unified|]; [|same_solve].
  cbv zeta.
  repeat first [ apply sameEffect_ensureUnified; exact Ho
               | apply sameEffect_forEach; intros ?; apply sameEffect_processFile; exact Ho
               | same_step | same_cases ].
Qed.

(** X18: the verbose flag changes what is printed and nothing else. A run
    with [-v] or [--verbose] put before its arguments ends the same way
    (returns, or exits with the same code) and leaves the same files as the
    run without it, whatever calls fail and whatever the consoles hold. *)
Theorem verbose_changes_console_only env a args w w' :
  a = js "-v" \/ a = js "--verbose" ->
  files w = files w' ->
  fst (main env (a :: args) w) = fst (main env args w')
  /\ files (snd (main env (a :: args) w)) = files (snd (main env args w')).
Proof.
  intros Ha Hw.
  pose proof (sameEffect_main_verbose env a args Ha w w' Hw) as H.
  unfold effect in H. now apply pair_equal_spec in H.
Qed.

Lemma verbose_changes_console_only_witness :
  let args := [js "CLAUDE.md"; js "GEMINI.md"] in
  fst (main Scenario.deniedLinux (js "-v" :: args) Scenario.rulesWorld)
  = fst (main Scenario.deniedLinux args Scenario.rulesWorld)
  /\ files (snd (main Scenario.deniedLinux (js "-v" :: args) Scenario.rulesWorld))
     = files (snd (main Scenario.deniedLinux args Scenario.rulesWorld)).
Proof.
  apply (verbose_changes_console_only Scenario.deniedLinux (js "-v")
           [js "CLAUDE.md"; js "GEMINI.md"] Scenario.rulesWorld Scenario.rulesWorld).
  - now left.
  - reflexivity.
Defined.

(** ** A link that is already right *)

Lemma sameButVerbose_refl o : sameButVerbose o o.
Proof. repeat split. Qed.

(** X19: an input that is a link with the expected target is neither
    removed nor created again: the pass does to the files just what the
    ignore-list step alone does, and ends as it ends, in a dry run or not
    and whatever other calls fail. *)
Theorem correct_link_is_only_listed env options unified unifiedPath file w :
  let filePath := inputPath env file in
  file ≠ unified ->
  fault env (CallLstat filePath) = None ->
  fault env (CallReadlink filePath) = None ->
  files w !! filePath = Some (Link (linkTarget env options filePath unifiedPath)) ->
  effect (processFile env options unified unifiedPath file) w
  = effect (addToGitignore env options (cwd env) file) w.
Proof.
  intros filePath Hne Hfl Hfr Hlink. unfold inputPath in filePath.
  unfold effect at 1.
  rewrite (processFile_on_link env options unified unifiedPath file w _ Hne Hfl Hfr Hlink).
  cbv zeta. fold filePath. rewrite strEq_refl. cbn [negb].
  rewrite bind_run, logVerbose_bind, logVerbose_run.
  apply (sameEffect_addToGitignore env options options (cwd env) file
           (sameButVerbose_refl options)).
  now rewrite !files_emit.
Qed.

Lemma correct_link_is_only_listed_witness :
  effect (processFile Paths.linux defaultOptions (js "AGENTS.md") (js "/w/AGENTS.md")
            (js "GEMINI.md")) LinkScenario.linkWorld
  = effect (addToGitignore Paths.linux defaultOptions (js "/w") (js "GEMINI.md"))
      LinkScenario.linkWorld.
Proof.
  apply (correct_link_is_only_listed Paths.linux defaultOptions (js "AGENTS.md")
           (js "/w/AGENTS.md") (js "GEMINI.md") LinkScenario.linkWorld).
  - vm_compute. discriminate.
  - reflexivity.
  - reflexivity.
  - reflexivity.
Defined.

(** ** An input whose status cannot be read *)

Lemma windowsFallbackApplies_EEXIST env syscall p dest :
  windowsFallbackApplies env (EEXIST syscall p dest) = false.
Proof.
  unfold windowsFallbackApplies. cbn [EEXIST uvError code].
  replace (strEq (js "EEXIST") (js "EPERM")) with false by reflexivity.
  replace (strEq (js "EEXIST") (js "ENOENT")) with false by reflexivity.
  apply andb_false_r.
Qed.

Lemma fsLstat_fault env p fs err :
  fault env (CallLstat p) = Some err -> fsLstat env p fs = inl err.
Proof. intros Hf. unfold fsLstat, guarded. now rewrite Hf. Qed.

(** X20: the program takes every failure of [lstat] for the absence of the
    input. When something is at the input path and only its status cannot
    be read, the pass goes on to create the link, finds the path taken, and
    throws [EEXIST] on every platform: the input is neither merged nor
    replaced, and no file changes. *)
Theorem unreadable_status_is_taken_for_absence env options unified unifiedPath file w e n :
  let filePath := inputPath env file in
  let T := linkTarget env options filePath unifiedPath in
  let r := processFile env options unified unifiedPath file w in
  dryRun options = false ->
  file ≠ unified ->
  fault env (CallLstat filePath) = Some e ->
  fault env (CallSymlink T filePath) = None ->
  files w !! filePath = Some n ->
  fst r = Throw (EEXIST (js "symlink") T (Some filePath)) /\ files (snd r) = files w.
Proof.
  intros filePath T r Hdry Hne Hfl Hfs Hn. subst r. unfold inputPath in filePath.
  unfold processFile.
  replace (strEq file unified) with false by (symmetry; now apply strEq_false).
  rewrite logVerbose_bind. cbv zeta. fold filePath. fold T.
  rewrite bind_run, attempt_run, fsRead_run, files_emit.
  rewrite (fsLstat_fault env filePath _ e Hfl), Hdry. cbn [negb].
  rewrite bind_run.
  rewrite (createSymlink_throw env options T filePath unifiedPath _
             (EEXIST (js "symlink") T (Some filePath))).
  - split; reflexivity.
  - rewrite files_emit. unfold fsSymlink, guarded. now rewrite Hfs, Hn.
  - apply windowsFallbackApplies_EEXIST.
Qed.

Lemma unreadable_status_is_taken_for_absence_witness :
  let r := processFile (Paths.win32 EdgeScenario.lstatDenied) defaultOptions
             (js "AGENTS.md") (js "C:\w\AGENTS.md") (js "AGENTS.md.bak")
             (mkWorld (<[js "C:\w\AGENTS.md.bak" := File (js "old")]>
                         (files Scenario.winWorld)) []) in
  fst r = Throw (EEXIST (js "symlink") (js "AGENTS.md") (Some (js "C:\w\AGENTS.md.bak")))
  /\ files (snd r) = <[js "C:\w\AGENTS.md.bak" := File (js "old")]> (files Scenario.winWorld).
Proof.
  pose proof (unreadable_status_is_taken_for_absence (Paths.win32 EdgeScenario.lstatDenied)
                defaultOptions (js "AGENTS.md") (js "C:\w\AGENTS.md") (js "AGENTS.md.bak")
                (mkWorld (<[js "C:\w\AGENTS.md.bak" := File (js "old")]>
                            (files Scenario.winWorld)) [])
                (uvError (js "EACCES") (js "permission denied") (js "lstat")
                   (js "C:\w\AGENTS.md.bak") None)
                (File (js "old")) eq_refl) as H.
  cbv zeta in H.
  assert (Hne : js "AGENTS.md.bak" ≠ js "AGENTS.md") by (vm_compute; discriminate).
  specialize (H Hne eq_refl eq_refl eq_refl).
  exact H.
Defined.
